(** * Valorant player statistics tracker: a shallow embedding of [app.py]

    The application keeps two relations in a PostgreSQL database,
    [users] and [matches], and drives them from a Streamlit page.  The
    development below embeds

    - the repository helpers ([get_user], [login], [register_user],
      [add_match], [delete_match], the two fetch queries),
    - the aggregation pipeline ([calculate_kd_ratio],
      [aggregate_player_stats], [rank_players]),
    - the button handlers of the page (login, registration, match
      submission, record deletion),

    with the database as an explicit state that every helper threads.

    Numbers: Python [int] is [Z]; Python [float] and the [float64]
    columns of a frame are the doubles of [F64], every operation
    rounding its exact result to the nearest of them.  Text: Python
    [str] is [string]. *)

From Stdlib Require Import List String Ascii Bool ZArith QArith Qround Qabs Qpower.
From Stdlib Require Import Lia Lqa.
From Stdlib Require Import Permutation Sorted DecimalString.
Import ListNotations.

Local Open Scope string_scope.
Local Open Scope Z_scope.

(** ** Data model *)

(** A row of [users(id, username, password_hash, role)].  The role column
    is text; the code only ever compares it with ["player"]. *)
Record User : Type := mkUser {
  u_id : Z;
  username : string;
  password_hash : string;
  role : string
}.

(** A row of [matches]. *)
Record MatchRow : Type := mkMatch {
  id : Z;
  user_id : Z;
  player_name : string;
  win_loss : string;
  map_name : string;
  agent : string;
  current_rank : string;
  acs : Z;
  econ_rating : Q;
  kills : Z;
  deaths : Z;
  assists : Z
}.

(** The database: both tables in insertion order, and the two serial
    counters that generate the primary keys. *)
Record Db : Type := mkDb {
  users : list User;
  matches : list MatchRow;
  next_user_id : Z;
  next_match_id : Z
}.

Definition with_matches (db : Db) (ms : list MatchRow) : Db :=
  mkDb (users db) ms (next_user_id db) (next_match_id db).

(** ** Double precision numbers *)

(** A Python [float], and an entry of a numpy [float64] column: a finite
    number, an infinity or NaN.  The finite ones are the rationals
    [m * 2^e] with [|m| < 2^53] and [-1074 <= e], below [2^1024] in
    size; every operation returns the exact result rounded to the
    nearest of them, ties to the even [m], as IEEE 754 lays down.  The
    sign of zero is not kept. *)
Module F64.

Inductive float : Type :=
| Fin (q : Q)
| Inf (negative : bool)
| NaN.

Definition emin : Z := -1074.
Definition emax : Z := 1024.

Definition pow2 (e : Z) : Q := (2 ^ e)%Q.

(** [floor (log2 q)] for a positive [q]. *)
Definition ilog2 (q : Q) : Z :=
  let k := Z.log2 (Qnum q) - Z.log2 (Zpos (Qden q)) in
  if Qle_bool (pow2 k) q then k else k - 1.

(** Nearest integer, halves to the even neighbour. *)
Definition nearest_even (q : Q) : Z :=
  let f := Qfloor q in
  match (q - inject_Z f ?= 1 # 2)%Q with
  | Lt => f
  | Gt => f + 1
  | Eq => if Z.even f then f else f + 1
  end.

(** The exponent of the last place of a double near [q]: 52 places below
    the leading bit, but never below the subnormal spacing. *)
Definition ulp_exp (q : Q) : Z := Z.max (ilog2 (Qabs q) - 52) emin.

(** Rounding to nearest, unbounded above. *)
Definition nearest (q : Q) : Q :=
  if Qeq_bool q 0 then 0%Q
  else Qred (inject_Z (nearest_even (q / pow2 (ulp_exp q))) * pow2 (ulp_exp q)).

(** Rounding of an exact result to a double: what lands at or beyond
    [2^1024] overflows to an infinity. *)
Definition round (q : Q) : float :=
  let r := nearest q in
  if Qle_bool (pow2 emax) (Qabs r) then Inf (negb (Qle_bool 0 q)) else Fin r.

(** The shape of a double: [m * 2^e] with [|m| < 2^53] and [emin <= e]. *)
Definition has_format (q : Q) : Prop :=
  exists m e : Z, (q == inject_Z m * pow2 e)%Q /\ Z.abs m < 2 ^ 53 /\ emin <= e.

(** A finite double: of that shape, and below [2^emax] in size. *)
Definition representable (q : Q) : Prop :=
  has_format q /\ (Qabs q < pow2 emax)%Q.

(** Conversion of an integer, as the cast of an [int64] column does. *)
Definition of_Z (z : Z) : float := round (inject_Z z).

Definition is_nan (x : float) : bool :=
  match x with
  | NaN => true
  | _ => false
  end.

Definition opp (x : float) : float :=
  match x with
  | Fin q => Fin (Qred (- q))
  | Inf s => Inf (negb s)
  | NaN => NaN
  end.

Definition add (x y : float) : float :=
  match x, y with
  | NaN, _ | _, NaN => NaN
  | Inf s, Inf s' => if Bool.eqb s s' then Inf s else NaN
  | Inf s, Fin _ => Inf s
  | Fin _, Inf s => Inf s
  | Fin a, Fin b => round (a + b)
  end.

Definition sub (x y : float) : float := add x (opp y).

Definition is_zero (q : Q) : bool := Qeq_bool q 0.
Definition is_neg (q : Q) : bool := negb (Qle_bool 0 q).

Definition mul (x y : float) : float :=
  match x, y with
  | NaN, _ | _, NaN => NaN
  | Inf s, Inf s' => Inf (xorb s s')
  | Inf s, Fin b => if is_zero b then NaN else Inf (xorb s (is_neg b))
  | Fin a, Inf s => if is_zero a then NaN else Inf (xorb (is_neg a) s)
  | Fin a, Fin b => round (a * b)
  end.

Definition div (x y : float) : float :=
  match x, y with
  | NaN, _ | _, NaN => NaN
  | Inf _, Inf _ => NaN
  | Inf s, Fin b => Inf (xorb s (is_neg b))
  | Fin _, Inf _ => Fin 0
  | Fin a, Fin b =>
      if is_zero b then (if is_zero a then NaN else Inf (is_neg a))
      else round (a / b)
  end.

(** [numpy.rint]: the nearest integer, halves to the even one. *)
Definition rint (x : float) : float :=
  match x with
  | Fin q => Fin (inject_Z (nearest_even q))
  | _ => x
  end.

(** The number a double stands for; the integer columns of this program
    never yield the other two. *)
Definition value (x : float) : Q :=
  match x with
  | Fin q => q
  | _ => 0%Q
  end.

End F64.

(** What a Python expression over numbers yields: an [int] or a [float]. *)
Inductive PyNum : Type :=
| PyInt (z : Z)
| PyFloat (x : F64.float).

(** The float a column of dtype [float64] holds for it. *)
Definition to_float (n : PyNum) : F64.float :=
  match n with
  | PyInt z => F64.of_Z z
  | PyFloat x => x
  end.

(** ** Match helpers *)

Module Matches.

(** [kills if deaths == 0 else kills / deaths]: the integer itself in
    the first case, and in the second the true division of two integers,
    which is their exact quotient rounded to a double.  (So it is for
    Python integers of any size short of overflow, and for the [int64]
    entries of a frame row as long as both are below [2^53], which is
    also as far as the number widgets of the page go.) *)
Definition calculate_kd_ratio (kills deaths : Z) : PyNum :=
  if deaths =? 0 then PyInt kills
  else PyFloat (F64.round (inject_Z kills / inject_Z deaths)).

(** [INSERT INTO matches (...) VALUES (...)]: one row appended, its id
    taken from the serial counter. *)
Definition add_match (uid : Z) (pname wl mp ag rk : string) (acs_ : Z)
    (econ : Q) (k d a : Z) (db : Db) : Db :=
  mkDb (users db)
       (matches db ++ [mkMatch (next_match_id db) uid pname wl mp ag rk acs_ econ k d a])
       (next_user_id db)
       (next_match_id db + 1).

(** [DELETE FROM matches WHERE <cond>]: every row satisfying the
    condition goes, the others stay in place. *)
Fixpoint sql_delete (cond : MatchRow -> bool) (t : list MatchRow) : list MatchRow :=
  match t with
  | [] => []
  | r :: t' => if cond r then sql_delete cond t' else r :: sql_delete cond t'
  end.

(** The two [WHERE] clauses of [delete_match]. *)
Definition where_id_and_owner (record_id uid : Z) (r : MatchRow) : bool :=
  (id r =? record_id) && (user_id r =? uid).

Definition where_id (record_id : Z) (r : MatchRow) : bool :=
  id r =? record_id.

Definition delete_match_rows (record_id : Z) (user : User) (t : list MatchRow)
  : list MatchRow :=
  if String.eqb (role user) "player"
  then sql_delete (where_id_and_owner record_id (u_id user)) t
  else sql_delete (where_id record_id) t.

Definition delete_match (record_id : Z) (user : User) (db : Db) : Db :=
  with_matches db (delete_match_rows record_id user (matches db)).

(** Rows in descending id order, as [ORDER BY id DESC] returns them. *)
Fixpoint insert_desc (r : MatchRow) (l : list MatchRow) : list MatchRow :=
  match l with
  | [] => [r]
  | x :: l' => if id x <? id r then r :: l else x :: insert_desc r l'
  end.

Definition order_by_id_desc (l : list MatchRow) : list MatchRow :=
  fold_right insert_desc [] l.

Definition fetch_matches_by_user (uname : string) (db : Db) : list MatchRow :=
  order_by_id_desc (filter (fun r => String.eqb (player_name r) uname) (matches db)).

Definition fetch_all_matches (db : Db) : list MatchRow :=
  order_by_id_desc (matches db).

(** [sublist l1 l2]: [l1] is [l2] with some rows struck out, the rest in
    place. *)
Inductive sublist : list MatchRow -> list MatchRow -> Prop :=
| sub_nil : sublist [] []
| sub_keep r l1 l2 : sublist l1 l2 -> sublist (r :: l1) (r :: l2)
| sub_drop r l1 l2 : sublist l1 l2 -> sublist l1 (r :: l2).

End Matches.


(** ** Outcomes of the page: messages and Python exceptions *)

(** What a handler puts on the page: [st.error], [st.success]. *)
Inductive Msg : Type :=
| StError (text : string)
| StSuccess (text : string).

(** The exceptions that escape the modelled code. *)
Inductive PyExc : Type :=
| KeyError (key : string)
| ValueError (what : string).

Inductive Exc (A : Type) : Type :=
| Ok (a : A)
| Raise (e : PyExc).

Arguments Ok {A} a.
Arguments Raise {A} e.

(** ** Authentication helpers *)

(** The two [bcrypt] entry points the code calls.  [gensalt] draws a fresh
    random salt; it is an explicit argument here. *)
Class Bcrypt : Type := {
  hashpw : string -> string -> string;
  checkpw : string -> string -> bool
}.

Module Auth.

Section WithBcrypt.

Context {B : Bcrypt}.

(** [SELECT * FROM users WHERE username = %s] followed by [fetchone]. *)
Definition get_user (uname : string) (db : Db) : option User :=
  find (fun u => String.eqb (username u) uname) (users db).

Definition verify_password (password pw_hash : string) : bool :=
  checkpw password pw_hash.

(** Modelled from the spec: the schema [users(id PK, username UNIQUE,
    password_hash, role)], which is not part of the source files.  An
    insert under a name that a row already carries violates the
    constraint. *)
Definition violates_unique (uname : string) (db : Db) : bool :=
  existsb (fun u => String.eqb (username u) uname) (users db).

(** [register_user]: hash, then insert a row with role ['player'].  The
    insert is inside [try]: a refused insert is reported with [st.error]
    and answered with [False], a committed one with [True]. *)
Definition register_user (uname password salt : string) (db : Db)
  : bool * list Msg * Db :=
  let hashed := hashpw password salt in
  if violates_unique uname db
  then (false, [StError "Error registering user: duplicate key value violates unique constraint"], db)
  else (true, [],
        mkDb (users db ++ [mkUser (next_user_id db) uname hashed "player"])
             (matches db) (next_user_id db + 1) (next_match_id db)).

(** [login]: the user row when the name exists and the password checks,
    [None] otherwise. *)
Definition login (uname password : string) (db : Db) : option User :=
  match get_user uname db with
  | Some user => if verify_password password (password_hash user) then Some user else None
  | None => None
  end.

End WithBcrypt.

End Auth.

(** A stand-in for [bcrypt] that keeps the password as its own hash, to
    run the helpers on examples. *)
Definition plain_bcrypt : Bcrypt :=
  {| hashpw := fun password _ => password;
     checkpw := fun password pw_hash => String.eqb password pw_hash |}.

(** ** Python text operations used by the delete form *)

Module Py.

Local Open Scope char_scope.

(** Characters are code points below 256.  Among them [str.isspace], and
    with it [str.strip], counts these as white space: tab to carriage
    return, the four separators 28 to 31, space, NEL and the no-break
    space. *)
Definition is_space (c : ascii) : bool :=
  let n := N_of_ascii c in
  ((9 <=? n) && (n <=? 13) || (28 <=? n) && (n <=? 32) || (n =? 133) || (n =? 160))%N.

(** [int] skips less around a literal: the separators 28 to 31 are not
    skipped, and a string that holds one is refused. *)
Definition is_int_space (c : ascii) : bool :=
  let n := N_of_ascii c in
  ((9 <=? n) && (n <=? 13) || (n =? 32) || (n =? 133) || (n =? 160))%N.

Definition digit_val (c : ascii) : option Z :=
  let n := N_of_ascii c in
  if ((48 <=? n) && (n <=? 57))%N then Some (Z.of_N n - 48) else None.


Fixpoint lstrip (s : list ascii) : list ascii :=
  match s with
  | c :: s' => if is_space c then lstrip s' else s
  | [] => []
  end.

Definition strip (s : list ascii) : list ascii :=
  rev (lstrip (rev (lstrip s))).

Fixpoint int_lstrip (s : list ascii) : list ascii :=
  match s with
  | c :: s' => if is_int_space c then int_lstrip s' else s
  | [] => []
  end.

Definition int_strip (s : list ascii) : list ascii :=
  rev (int_lstrip (rev (int_lstrip s))).

(** Digits of a decimal literal.  A single underscore may stand between
    two digits; [prev] tells that the previous character was a digit.
    The result carries the number of digits read. *)
Fixpoint digits (acc : Z) (count : Z) (prev : bool) (s : list ascii) : option (Z * Z) :=
  match s with
  | [] => if prev then Some (acc, count) else None
  | c :: s' =>
      match digit_val c with
      | Some d => digits (10 * acc + d)%Z (count + 1)%Z true s'
      | None => if Ascii.eqb c "_" && prev then digits acc count false s' else None
      end
  end.

(** [sys.int_max_str_digits]: longer literals are refused. *)
Definition int_max_str_digits : Z := 4300.

Definition unsigned_literal (s : list ascii) : option Z :=
  match digits 0 0 false s with
  | Some (n, count) => if (int_max_str_digits <? count)%Z then None else Some n
  | None => None
  end.

(** [int(s)] for a string, base ten: [None] stands for [ValueError]. *)
Definition int (s : string) : option Z :=
  match int_strip (list_ascii_of_string s) with
  | "-" :: body => option_map Z.opp (unsigned_literal body)
  | "+" :: body => unsigned_literal body
  | body => unsigned_literal body
  end.

(** [s.split(sep)[0]]: the text before the first occurrence of [sep], all
    of [s] when there is none. *)
Fixpoint split_first (sep s : string) : string :=
  if String.prefix sep s then EmptyString
  else match s with
       | EmptyString => EmptyString
       | String c s' => String c (split_first sep s')
       end.

(** [str(n)] for an integer, as an f-string prints it. *)
Definition str_of_int (n : Z) : string :=
  DecimalString.NilZero.string_of_int (Z.to_int n).

Definition upper (c : ascii) : ascii :=
  let n := N_of_ascii c in
  if ((97 <=? n) && (n <=? 122))%N then ascii_of_N (n - 32) else c.

Definition lower (c : ascii) : ascii :=
  let n := N_of_ascii c in
  if ((65 <=? n) && (n <=? 90))%N then ascii_of_N (n + 32) else c.

(** [s.capitalize()] on ASCII text, which is what a role name is. *)
Definition capitalize (s : string) : string :=
  match list_ascii_of_string s with
  | [] => EmptyString
  | c :: cs => string_of_list_ascii (upper c :: map lower cs)
  end.


End Py.

(** ** Aggregation engine *)

(** One row of the aggregated frame.  The frame's columns are
    [player_name], [avg_acs], [avg_econ_rating], [kills], [deaths],
    [assists], [K/D Ratio] and [matches_played]; the three sums and the
    mean ratio are named here after what they hold. *)
Record AggRow : Type := mkAgg {
  a_player_name : string;
  avg_acs : Q;
  avg_econ_rating : F64.float;
  total_kills : Z;
  total_deaths : Z;
  total_assists : Z;
  avg_kd_ratio : Q;
  matches_played : Z
}.

(** A frame: column labels, row labels, rows. *)
Record DataFrame : Type := mkFrame {
  columns : list string;
  index : list Z;
  rows : list AggRow
}.

Module Aggregation.

(** [pd.DataFrame()] *)
Definition empty_frame : DataFrame := mkFrame [] [] [].

(** [df.empty]: some axis has length zero. *)
Definition empty (df : DataFrame) : bool :=
  match columns df, rows df with
  | [], _ => true
  | _, [] => true
  | _, _ => false
  end.

Definition agg_columns : list string :=
  ["player_name"; "avg_acs"; "avg_econ_rating"; "kills"; "deaths"; "assists";
   "K/D Ratio"; "matches_played"].

(** [RangeIndex(start, start + n)] *)
Definition range_index (start : Z) (n : nat) : list Z :=
  map (fun i => start + Z.of_nat i) (seq 0 n).

(** *** Grouping *)

Definition Groups : Type := list (string * list MatchRow).

Definition has_key (k : string) (gs : Groups) : bool :=
  existsb (fun g => String.eqb (fst g) k) gs.

Fixpoint add_to_group (r : MatchRow) (gs : Groups) : Groups :=
  match gs with
  | [] => []
  | (k, rs) :: gs' =>
      if String.eqb k (player_name r) then (k, (rs ++ [r])%list) :: gs'
      else (k, rs) :: add_to_group r gs'
  end.

Fixpoint insert_key (k : string) (r : MatchRow) (gs : Groups) : Groups :=
  match gs with
  | [] => [(k, [r])]
  | (k', rs) :: gs' =>
      if String.ltb k k' then (k, [r]) :: gs
      else (k', rs) :: insert_key k r gs'
  end.

(** [df.groupby("player_name")]: one group per name, names in ascending
    order, the rows of a group in the order of the frame. *)
Definition groupby_step (gs : Groups) (r : MatchRow) : Groups :=
  if has_key (player_name r) gs then add_to_group r gs
  else insert_key (player_name r) r gs.

Definition groupby_player_name (data : list MatchRow) : Groups :=
  fold_left groupby_step data [].

Definition keys (gs : Groups) : list string := map fst gs.

(** The rows of [data] that carry the name [k]. *)
Definition rows_of (k : string) (data : list MatchRow) : list MatchRow :=
  filter (fun r => String.eqb (player_name r) k) data.

(** What holds of the groups after any number of rows: one group per
    name that occurs, holding exactly the rows with that name, in order. *)
Definition grouped (data : list MatchRow) (gs : Groups) : Prop :=
  NoDup (keys gs)
  /\ (forall k, In k (keys gs) <-> In k (map player_name data))
  /\ Forall (fun g => snd g = rows_of (fst g) data) gs.

(** *** Column reductions *)

Definition Zsum (l : list Z) : Z := fold_right Z.add 0 l.

(** One step of the compensated summation [group_mean] runs over the
    values of a group: the running sum and its compensation.  A
    compensation that has become NaN is put back to zero. *)
Definition kahan_step (st : F64.float * F64.float) (val : F64.float)
  : F64.float * F64.float :=
  let '(sumx, compensation) := st in
  let y := F64.sub val compensation in
  let t := F64.add sumx y in
  let c := F64.sub (F64.sub t sumx) y in
  (t, if F64.is_nan c then F64.Fin 0 else c).

(** ["mean"] of a [float64] column over one group: the compensated sum
    divided by the number of values. *)
Definition group_mean (vals : list F64.float) : F64.float :=
  F64.div (fst (fold_left kahan_step vals (F64.Fin 0, F64.Fin 0)))
          (F64.of_Z (Z.of_nat (List.length vals))).

(** [round(2)] on a float column: times 100, [rint], divided by 100. *)
Definition round2 (x : F64.float) : F64.float :=
  F64.div (F64.rint (F64.mul x (F64.Fin 100))) (F64.Fin 100).

(** The three columns that are averaged, as [float64] values: the
    integer scores are cast, the economy ratings are doubles already,
    and the K/D column holds what [calculate_kd_ratio] returned. *)
Definition acs_of_row (r : MatchRow) : F64.float := F64.of_Z (acs r).

Definition econ_of_row (r : MatchRow) : F64.float := F64.round (econ_rating r).

Definition kd_of_row (r : MatchRow) : F64.float :=
  to_float (Matches.calculate_kd_ratio (kills r) (deaths r)).

(** The [agg] dictionary applied to one group, before rounding. *)
Record Aggregated : Type := mkAggregated {
  g_player_name : string;
  g_acs : F64.float;
  g_econ_rating : F64.float;
  g_kills : Z;
  g_deaths : Z;
  g_assists : Z;
  g_kd_ratio : F64.float;
  g_matches_played : Z
}.

Definition agg_group (g : string * list MatchRow) : Aggregated :=
  let rs := snd g in
  mkAggregated (fst g)
               (group_mean (map acs_of_row rs))
               (group_mean (map econ_of_row rs))
               (Zsum (map kills rs))
               (Zsum (map deaths rs))
               (Zsum (map assists rs))
               (group_mean (map kd_of_row rs))
               (Z.of_nat (List.length rs)).

(** [round(2)] on a row: the float columns are rounded, the integer
    columns and the name are left alone. *)
Definition round_row (a : Aggregated) : AggRow :=
  mkAgg (g_player_name a)
        (F64.value (round2 (g_acs a)))
        (round2 (g_econ_rating a))
        (g_kills a) (g_deaths a) (g_assists a)
        (F64.value (round2 (g_kd_ratio a)))
        (g_matches_played a).

Definition aggregate_player_stats (data : list MatchRow) : DataFrame :=
  match data with
  | [] => empty_frame
  | _ =>
      let aggregated := map agg_group (groupby_player_name data) in
      mkFrame agg_columns
              (range_index 0 (List.length aggregated))
              (map round_row aggregated)
  end.

(** *** Sorting *)

(** [numpy.argsort] of a float column under some sort [kind]: the
    positions of the values in ascending order of value. *)
Class SortKind : Type := {
  argsort : list Q -> list nat
}.

(** What every kind promises: the answer lists each position once, and
    reading the values in that order never goes down. *)
Definition Lawful (K : SortKind) : Prop :=
  forall l : list Q,
    Permutation (argsort l) (seq 0 (List.length l)) /\
    StronglySorted Qle (map (fun i => nth i l 0%Q) (argsort l)).

(** What only [kind='stable'] and [kind='mergesort'] promise: equal
    values keep their order. *)
Definition Stable (K : SortKind) : Prop :=
  forall (l : list Q) (v : Q),
    filter (fun i => Qeq_bool (nth i l 0%Q) v) (argsort l) =
    filter (fun i => Qeq_bool (nth i l 0%Q) v) (seq 0 (List.length l)).

(** [take]: the rows at the given positions. *)
Definition take {A : Type} (indexer : list nat) (l : list A) : list A :=
  flat_map (fun i => match nth_error l i with Some x => [x] | None => [] end) indexer.

(** The indexer [sort_values(ascending=False)] computes for one column
    without missing values: reverse, sort ascending, reverse again. *)
Definition nargsort_descending {K : SortKind} (items : list Q) : list nat :=
  let idx := seq 0 (List.length items) in
  let non_nans := rev items in
  let non_nan_idx := rev idx in
  let indexer := map (fun j => nth j non_nan_idx 0%nat) (argsort non_nans) in
  rev indexer.

(** [rank_players]: [sort_values(by="avg_acs", ascending=False)], then
    [reset_index(drop=True)] and [index += 1].  A frame without the
    column makes [sort_values] raise [KeyError]. *)
Definition rank_players {K : SortKind} (aggregated_df : DataFrame) : Exc DataFrame :=
  if existsb (String.eqb "avg_acs") (columns aggregated_df) then
    let indexer := nargsort_descending (map avg_acs (rows aggregated_df)) in
    let ranked := take indexer (rows aggregated_df) in
    Ok (mkFrame (columns aggregated_df)
                (map (fun i => i + 1) (range_index 0 (List.length ranked)))
                ranked)
  else Raise (KeyError "avg_acs").

(** The leaderboard part of the page: aggregate, and rank only a frame
    that is not empty. *)
Definition leaderboard {K : SortKind} (all_match_data : list MatchRow)
  : Exc (option DataFrame) :=
  match all_match_data with
  | [] => Ok None
  | _ =>
      let aggregated_df := aggregate_player_stats all_match_data in
      if negb (empty aggregated_df) then
        match rank_players aggregated_df with
        | Ok ranked_df => Ok (Some ranked_df)
        | Raise e => Raise e
        end
      else Ok None
  end.

End Aggregation.

(** ** Sort kinds *)

Module Kinds.

Import Aggregation.

Definition Qltb (x y : Q) : bool := negb (Qle_bool y x).

(** *** A stable kind: insertion of the positions from left to right *)

Fixpoint insert_pos (l : list Q) (i : nat) (ix : list nat) : list nat :=
  match ix with
  | [] => [i]
  | j :: ix' =>
      if Qltb (nth i l 0%Q) (nth j l 0%Q) then i :: ix
      else j :: insert_pos l i ix'
  end.

Definition insertion_argsort (l : list Q) : list nat :=
  fold_left (fun ix i => insert_pos l i ix) (seq 0 (List.length l)) [].

Definition stable_kind : SortKind := {| argsort := insertion_argsort |}.

(** *** The default kind, ['quicksort']

    numpy's indirect introsort on an array of positions [a], as its
    scalar code runs it: a range [pl..pr] with [pr - pl > 16], that is
    of eighteen positions or more, is partitioned around the median of
    its first, middle and last value, a shorter range is sorted by
    insertion, and a postponed range whose depth budget is spent is heap
    sorted. *)

Section Introsort.

Variable v : list Q.

Open Scope nat_scope.

(** [v[a[p]]] *)
Definition val (a : list nat) (p : nat) : Q := nth (nth p a 0) v 0%Q.

Fixpoint set_nth (p x : nat) (a : list nat) : list nat :=
  match a, p with
  | [], _ => []
  | _ :: a', 0 => x :: a'
  | y :: a', S p' => y :: set_nth p' x a'
  end.

(** [INTP_SWAP(a[p], a[q])] *)
Definition swap (p q : nat) (a : list nat) : list nat :=
  set_nth q (nth p a 0) (set_nth p (nth q a 0) a).

Definition swap_if (b : bool) (p q : nat) (a : list nat) : list nat :=
  if b then swap p q a else a.

(** [do ++pi; while (v[a[pi]] < vp)] *)
Fixpoint scan_up (fuel pi : nat) (vp : Q) (a : list nat) : nat :=
  match fuel with
  | 0 => pi
  | S f => if Qltb (val a (S pi)) vp then scan_up f (S pi) vp a else S pi
  end.

(** [do --pj; while (vp < v[a[pj]])] *)
Fixpoint scan_down (fuel pj : nat) (vp : Q) (a : list nat) : nat :=
  match fuel with
  | 0 => pj
  | S f => if Qltb vp (val a (pj - 1)) then scan_down f (pj - 1) vp a else pj - 1
  end.

(** The exchange loop of a partition: returns the meeting point. *)
Fixpoint exchange (fuel pi pj : nat) (vp : Q) (a : list nat) : nat * list nat :=
  match fuel with
  | 0 => (pi, a)
  | S f =>
      let pi' := scan_up (List.length a) pi vp a in
      let pj' := scan_down (List.length a) pj vp a in
      if pj' <=? pi' then (pi', a)
      else exchange f pi' pj' vp (swap pi' pj' a)
  end.

(** One partition of the range [pl..pr]: the position where the pivot
    ends, and the array. *)
Definition partition (pl pr : nat) (a : list nat) : nat * list nat :=
  let pm := pl + (pr - pl) / 2 in
  let a1 := swap_if (Qltb (val a pm) (val a pl)) pm pl a in
  let a2 := swap_if (Qltb (val a1 pr) (val a1 pm)) pr pm a1 in
  let a3 := swap_if (Qltb (val a2 pm) (val a2 pl)) pm pl a2 in
  let vp := val a3 pm in
  let a4 := swap pm (pr - 1) a3 in
  let '(pi, a5) := exchange (List.length a) pl (pr - 1) vp a4 in
  (pi, swap pi (pr - 1) a5).

(** The inner loop of the insertion sort: shift larger values right. *)
Fixpoint shift (fuel pj pl : nat) (vp : Q) (a : list nat) : nat * list nat :=
  match fuel with
  | 0 => (pj, a)
  | S f =>
      if (pl <? pj) && Qltb vp (val a (pj - 1))
      then shift f (pj - 1) pl vp (set_nth pj (nth (pj - 1) a 0) a)
      else (pj, a)
  end.

Definition insert_one (pl : nat) (a : list nat) (pi : nat) : list nat :=
  let vi := nth pi a 0 in
  let vp := nth vi v 0%Q in
  let '(pj, a') := shift pi pi pl vp a in
  set_nth pj vi a'.

Definition insertion_sort (pl pr : nat) (a : list nat) : list nat :=
  fold_left (insert_one pl) (seq (S pl) (pr - pl)) a.

(** Heap sort of the [n] positions from [base] on; the heap is indexed
    from one, so heap cell [k] is array cell [base + k - 1]. *)
Definition cell (base k : nat) : nat := base + k - 1.

Fixpoint sift (fuel base tmp i j n : nat) (a : list nat) : list nat :=
  match fuel with
  | 0 => set_nth (cell base i) tmp a
  | S f =>
      if j <=? n then
        let j' := if (j <? n) && Qltb (val a (cell base j)) (val a (cell base (S j)))
                  then S j else j in
        if Qltb (nth tmp v 0%Q) (val a (cell base j'))
        then sift f base tmp j' (j' + j') n (set_nth (cell base i) (nth (cell base j') a 0) a)
        else set_nth (cell base i) tmp a
      else set_nth (cell base i) tmp a
  end.

Definition heapify (base n : nat) (a : list nat) : list nat :=
  fold_left (fun a l => sift n base (nth (cell base l) a 0) l (l + l) n a)
            (rev (seq 1 (n / 2))) a.

Definition extract (base : nat) (a : list nat) (n : nat) : list nat :=
  let tmp := nth (cell base n) a 0 in
  let a' := set_nth (cell base n) (nth (cell base 1) a 0) a in
  sift n base tmp 1 2 (n - 1) a'.

Definition heapsort (base n : nat) (a : list nat) : list nat :=
  fold_left (extract base) (rev (seq 2 (n - 1))) (heapify base n a).

(** The driver: the current range, its depth budget, the stack of
    postponed ranges with theirs. *)
Fixpoint introsort (fuel pl pr : nat) (cdepth : Z) (stack : list (nat * nat * Z))
    (a : list nat) : list nat :=
  match fuel with
  | 0 => a
  | S f =>
      if 16 <? pr - pl then
        let '(pi, a') := partition pl pr a in
        if pi - pl <? pr - pi
        then introsort f pl (pi - 1) (cdepth - 1) ((pi + 1, pr, (cdepth - 1)%Z) :: stack) a'
        else introsort f (pi + 1) pr (cdepth - 1) ((pl, pi - 1, (cdepth - 1)%Z) :: stack) a'
      else
        resume f stack (insertion_sort pl pr a)
  end
with resume (fuel : nat) (stack : list (nat * nat * Z)) (a : list nat) : list nat :=
  match fuel with
  | 0 => a
  | S f =>
      match stack with
      | [] => a
      | (pl, pr, cdepth) :: stack' =>
          if (cdepth <? 0)%Z
          then resume f stack' (heapsort pl (pr - pl + 1) a)
          else introsort f pl pr cdepth stack' a
      end
  end.

End Introsort.

Definition quicksort_argsort (l : list Q) : list nat :=
  let num := List.length l in
  introsort l (3 * num + 3) 0 (num - 1) (2 * Z.log2 (Z.of_nat num)) [] (seq 0 num).

Definition quicksort_kind : SortKind := {| argsort := quicksort_argsort |}.

End Kinds.

(** ** A leaderboard of eighteen players *)

Module Board.

(** Eighteen aggregated players in name order, one match each; the
    scores climb by ten from 140, and the last two share the top score
    of 300. *)
Definition scores : list (string * Z) :=
  [("p01", 140); ("p02", 150); ("p03", 160); ("p04", 170); ("p05", 180);
   ("p06", 190); ("p07", 200); ("p08", 210); ("p09", 220); ("p10", 230);
   ("p11", 240); ("p12", 250); ("p13", 260); ("p14", 270); ("p15", 280);
   ("p16", 290); ("p17", 300); ("p18", 300)].

Definition player (s : string * Z) : AggRow :=
  mkAgg (fst s) (inject_Z (snd s)) (F64.Fin 1) 10 10 0 1 1.

Definition aggregated : DataFrame :=
  mkFrame Aggregation.agg_columns (Aggregation.range_index 0 18) (map player scores).

(** The players with the top score. *)
Definition top (rws : list AggRow) : list string :=
  map a_player_name (filter (fun a => Qeq_bool (avg_acs a) 300) rws).

End Board.

(** ** What sorting a range of positions means *)

Module Sorting.

Import Kinds.

Section Spec.

Variable v : list Q.

Local Open Scope nat_scope.

(** The values of the cells [pl..pr] never go down. *)
Definition ordered (a : list nat) (pl pr : nat) : Prop :=
  forall i j, pl <= i -> i < j -> j <= pr -> (val v a i <= val v a j)%Q.

(** [a'] is [a] with the cells [pl..pr] rearranged among themselves. *)
Definition within (pl pr : nat) (a a' : list nat) : Prop :=
  List.length a' = List.length a
  /\ (forall p, p < pl \/ pr < p -> nth p a' 0 = nth p a 0)
  /\ (forall j, pl <= j <= pr -> exists k, pl <= k <= pr /\ nth j a' 0 = nth k a 0)
  /\ (NoDup a -> NoDup a').

(** The cells [lo..n] of the heap laid out from [base] on: none holds a
    larger value than its parent cell, as far as the parent is among
    them. *)
Definition heap (base lo n : nat) (a : list nat) : Prop :=
  forall k, k <= n -> lo <= k / 2 ->
    (val v a (cell base k) <= val v a (cell base (k / 2)))%Q.

(** The state of the driver.  The array holds each position once; every
    postponed range lies in the array, no two of them meet, and two cells
    that do not share a range are already in order. *)
Definition positions (n : nat) (a : list nat) : Prop :=
  List.length a = n /\ NoDup a /\ Forall (fun x => x < n) a.

Definition ranges (stack : list (nat * nat * Z)) : list (nat * nat) := map fst stack.

Definition fits (n : nat) (rs : list (nat * nat)) : Prop :=
  Forall (fun r => fst r < snd r -> snd r < n) rs.

Definition apart (r r' : nat * nat) : Prop :=
  forall p, ~ (fst r <= p <= snd r /\ fst r' <= p <= snd r').

Fixpoint disjoint (rs : list (nat * nat)) : Prop :=
  match rs with
  | [] => True
  | r :: rs' => Forall (apart r) rs' /\ disjoint rs'
  end.

Definition settled (n : nat) (rs : list (nat * nat)) (a : list nat) : Prop :=
  forall i j, i < j -> j < n ->
    (val v a i <= val v a j)%Q \/ Exists (fun r => fst r <= i /\ j <= snd r) rs.

(** Steps the driver may still need: three for each cell of a range and
    two more for a postponed one. *)
Definition span (pl pr : nat) : nat := pr + 1 - pl.

Fixpoint cost (stack : list (nat * nat * Z)) : nat :=
  match stack with
  | [] => 0
  | (pl, pr, _) :: stack' => 3 * span pl pr + 2 + cost stack'
  end.

End Spec.

End Sorting.

(** ** The page: what its buttons do *)

Module Page.

Definition is_player (user : User) : bool := String.eqb (role user) "player".

(** Truth value of what [st.number_input] returns: [None] and [0] are
    false. *)
Definition truthy (n : option Z) : bool :=
  match n with
  | Some n => negb (n =? 0)
  | None => false
  end.

Definition is_None {A : Type} (o : option A) : bool :=
  match o with
  | Some _ => false
  | None => true
  end.

(** The texts of the page; the emoji some of them begin with is left out. *)
Definition invalid_credentials : Msg := StError "Invalid username or password.".
Definition password_mismatch : Msg := StError "Passwords do not match.".
Definition username_taken : Msg := StError "Username already exists.".
Definition player_name_required : Msg := StError "Player name is required.".
Definition missing_fields : Msg := StError "Please fill in all required fields.".
Definition registered : Msg := StSuccess "Registration successful! You can now log in.".
Definition match_added : Msg := StSuccess "Match details added successfully!".
Definition record_deleted : Msg := StSuccess "Record deleted successfully!".

Section WithBcrypt.

Context {B : Bcrypt}.

(** The Login button: the session user afterwards, and the message. *)
Definition on_login (uname password : string) (db : Db) : option User * list Msg :=
  match Auth.login uname password db with
  | Some user =>
      (Some user,
       [StSuccess ("Welcome " ++ username user ++ " (" ++ Py.capitalize (role user) ++ ")")])
  | None => (None, [invalid_credentials])
  end.

(** The Register button. *)
Definition on_register (new_user new_pass confirm_pass salt : string) (db : Db)
  : list Msg * Db :=
  if negb (String.eqb new_pass confirm_pass) then ([password_mismatch], db)
  else match Auth.get_user new_user db with
       | Some _ => ([username_taken], db)
       | None =>
           match Auth.register_user new_user new_pass salt db with
           | (true, msgs, db') => ((msgs ++ [registered])%list, db')
           | (false, msgs, db') => (msgs, db')
           end
       end.

End WithBcrypt.

(** The Add Match button.  The name check and the field check are two
    separate [if] statements; only the second one has the [else] that
    inserts. *)
Definition on_add_match (user : User) (player_name_input wl mp ag rk : string)
    (acs_ : option Z) (econ : Q) (kills_ deaths_ assists_ : option Z) (db : Db)
  : list Msg * Db :=
  let pname := if is_player user then username user else player_name_input in
  let shown := if String.eqb pname "" then [player_name_required] else [] in
  if negb (truthy acs_) || is_None kills_ || is_None deaths_ || is_None assists_
  then ((shown ++ [missing_fields])%list, db)
  else
    match acs_, kills_, deaths_, assists_ with
    | Some a, Some k, Some d, Some s =>
        ((shown ++ [match_added])%list,
         Matches.add_match (u_id user) pname wl mp ag rk a econ k d s db)
    | _, _, _, _ => ((shown ++ [missing_fields])%list, db)
    end.

(** One line of the delete form's select box. *)
Definition record_option (row : MatchRow) : string :=
  player_name row ++ " | " ++ map_name row ++ " | " ++ agent row ++ " | "
    ++ current_rank row ++ " | " ++ Py.str_of_int (kills row) ++ "/"
    ++ Py.str_of_int (deaths row).

(** The records the delete form offers to the user. *)
Definition offered (user : User) (db : Db) : list MatchRow :=
  if is_player user then Matches.fetch_matches_by_user (username user) db
  else Matches.fetch_all_matches db.

(** The Delete Record button with the [choice]-th line selected. *)
Definition on_delete (user : User) (choice : nat) (db : Db) : Exc (list Msg * Db) :=
  match nth_error (offered user db) choice with
  | None => Ok ([], db)
  | Some row =>
      let record_to_delete := record_option row in
      match Py.int (Py.split_first " | " record_to_delete) with
      | None => Raise (ValueError "invalid literal for int() with base 10")
      | Some record_id =>
          Ok ([record_deleted], Matches.delete_match record_id user db)
      end
  end.

End Page.

(** ** Well-formed databases *)

(** What serial primary keys give: the ids of the match rows are
    pairwise different and all below the counter. *)
Definition ids_ok (db : Db) : Prop :=
  NoDup (map id (matches db))
  /\ forall r, In r (matches db) -> id r < next_match_id db.

(** No two user rows carry the same name. *)
Definition usernames_unique (db : Db) : Prop :=
  NoDup (map username (users db)).

(** The one thing the code relies on from [bcrypt]: a password checks
    against its own hash, whatever the salt. *)
Definition BcryptSound (B : Bcrypt) : Prop :=
  forall password salt : string, checkpw password (hashpw password salt) = true.

(** ** The admin script, [create_admin.py] *)

Module Admin.

(** [s.strip()] *)
Definition strip (s : string) : string :=
  string_of_list_ascii (Py.strip (list_ascii_of_string s)).

(** How a run of the script ends: the row is committed and the message
    printed, or the insert violates [username UNIQUE] and the exception
    ends the script with nothing committed. *)
Inductive Outcome : Type :=
| Created (printed : string) (db : Db)
| UniqueViolation.

Section WithBcrypt.

Context {B : Bcrypt}.

(** The script: both inputs are stripped, the password is hashed, and
    the row goes in with role ['admin'].  Nothing is looked up first. *)
Definition create_admin (username_input password_input salt : string) (db : Db)
  : Outcome :=
  let uname := strip username_input in
  let password := strip password_input in
  let hashed := hashpw password salt in
  if Auth.violates_unique uname db then UniqueViolation
  else Created ("Admin '" ++ uname ++ "' created successfully!")
               (mkDb (users db ++ [mkUser (next_user_id db) uname hashed "admin"])
                     (matches db) (next_user_id db + 1) (next_match_id db)).

End WithBcrypt.

End Admin.

(** * Properties *)

(** ** Double precision numbers *)

Section Pow2Facts.

Import F64.

Lemma pow2_pos (e : Z) : (0 < pow2 e)%Q.
Proof.
  unfold pow2. apply Qpower_0_lt. reflexivity.
Qed.

Lemma pow2_add (a b : Z) : (pow2 (a + b) == pow2 a * pow2 b)%Q.
Proof.
  unfold pow2. apply Qpower_plus. discriminate.
Qed.

Lemma pow2_Z (n : Z) : 0 <= n -> (pow2 n == inject_Z (2 ^ n))%Q.
Proof.
  intros Hn. unfold pow2. now rewrite Zpower_Qpower.
Qed.

Lemma pow2_le (a b : Z) : a <= b -> (pow2 a <= pow2 b)%Q.
Proof.
  intros Hab. unfold pow2. apply Qpower_le_compat_l; [exact Hab | discriminate].
Qed.

Lemma pow2_succ (a : Z) : (pow2 (a + 1) == 2 * pow2 a)%Q.
Proof.
  rewrite pow2_add. change (pow2 1) with 2%Q. ring.
Qed.

End Pow2Facts.

Section NearestEvenFacts.

Import F64.

Lemma nearest_even_close (q : Q) :
  (Qabs (inject_Z (nearest_even q) - q) <= 1 # 2)%Q.
Proof.
  unfold nearest_even.
  pose proof (Qfloor_le q) as Hlo.
  pose proof (Qlt_floor q) as Hhi.
  rewrite inject_Z_plus in Hhi. change (inject_Z 1) with 1%Q in Hhi.
  apply Qabs_Qle_condition.
  destruct (Qcompare_spec (q - inject_Z (Qfloor q)) (1 # 2)) as [He | Hl | Hg].
  - destruct (Z.even (Qfloor q));
      [| rewrite inject_Z_plus; change (inject_Z 1) with 1%Q]; split; lra.
  - split; lra.
  - rewrite inject_Z_plus. change (inject_Z 1) with 1%Q. split; lra.
Qed.

Lemma Qabs_ge_half (b : Q) : (b <= - (1 # 2) \/ 1 # 2 <= b)%Q -> (1 # 2 <= Qabs b)%Q.
Proof.
  intros H. apply Qabs_case; intros Hb; lra.
Qed.

(** No integer is nearer. *)
Lemma nearest_even_nearest (q : Q) (z : Z) :
  (Qabs (inject_Z (nearest_even q) - q) <= Qabs (inject_Z z - q))%Q.
Proof.
  pose proof (nearest_even_close q) as Hm.
  destruct (Z.eq_dec z (nearest_even q)) as [-> | Hne]; [apply Qle_refl |].
  eapply Qle_trans; [exact Hm |].
  apply Qabs_Qle_condition in Hm. apply Qabs_ge_half.
  assert (Hz : z + 1 <= nearest_even q \/ nearest_even q + 1 <= z) by lia.
  destruct Hz as [Hz | Hz]; rewrite Zle_Qle, inject_Z_plus in Hz;
    change (inject_Z 1) with 1%Q in Hz; [left | right]; lra.
Qed.

Lemma nearest_even_integer (q : Q) (z : Z) :
  (q == inject_Z z)%Q -> nearest_even q = z.
Proof.
  intros Hq. pose proof (nearest_even_nearest q z) as H.
  assert (H0 : (Qabs (inject_Z z - q) == 0)%Q).
  { setoid_replace (inject_Z z - q)%Q with 0%Q by (rewrite Hq; ring). reflexivity. }
  rewrite H0 in H. apply Qabs_Qle_condition in H.
  apply inject_Z_injective. lra.
Qed.

End NearestEvenFacts.

Section Log2Facts.

Import F64.

Lemma ilog2_spec (q : Q) :
  (0 < q)%Q -> (pow2 (ilog2 q) <= q)%Q /\ (q < pow2 (ilog2 q + 1))%Q.
Proof.
  intros Hq. destruct q as [n d].
  assert (Hn : 0 < n) by (unfold Qlt in Hq; simpl in Hq; lia).
  unfold ilog2. cbn [Qnum Qden].
  set (a := Z.log2 n). set (b := Z.log2 (Zpos d)). set (k := a - b).
  assert (Ha := Z.log2_spec n Hn). fold a in Ha.
  assert (Hb := Z.log2_spec (Zpos d) eq_refl). fold b in Hb.
  assert (Ha0 : 0 <= a) by apply Z.log2_nonneg.
  assert (Hb0 : 0 <= b) by apply Z.log2_nonneg.
  set (N := inject_Z n). set (D := inject_Z (Zpos d)).
  assert (HqD : (n # d == N / D)%Q) by apply Qmake_Qdiv.
  assert (HD : (0 < D)%Q) by reflexivity.
  assert (HA1 : (pow2 a <= N)%Q)
    by (rewrite pow2_Z by exact Ha0; unfold N; rewrite <- Zle_Qle; lia).
  assert (HA2 : (N < 2 * pow2 a)%Q).
  { rewrite <- pow2_succ, pow2_Z by lia.
    unfold N. rewrite <- Zlt_Qlt. unfold Z.succ in Ha. lia. }
  assert (HB1 : (pow2 b <= D)%Q)
    by (rewrite pow2_Z by exact Hb0; unfold D; rewrite <- Zle_Qle; lia).
  assert (HB2 : (D < 2 * pow2 b)%Q).
  { rewrite <- pow2_succ, pow2_Z by lia.
    unfold D. rewrite <- Zlt_Qlt. unfold Z.succ in Hb. lia. }
  assert (HP : (pow2 k * pow2 b == pow2 a)%Q).
  { rewrite <- pow2_add. unfold k. now replace (a - b + b) with a by lia. }
  pose proof (pow2_pos k) as HPk. pose proof (pow2_pos b) as HPb.
  assert (Hq1 : ((n # d) * D == N)%Q) by (rewrite HqD; field; lra).
  assert (Hup : (n # d < 2 * pow2 k)%Q).
  { destruct (Qlt_le_dec (n # d) (2 * pow2 k)) as [H | H]; [exact H | exfalso].
    assert (H1 : (2 * pow2 k * D <= (n # d) * D)%Q)
      by (apply Qmult_le_compat_r; lra).
    assert (H2 : (2 * pow2 k * pow2 b <= 2 * pow2 k * D)%Q)
      by (apply Qmult_le_l; lra).
    rewrite Hq1 in H1. lra. }
  assert (Hlow : (pow2 k < 2 * (n # d))%Q).
  { destruct (Qlt_le_dec (pow2 k) (2 * (n # d))) as [H | H]; [exact H | exfalso].
    assert (H1 : (2 * (n # d) * D <= pow2 k * D)%Q)
      by (apply Qmult_le_compat_r; lra).
    assert (H2 : (pow2 k * D < pow2 k * (2 * pow2 b))%Q)
      by (apply Qmult_lt_l; lra).
    lra. }
  destruct (Qle_bool (pow2 k) (n # d)) eqn:E.
  - apply Qle_bool_iff in E. split; [exact E |]. now rewrite pow2_succ.
  - assert (Hlt : (n # d < pow2 k)%Q).
    { apply Qnot_le_lt. intros H. apply Qle_bool_iff in H. congruence. }
    replace (k - 1 + 1) with k by lia. split; [| exact Hlt].
    assert (Hk : (pow2 k == 2 * pow2 (k - 1))%Q).
    { rewrite <- pow2_succ. now replace (k - 1 + 1) with k by lia. }
    lra.
Qed.

End Log2Facts.

Section RoundingFacts.

Import F64.

Lemma pow2_lt_inv (a b : Z) : (pow2 a < pow2 b)%Q -> a < b.
Proof.
  intros H. destruct (Z_lt_le_dec a b) as [Hlt | Hge]; [exact Hlt | exfalso].
  apply pow2_le in Hge. lra.
Qed.

Lemma nearest_zero (q : Q) : (q == 0)%Q -> nearest q = 0%Q.
Proof.
  intros H. unfold nearest. apply Qeq_bool_iff in H. now rewrite H.
Qed.

Lemma nearest_eq (q : Q) :
  ~ (q == 0)%Q ->
  (nearest q == inject_Z (nearest_even (q / pow2 (ulp_exp q))) * pow2 (ulp_exp q))%Q.
Proof.
  intros H. unfold nearest.
  destruct (Qeq_bool q 0) eqn:E; [apply Qeq_bool_iff in E; contradiction |].
  apply Qred_correct.
Qed.

Lemma Qabs_scale (x c : Q) : (0 < c)%Q -> (Qabs (x * c) == Qabs x * c)%Q.
Proof.
  intros Hc. rewrite Qabs_Qmult. rewrite (Qabs_pos c) by lra. reflexivity.
Qed.

(** Among the multiples of [2^e], the rounded one is nearest to [q]. *)
Lemma multiple_nearest (q : Q) (e Y : Z) :
  (Qabs (inject_Z (nearest_even (q / pow2 e)) * pow2 e - q)
   <= Qabs (inject_Z Y * pow2 e - q))%Q.
Proof.
  pose proof (pow2_pos e) as He.
  pose proof (nearest_even_nearest (q / pow2 e) Y) as H.
  apply (Qmult_le_compat_r _ _ (pow2 e)) in H; [| lra].
  rewrite <- (Qabs_scale _ (pow2 e) He) in H.
  rewrite <- (Qabs_scale (inject_Z Y - q / pow2 e) (pow2 e) He) in H.
  setoid_replace ((inject_Z (nearest_even (q / pow2 e)) - q / pow2 e) * pow2 e)%Q
    with (inject_Z (nearest_even (q / pow2 e)) * pow2 e - q)%Q in H by (field; lra).
  setoid_replace ((inject_Z Y - q / pow2 e) * pow2 e)%Q
    with (inject_Z Y * pow2 e - q)%Q in H by (field; lra).
  exact H.
Qed.

Lemma Qabs_pos_eq (q : Q) : (0 <= q)%Q -> Qabs q = q.
Proof.
  destruct q as [n d]. unfold Qle, Qabs. cbn. intros H.
  rewrite Z.abs_eq by lia. reflexivity.
Qed.

Lemma ulp_exp_pos (q : Q) :
  (0 < q)%Q ->
  emin <= ulp_exp q
  /\ (q < pow2 (ulp_exp q + 53))%Q
  /\ (emin < ulp_exp q \/ (pow2 (emin + 52) <= q)%Q ->
      (pow2 (ulp_exp q + 52) <= q)%Q).
Proof.
  intros Hq. unfold ulp_exp. rewrite (Qabs_pos_eq q) by lra.
  destruct (ilog2_spec q Hq) as [Hlo Hhi].
  split; [lia | split].
  - eapply Qlt_le_trans; [exact Hhi |]. apply pow2_le. lia.
  - intros Hgt. destruct (Z_lt_le_dec emin (ilog2 q - 52)) as [Hlt | Hle].
    + replace (Z.max (ilog2 q - 52) emin) with (ilog2 q - 52) by lia.
      now replace (ilog2 q - 52 + 52) with (ilog2 q) by lia.
    + replace (Z.max (ilog2 q - 52) emin) with emin in * by lia.
      destruct Hgt as [Hgt | Hgt]; [lia | exact Hgt].
Qed.

(** No number of the double format is nearer to a positive [q] than its
    rounding. *)
Lemma nearest_is_nearest (q y : Q) :
  (0 < q)%Q -> has_format y ->
  (Qabs (nearest q - q) <= Qabs (y - q))%Q.
Proof.
  intros Hq (M & E & Hy & HM & HE).
  rewrite nearest_eq by lra.
  destruct (ulp_exp_pos q Hq) as (He & Hup & Hnormal).
  set (e := ulp_exp q) in *.
  destruct (Z_le_gt_dec e E) as [HeE | HeE].
  - (* [y] is a multiple of [2^e] *)
    assert (Hy' : (y == inject_Z (M * 2 ^ (E - e)) * pow2 e)%Q).
    { rewrite Hy, inject_Z_mult, <- pow2_Z by lia.
      rewrite <- Qmult_assoc, <- pow2_add. now replace (E - e + e) with E by lia. }
    rewrite Hy'. apply multiple_nearest.
  - (* [y] lies below the binade of [q] *)
    assert (HL : (pow2 (e + 52) <= q)%Q) by (apply Hnormal; left; lia).
    assert (HLe : (pow2 (e + 52) == inject_Z (2 ^ 52) * pow2 e)%Q).
    { rewrite <- pow2_Z by lia. rewrite <- pow2_add.
      now replace (52 + e) with (e + 52) by lia. }
    pose proof (multiple_nearest q e (2 ^ 52)) as Hnear.
    rewrite <- HLe in Hnear.
    assert (Hylt : (y < pow2 (e + 52))%Q).
    { rewrite Hy. pose proof (pow2_pos E) as HpE.
      assert (HM' : (inject_Z M < inject_Z (2 ^ 53))%Q) by (rewrite <- Zlt_Qlt; lia).
      assert (H1 : (inject_Z M * pow2 E < inject_Z (2 ^ 53) * pow2 E)%Q)
        by (apply Qmult_lt_compat_r; assumption).
      assert (H2 : (inject_Z (2 ^ 53) * pow2 E <= pow2 (e + 52))%Q).
      { rewrite <- pow2_Z by lia. rewrite <- pow2_add. apply pow2_le. lia. }
      lra. }
    eapply Qle_trans; [exact Hnear |].
    rewrite Qabs_Qminus, (Qabs_pos (q - pow2 (e + 52))) by lra.
    rewrite Qabs_Qminus, (Qabs_pos (q - y)) by lra. lra.
Qed.

Lemma has_format_zero : has_format 0.
Proof.
  exists 0, 0. split; [reflexivity | split; [reflexivity | discriminate]].
Qed.


Lemma has_format_Z (z : Z) : Z.abs z < 2 ^ 53 -> has_format (inject_Z z).
Proof.
  intros Hz. exists z, 0. split; [| split; [exact Hz | discriminate]].
  change (pow2 0) with 1%Q. ring.
Qed.

(** A number of the format is its own rounding. *)
Lemma nearest_exact (q : Q) : (0 <= q)%Q -> has_format q -> (nearest q == q)%Q.
Proof.
  intros Hq Hf. destruct (Qeq_dec q 0) as [H0 | H0].
  - rewrite (nearest_zero q H0). now symmetry.
  - assert (Hpos : (0 < q)%Q) by lra.
    pose proof (nearest_is_nearest q q Hpos Hf) as H.
    setoid_replace (q - q)%Q with 0%Q in H by ring.
    change (Qabs 0) with 0%Q in H. apply Qabs_Qle_condition in H. lra.
Qed.

(** Rounding keeps within bounds that are themselves of the format. *)
Lemma nearest_between (q lo hi : Q) :
  (0 < q)%Q -> has_format lo -> has_format hi -> (lo <= q <= hi)%Q ->
  (lo <= nearest q <= hi)%Q.
Proof.
  intros Hq Hlo Hhi [H1 H2].
  pose proof (nearest_is_nearest q lo Hq Hlo) as Ha.
  pose proof (nearest_is_nearest q hi Hq Hhi) as Hb.
  rewrite (Qabs_Qminus lo), (Qabs_pos (q - lo)) in Ha by lra.
  rewrite (Qabs_pos (hi - q)) in Hb by lra.
  apply Qabs_Qle_condition in Ha, Hb. split; lra.
Qed.


(** The rounding of a non-negative number is of the format. *)
Lemma nearest_has_format (q : Q) : (0 <= q)%Q -> has_format (nearest q).
Proof.
  intros Hq0. destruct (Qeq_dec q 0) as [H0 | H0].
  - rewrite (nearest_zero q H0). apply has_format_zero.
  - assert (Hq : (0 < q)%Q) by lra.
    destruct (ulp_exp_pos q Hq) as (He & Hup & _).
    set (e := ulp_exp q) in *. pose proof (pow2_pos e) as Hpe.
    set (m := nearest_even (q / pow2 e)).
    assert (Hx : (0 < q / pow2 e < inject_Z (2 ^ 53))%Q).
    { split.
      - apply Qlt_shift_div_l; lra.
      - apply Qlt_shift_div_r; [lra |].
        rewrite <- pow2_Z, <- pow2_add by lia.
        now replace (53 + e) with (e + 53) by lia. }
    assert (Hm : 0 <= m <= 2 ^ 53).
    { pose proof (nearest_even_nearest (q / pow2 e) 0) as H1.
      pose proof (nearest_even_nearest (q / pow2 e) (2 ^ 53)) as H2.
      fold m in H1, H2.
      rewrite (Qabs_Qminus (inject_Z 0)), (Qabs_pos (q / pow2 e - inject_Z 0)) in H1
        by (change (inject_Z 0) with 0%Q; lra).
      rewrite (Qabs_pos (inject_Z (2 ^ 53) - q / pow2 e)) in H2 by lra.
      apply Qabs_Qle_condition in H1, H2. change (inject_Z 0) with 0%Q in H1.
      split.
      - rewrite Zle_Qle. change (inject_Z 0) with 0%Q. lra.
      - rewrite Zle_Qle. lra. }
    destruct (Z.eq_dec m (2 ^ 53)) as [Htop | Hlow].
    + exists (2 ^ 52), (e + 1). split; [| split; [reflexivity | lia]].
      rewrite nearest_eq by lra. fold e m. rewrite Htop, pow2_succ.
      change (inject_Z (2 ^ 53)) with (2 * inject_Z (2 ^ 52))%Q. ring.
    + exists m, e. split; [| split; [lia | exact He]].
      rewrite nearest_eq by lra. reflexivity.
Qed.

(** Where the rounding stays below [2^emax] there is no overflow. *)
Lemma round_finite (q : Q) :
  (Qabs (nearest q) < pow2 emax)%Q -> round q = Fin (nearest q).
Proof.
  intros H. unfold round.
  destruct (Qle_bool (pow2 emax) (Qabs (nearest q))) eqn:E; [| reflexivity].
  apply Qle_bool_iff in E. lra.
Qed.

(** Rounding looks at the number, not at the fraction that denotes it,
    and answers in lowest terms. *)
Lemma nearest_even_proper (q q' : Q) : (q == q')%Q -> nearest_even q = nearest_even q'.
Proof.
  intros H. unfold nearest_even. cbv zeta.
  rewrite (Qfloor_comp q q' H).
  assert (Hc : (q - inject_Z (Qfloor q') ?= 1 # 2)%Q
               = (q' - inject_Z (Qfloor q') ?= 1 # 2)%Q).
  { apply Qcompare_comp; [| reflexivity]. now rewrite H. }
  now rewrite Hc.
Qed.

Lemma ilog2_unique (q : Q) (k : Z) :
  (pow2 k <= q)%Q -> (q < pow2 (k + 1))%Q -> ilog2 q = k.
Proof.
  intros Hlo Hhi. pose proof (pow2_pos k) as Hk.
  assert (Hq : (0 < q)%Q) by lra.
  destruct (ilog2_spec q Hq) as [Hlo' Hhi'].
  assert (k < ilog2 q + 1) by (apply pow2_lt_inv; lra).
  assert (ilog2 q < k + 1) by (apply pow2_lt_inv; lra).
  lia.
Qed.

Lemma ulp_exp_proper (q q' : Q) :
  ~ (q == 0)%Q -> (q == q')%Q -> ulp_exp q = ulp_exp q'.
Proof.
  intros H0 H. unfold ulp_exp. f_equal. f_equal.
  assert (Hpos : (0 < Qabs q)%Q).
  { pose proof (Qabs_nonneg q) as Hn. destruct (Qeq_dec (Qabs q) 0) as [Hz | Hz].
    - exfalso. apply H0. destruct q as [n d]. unfold Qabs, Qeq in *. cbn in *. lia.
    - lra. }
  destruct (ilog2_spec (Qabs q) Hpos) as [Hlo Hhi].
  symmetry. apply ilog2_unique; rewrite <- H; assumption.
Qed.

Lemma nearest_proper (q q' : Q) : (q == q')%Q -> nearest q = nearest q'.
Proof.
  intros H. destruct (Qeq_dec q 0) as [H0 | H0].
  - rewrite (nearest_zero q H0). symmetry. apply nearest_zero. now rewrite <- H.
  - unfold nearest.
    rewrite <- (ulp_exp_proper q q' H0 H).
    rewrite <- (nearest_even_proper (q / pow2 (ulp_exp q)) (q' / pow2 (ulp_exp q)))
      by (apply Qdiv_comp; [exact H | reflexivity]).
    destruct (Qeq_bool q 0) eqn:E, (Qeq_bool q' 0) eqn:E'; try reflexivity.
    + apply Qeq_bool_iff in E. contradiction.
    + apply Qeq_bool_iff in E'. rewrite <- H in E'. contradiction.
Qed.

Lemma round_proper (q q' : Q) : (q == q')%Q -> round q = round q'.
Proof.
  intros H. unfold round. rewrite (nearest_proper q q' H).
  assert (Hs : Qle_bool 0 q = Qle_bool 0 q').
  { destruct (Qle_bool 0 q) eqn:E, (Qle_bool 0 q') eqn:E'; try reflexivity.
    - apply Qle_bool_iff in E. rewrite H in E. apply Qle_bool_iff in E. congruence.
    - apply Qle_bool_iff in E'. rewrite <- H in E'. apply Qle_bool_iff in E'. congruence. }
  now rewrite Hs.
Qed.

Lemma nearest_reduced (q : Q) : nearest q = Qred (nearest q).
Proof.
  unfold nearest. destruct (Qeq_bool q 0); [reflexivity |].
  symmetry. apply Qred_complete, Qred_correct.
Qed.

Lemma Qred_inject_Z (z : Z) : Qred (inject_Z z) = inject_Z z.
Proof.
  unfold Qred, inject_Z.
  pose proof (Z.ggcd_gcd z 1) as Hg.
  pose proof (Z.ggcd_correct_divisors z 1) as Hd.
  destruct (Z.ggcd z 1) as [g [aa bb]]. cbn [fst snd] in *.
  rewrite Z.gcd_1_r in Hg. subst g. destruct Hd as [Ha Hb].
  assert (Hbb : bb = 1) by lia. rewrite Ha, Hbb, Z.mul_1_l. reflexivity.
Qed.

(** A number of the format, below [2^emax], is kept as it is. *)
Lemma round_exact (q : Q) :
  (0 <= q)%Q -> has_format q -> (q < pow2 emax)%Q -> round q = Fin (Qred q).
Proof.
  intros Hq Hf Hlt. pose proof (nearest_exact q Hq Hf) as He.
  rewrite round_finite.
  - f_equal. rewrite nearest_reduced. now apply Qred_complete.
  - rewrite He, Qabs_pos by exact Hq. exact Hlt.
Qed.

Lemma pow2_53_emax : (inject_Z (2 ^ 53) < pow2 emax)%Q.
Proof.
  rewrite <- pow2_Z by lia. 
  destruct (Qlt_le_dec (pow2 53) (pow2 emax)) as [H | H]; [exact H | exfalso].
  assert (emax < 53 + 1) by (apply pow2_lt_inv; rewrite pow2_succ;
    pose proof (pow2_pos 53); lra).
  unfold emax in *. lia.
Qed.

(** Integers below [2^53] are doubles. *)
Lemma round_Z (q : Q) (z : Z) :
  (q == inject_Z z)%Q -> 0 <= z < 2 ^ 53 -> round q = Fin (inject_Z z).
Proof.
  intros H Hz. rewrite (round_proper q (inject_Z z) H).
  rewrite round_exact.
  - now rewrite Qred_inject_Z.
  - change 0%Q with (inject_Z 0). rewrite <- Zle_Qle. lia.
  - apply has_format_Z. lia.
  - eapply Qlt_trans; [| exact pow2_53_emax]. rewrite <- Zlt_Qlt. lia.
Qed.

Lemma of_Z_exact (z : Z) : 0 <= z < 2 ^ 53 -> of_Z z = Fin (inject_Z z).
Proof.
  intros Hz. unfold of_Z. now apply round_Z.
Qed.

(** A positive quotient that does not overflow is rounded to a nearest
    double, whatever its size. *)
Lemma round_nearest (q hi : Q) :
  (0 < q <= hi)%Q -> has_format hi -> (hi < pow2 emax)%Q ->
  round q = Fin (nearest q) /\ (0 <= nearest q <= hi)%Q.
Proof.
  intros [Hq Hhi] Hf Hlt.
  assert (Hb : (0 <= nearest q <= hi)%Q)
    by (apply nearest_between; [exact Hq | apply has_format_zero | exact Hf | lra]).
  split; [| exact Hb].
  apply round_finite. rewrite Qabs_pos by apply Hb. lra.
Qed.

End RoundingFacts.

(** ** Match helpers *)

Section DeleteFacts.

Import Matches.

Lemma sql_delete_In (cond : MatchRow -> bool) (t : list MatchRow) (r : MatchRow) :
  In r (sql_delete cond t) <-> In r t /\ cond r = false.
Proof.
  induction t as [| x t IH]; simpl.
  - tauto.
  - destruct (cond x) eqn:E; simpl; rewrite IH; split.
    + tauto.
    + intros [[-> | H] Hc]; [congruence | tauto].
    + intros [-> | H]; tauto.
    + tauto.
Qed.

Lemma sql_delete_none (cond : MatchRow -> bool) (t : list MatchRow) :
  (forall r, In r t -> cond r = false) -> sql_delete cond t = t.
Proof.
  induction t as [| x t IH]; simpl; intros H.
  - reflexivity.
  - rewrite (H x) by (now left). f_equal. apply IH. intros r Hr. apply H. now right.
Qed.

Lemma sql_delete_sublist (cond : MatchRow -> bool) (t : list MatchRow) :
  sublist (sql_delete cond t) t.
Proof.
  induction t as [| x t IH]; simpl.
  - constructor.
  - destruct (cond x); now constructor.
Qed.

End DeleteFacts.

(** C1.  [delete_match] for a player removes exactly the rows whose id is
    the given record id and whose owner is the acting user; every other
    row stays, in place, and nothing but the matches table changes; when
    no row qualifies (in particular when the record belongs to somebody
    else) the database is returned unchanged.  For an admin the owner
    plays no part: exactly the rows with that id go. *)
Theorem delete_match_frame (db : Db) (record_id : Z) (user : User) :
  (role user = "player" ->
     (forall r, In r (matches (Matches.delete_match record_id user db)) <->
                In r (matches db) /\ ~ (id r = record_id /\ user_id r = u_id user))
     /\ Matches.sublist (matches (Matches.delete_match record_id user db)) (matches db)
     /\ ((forall r, In r (matches db) -> id r = record_id -> user_id r <> u_id user) ->
         Matches.delete_match record_id user db = db))
  /\ (role user = "admin" ->
     (forall r, In r (matches (Matches.delete_match record_id user db)) <->
                In r (matches db) /\ id r <> record_id)
     /\ Matches.sublist (matches (Matches.delete_match record_id user db)) (matches db))
  /\ users (Matches.delete_match record_id user db) = users db.
Proof.
  unfold Matches.delete_match, Matches.delete_match_rows, with_matches.
  split; [| split]; [intros Hr | intros Hr |]; simpl; [| | reflexivity];
    rewrite Hr; simpl.
  - split; [| split].
    + intro r. rewrite sql_delete_In. unfold Matches.where_id_and_owner.
      rewrite andb_false_iff, !Z.eqb_neq. split.
      * intros [Hin [H | H]]; split; auto; intros [? ?]; contradiction.
      * intros [Hin H]; split; auto.
        destruct (Z.eq_dec (id r) record_id); [right | left]; auto.
    + apply sql_delete_sublist.
    + intros Hnone. rewrite sql_delete_none; [now destruct db |].
      intros r Hin. unfold Matches.where_id_and_owner.
      destruct (Z.eqb_spec (id r) record_id) as [e | n]; simpl; auto.
      apply Z.eqb_neq. now apply Hnone.
  - split.
    + intro r. rewrite sql_delete_In. unfold Matches.where_id.
      now rewrite Z.eqb_neq.
    + apply sql_delete_sublist.
Qed.

(** A table with one record of user 1 and one of user 2: player 2 asks
    for record 10, which is not theirs, and the database stays as it is. *)
Lemma delete_match_frame_witness :
  let row1 := mkMatch 10 1 "ann" "Win" "Bind" "Jett" "Gold 1" 200 (3 # 2) 10 5 3 in
  let row2 := mkMatch 11 2 "bob" "Loss" "Split" "Sova" "Iron 2" 150 (1 # 1) 4 9 6 in
  let db := mkDb [] [row1; row2] 3 12 in
  let bob := mkUser 2 "bob" "hash" "player" in
  role bob = "player" /\
  (forall r, In r (matches db) -> id r = 10 -> user_id r <> u_id bob) /\
  Matches.delete_match 10 bob db = db.
Proof.
  intros row1 row2 db bob.
  assert (Hrole : role bob = "player") by reflexivity.
  assert (Hother : forall r, In r (matches db) -> id r = 10 -> user_id r <> u_id bob).
  { intros r [<- | [<- | []]]; simpl; intros H; [discriminate | discriminate H]. }
  split; [exact Hrole | split; [exact Hother |]].
  destruct (delete_match_frame db 10 bob) as [Hplayer _].
  destruct (Hplayer Hrole) as (_ & _ & Hnoop).
  exact (Hnoop Hother).
Defined.

Section RatioFacts.

Import F64.

Lemma quotient_le (a b : Z) :
  0 <= a -> 0 < b -> (0 <= inject_Z a / inject_Z b <= inject_Z a)%Q.
Proof.
  intros Ha Hb.
  assert (Hb' : (0 < inject_Z b)%Q)
    by (change 0%Q with (inject_Z 0); rewrite <- Zlt_Qlt; lia).
  assert (Ha' : (0 <= inject_Z a)%Q)
    by (change 0%Q with (inject_Z 0); rewrite <- Zle_Qle; lia).
  split.
  - apply Qle_shift_div_l; [exact Hb' | lra].
  - apply Qle_shift_div_r; [exact Hb' |].
    rewrite <- inject_Z_mult, <- Zle_Qle. nia.
Qed.


(** The true division of a dividend below [2^53]: finite, between zero
    and the dividend, and a nearest double to the quotient. *)
Lemma round_quotient_bounds (a b : Z) :
  0 <= a < 2 ^ 53 -> 0 < b ->
  let q := (inject_Z a / inject_Z b)%Q in
  round q = Fin (nearest q)
  /\ (0 <= nearest q <= inject_Z a)%Q
  /\ (forall y, has_format y -> Qabs (nearest q - q) <= Qabs (y - q))%Q.
Proof.
  intros Ha Hb q.
  destruct (quotient_le a b) as [Hq0 Hqa]; [lia | lia |]. fold q in Hq0, Hqa.
  destruct (Qeq_dec q 0) as [Hz | Hnz].
  - rewrite (round_proper q 0 Hz), (nearest_zero q Hz).
    split; [reflexivity |]. split; [lra |].
    assert (H0 : (Qabs (0 - q) == 0)%Q).
    { setoid_replace (0 - q)%Q with 0%Q by (rewrite Hz; ring). reflexivity. }
    intros y _. rewrite H0. apply Qabs_nonneg.
  - assert (Hq : (0 < q)%Q) by lra.
    assert (Hfa : has_format (inject_Z a)) by (apply has_format_Z; lia).
    assert (Hlt : (inject_Z a < pow2 emax)%Q).
    { eapply Qlt_trans; [| exact pow2_53_emax]. rewrite <- Zlt_Qlt. lia. }
    destruct (round_nearest q (inject_Z a) (conj Hq Hqa) Hfa Hlt) as [Hr Hb'].
    split; [exact Hr |]. split; [exact Hb' |].
    intros y Hy. now apply nearest_is_nearest.
Qed.


(** An integer count below [2^53], and the same count over one, are the
    same double. *)
Lemma to_float_int (k : Z) :
  to_float (Matches.calculate_kd_ratio k 0) = to_float (Matches.calculate_kd_ratio k 1).
Proof.
  cbn [Matches.calculate_kd_ratio Z.eqb to_float]. unfold of_Z.
  apply round_proper. change (inject_Z 1) with 1%Q. field.
Qed.

End RatioFacts.





(** ** Authentication *)

Section AuthFacts.

Context {B : Bcrypt}.

Lemma get_user_Some (uname : string) (db : Db) (user : User) :
  Auth.get_user uname db = Some user -> In user (users db) /\ username user = uname.
Proof.
  unfold Auth.get_user. intros H. apply find_some in H.
  destruct H as [Hin Heq]. split; [exact Hin | now apply String.eqb_eq].
Qed.

Lemma get_user_None (uname : string) (db : Db) :
  Auth.get_user uname db = None <->
  (forall user, In user (users db) -> username user <> uname).
Proof.
  unfold Auth.get_user. split.
  - intros H user Hin. apply (find_none _ _ H) in Hin. now apply String.eqb_neq.
  - intros H. induction (users db) as [| u l IH]; simpl.
    + reflexivity.
    + destruct (String.eqb_spec (username u) uname) as [e | n].
      * exfalso. apply (H u); [now left | exact e].
      * apply IH. intros user Hin. apply H. now right.
Qed.

Lemma taken_iff (uname : string) (db : Db) :
  Auth.violates_unique uname db = true <->
  exists user, In user (users db) /\ username user = uname.
Proof.
  unfold Auth.violates_unique. rewrite existsb_exists. split; intros [u [Hin He]]; exists u; split; auto;
    now apply String.eqb_eq.
Qed.

End AuthFacts.

(** C7.  Whatever the credential store holds, a login with a name that
    exists and a password that does not check, and a login with a name
    that does not exist, have the same outcome: no user is returned, and
    the page shows the same single message and sets no session user. *)
Theorem login_failures_identical {B : Bcrypt} (db : Db)
    (known unknown password other_password : string) (user : User) :
  Auth.get_user known db = Some user ->
  checkpw password (password_hash user) = false ->
  Auth.get_user unknown db = None ->
  Auth.login known password db = None
  /\ Auth.login unknown other_password db = None
  /\ Page.on_login known password db = Page.on_login unknown other_password db
  /\ Page.on_login known password db = (None, [Page.invalid_credentials]).
Proof.
  intros Hknown Hwrong Hunknown.
  assert (H1 : Auth.login known password db = None).
  { unfold Auth.login, Auth.verify_password. now rewrite Hknown, Hwrong. }
  assert (H2 : Auth.login unknown other_password db = None).
  { unfold Auth.login. now rewrite Hunknown. }
  unfold Page.on_login. rewrite H1, H2. auto.
Qed.

Lemma login_failures_identical_witness :
  let ann := mkUser 1 "ann" "s3cret" "player" in
  let db := mkDb [ann] [] 2 1 in
  @Auth.get_user "ann" db = Some ann /\
  @checkpw plain_bcrypt "guess" (password_hash ann) = false /\
  @Auth.get_user "zed" db = None /\
  @Page.on_login plain_bcrypt "ann" "guess" db = @Page.on_login plain_bcrypt "zed" "guess" db.
Proof.
  intros ann db.
  assert (H1 : @Auth.get_user "ann" db = Some ann) by reflexivity.
  assert (H2 : @checkpw plain_bcrypt "guess" (password_hash ann) = false) by reflexivity.
  assert (H3 : @Auth.get_user "zed" db = None) by reflexivity.
  split; [exact H1 | split; [exact H2 | split; [exact H3 |]]].
  exact (proj1 (proj2 (proj2
    (@login_failures_identical plain_bcrypt db "ann" "zed" "guess" "guess" ann H1 H2 H3)))).
Defined.

(** C8.  Registration: when the two passwords differ the outcome is the
    mismatch message and the database is untouched, whether or not the
    name is taken; when they agree and the name is held by some user, the
    outcome is the taken message and the database is untouched, so no
    second row appears; when they agree and the name is free, exactly one
    user row is appended, with that name, the hash of the password and
    role player. *)
Theorem register_outcomes {B : Bcrypt} (db : Db)
    (new_user new_pass confirm_pass salt : string) :
  (new_pass <> confirm_pass ->
     Page.on_register new_user new_pass confirm_pass salt db
     = ([Page.password_mismatch], db))
  /\ (new_pass = confirm_pass ->
      (exists user, In user (users db) /\ username user = new_user) ->
      Page.on_register new_user new_pass confirm_pass salt db
      = ([Page.username_taken], db))
  /\ (new_pass = confirm_pass ->
      (forall user, In user (users db) -> username user <> new_user) ->
      exists db',
        Page.on_register new_user new_pass confirm_pass salt db
        = ([Page.registered], db')
        /\ users db' = (users db ++
             [mkUser (next_user_id db) new_user (hashpw new_pass salt) "player"])%list
        /\ matches db' = matches db).
Proof.
  unfold Page.on_register. repeat split.
  - intros Hne. apply String.eqb_neq in Hne. now rewrite Hne.
  - intros -> [user [Hin Hname]]. rewrite String.eqb_refl. simpl.
    destruct (Auth.get_user new_user db) eqn:E; [reflexivity |].
    exfalso. rewrite get_user_None in E. exact (E user Hin Hname).
  - intros -> Hfree. rewrite String.eqb_refl. simpl.
    rewrite (proj2 (get_user_None new_user db) Hfree).
    unfold Auth.register_user.
    destruct (Auth.violates_unique new_user db) eqn:E.
    + exfalso. apply taken_iff in E. destruct E as [user [Hin Hname]].
      exact (Hfree user Hin Hname).
    + eexists. split; [reflexivity | split; reflexivity].
Qed.

Lemma register_outcomes_witness :
  let ann := mkUser 1 "ann" "s3cret" "player" in
  let db := mkDb [ann] [] 2 1 in
  "pw" <> "pW" /\
  @Page.on_register plain_bcrypt "ann" "pw" "pW" "salt" db = ([Page.password_mismatch], db) /\
  @Page.on_register plain_bcrypt "ann" "pw" "pw" "salt" db = ([Page.username_taken], db).
Proof.
  intros ann db.
  assert (Hne : "pw" <> "pW") by discriminate.
  split; [exact Hne | split].
  - exact (proj1 (@register_outcomes plain_bcrypt db "ann" "pw" "pW" "salt") Hne).
  - apply (proj1 (proj2 (@register_outcomes plain_bcrypt db "ann" "pw" "pw" "salt")) eq_refl).
    exists ann. split; [now left | reflexivity].
Defined.

(** ** The match form *)

(** C5.  An admin submits the form with the player name left empty and
    every number filled in: the page shows that the name is required and
    then inserts the row all the same, with the empty name. *)
Theorem add_match_empty_name_inserted :
  let admin := mkUser 1 "root" "hash" "admin" in
  let db := mkDb [admin] [] 2 1 in
  Page.on_add_match admin "" "Win" "Bind" "Jett" "Gold 1"
                    (Some 200) (3 # 2) (Some 10) (Some 5) (Some 3) db
  = ([Page.player_name_required; Page.match_added],
     mkDb [admin]
          [mkMatch 1 1 "" "Win" "Bind" "Jett" "Gold 1" 200 (3 # 2) 10 5 3]
          2 2).
Proof.
  reflexivity.
Qed.

(** C6, as stated, fails: a player submits a complete form whose combat
    score is 0; the page answers that fields are missing and inserts
    nothing. *)
Lemma add_match_zero_acs_rejected :
  let ann := mkUser 1 "ann" "hash" "player" in
  let db := mkDb [ann] [] 2 1 in
  username ann <> "" /\
  Page.on_add_match ann "" "Win" "Bind" "Jett" "Gold 1"
                    (Some 0) (3 # 2) (Some 10) (Some 5) (Some 3) db
  = ([Page.missing_fields], db).
Proof.
  split; [discriminate | reflexivity].
Qed.

(** C6, amended.  With a non-empty player name: a submission whose four
    numbers are present and whose combat score is not 0 inserts the row
    and shows only the success message; a submission whose combat score
    is 0 is answered like one with a missing number and inserts nothing.
    Whatever is submitted, the missing-fields message appears exactly
    when the combat score is absent or 0 or another number is absent, and
    the name message exactly when the name is empty. *)
Theorem add_match_accepted (user : User) (player_name_input wl mp ag rk : string)
    (econ : Q) (db : Db) :
  let pname := if Page.is_player user then username user else player_name_input in
  pname <> "" ->
  (forall a k d s : Z, a <> 0 ->
     Page.on_add_match user player_name_input wl mp ag rk
                       (Some a) econ (Some k) (Some d) (Some s) db
     = ([Page.match_added],
        Matches.add_match (u_id user) pname wl mp ag rk a econ k d s db))
  /\ (forall k d s : option Z,
     Page.on_add_match user player_name_input wl mp ag rk (Some 0) econ k d s db
     = ([Page.missing_fields], db))
  /\ (forall a k d s : option Z,
     In Page.missing_fields
        (fst (Page.on_add_match user player_name_input wl mp ag rk a econ k d s db))
     <-> (a = None \/ a = Some 0 \/ k = None \/ d = None \/ s = None)).
Proof.
  intros pname Hname. unfold Page.on_add_match. fold pname.
  apply String.eqb_neq in Hname. rewrite Hname. simpl.
  split; [| split].
  - intros a k d s Ha. apply Z.eqb_neq in Ha. now rewrite Ha.
  - intros k d s. reflexivity.
  - intros a k d s.
    destruct a as [a |]; simpl.
    + destruct (Z.eqb_spec a 0) as [-> | Ha]; simpl.
      * split; [intros _; right; left; reflexivity | intros _; now left].
      * destruct k, d, s; simpl; split;
          try (intros [H | []]; discriminate H);
          try (intros _; now left);
          try (intros [H | [H | [H | [H | H]]]]; try discriminate H; congruence);
          try (intros _; right; right; left; reflexivity);
          try (intros _; right; right; right; left; reflexivity);
          try (intros _; right; right; right; right; reflexivity).
    + split; [intros _; now left | intros _; now left].
Qed.

Lemma add_match_accepted_witness :
  let ann := mkUser 1 "ann" "hash" "player" in
  let db := mkDb [ann] [] 2 1 in
  (if Page.is_player ann then username ann else "") <> "" /\
  Page.on_add_match ann "" "Win" "Bind" "Jett" "Gold 1"
                    (Some 200) (3 # 2) (Some 10) (Some 5) (Some 3) db
  = ([Page.match_added],
     Matches.add_match 1 "ann" "Win" "Bind" "Jett" "Gold 1" 200 (3 # 2) 10 5 3 db).
Proof.
  intros ann db.
  assert (Hname : (if Page.is_player ann then username ann else "") <> "") by discriminate.
  split; [exact Hname |].
  apply (proj1 (add_match_accepted ann "" "Win" "Bind" "Jett" "Gold 1" (3 # 2) db Hname)).
  discriminate.
Defined.

(** ** The delete form *)

Section TextFacts.

Lemma prefix_append (sep t : string) : String.prefix sep (sep ++ t) = true.
Proof.
  induction sep as [| c sep IH]; simpl.
  - now destruct t.
  - destruct (ascii_dec c c); [exact IH | congruence].
Qed.

Lemma split_first_unfold (sep s : string) :
  Py.split_first sep s =
  if String.prefix sep s then EmptyString
  else match s with
       | EmptyString => EmptyString
       | String c s' => String c (Py.split_first sep s')
       end.
Proof.
  destruct s; reflexivity.
Qed.





End TextFacts.




(** ** Aggregation *)

Section GroupFacts.

Import Aggregation.

Lemma has_key_iff (k : string) (gs : Groups) :
  has_key k gs = true <-> In k (keys gs).
Proof.
  unfold has_key, keys. rewrite existsb_exists, in_map_iff.
  split; intros [g [H1 H2]]; exists g.
  - apply String.eqb_eq in H2. auto.
  - split; [exact H2 | now apply String.eqb_eq].
Qed.

Lemma keys_add_to_group (r : MatchRow) (gs : Groups) :
  keys (add_to_group r gs) = keys gs.
Proof.
  induction gs as [| [k rs] gs IH]; simpl.
  - reflexivity.
  - destruct (String.eqb k (player_name r)); simpl; [reflexivity | now rewrite IH].
Qed.

Lemma keys_insert_key (k : string) (r : MatchRow) (gs : Groups) :
  Permutation (keys (insert_key k r gs)) (k :: keys gs).
Proof.
  induction gs as [| [k' rs] gs IH]; simpl.
  - reflexivity.
  - destruct (String.ltb k k'); simpl.
    + reflexivity.
    + rewrite IH. apply perm_swap.
Qed.

Lemma rows_of_snoc_same (r : MatchRow) (data : list MatchRow) :
  rows_of (player_name r) (data ++ [r]) = (rows_of (player_name r) data ++ [r])%list.
Proof.
  unfold rows_of. rewrite filter_app. simpl. now rewrite String.eqb_refl.
Qed.

Lemma rows_of_snoc_other (k : string) (r : MatchRow) (data : list MatchRow) :
  player_name r <> k -> rows_of k (data ++ [r]) = rows_of k data.
Proof.
  intros Hne. unfold rows_of. rewrite filter_app. simpl.
  apply String.eqb_neq in Hne. rewrite Hne. apply app_nil_r.
Qed.

Lemma rows_of_absent (k : string) (data : list MatchRow) :
  ~ In k (map player_name data) -> rows_of k data = [].
Proof.
  unfold rows_of. induction data as [| x data IH]; simpl; intros H.
  - reflexivity.
  - destruct (String.eqb_spec (player_name x) k) as [e | n].
    + exfalso. apply H. now left.
    + apply IH. intros Hin. apply H. now right.
Qed.

Lemma rows_of_present (k : string) (data : list MatchRow) :
  In k (map player_name data) -> rows_of k data <> [].
Proof.
  unfold rows_of. rewrite in_map_iff. intros [r [Hname Hin]] Hnil.
  assert (H : In r (filter (fun r => String.eqb (player_name r) k) data)).
  { apply filter_In. split; [exact Hin | now apply String.eqb_eq]. }
  rewrite Hnil in H. exact H.
Qed.

Lemma add_to_group_rows (r : MatchRow) (data : list MatchRow) (gs : Groups) :
  NoDup (keys gs) ->
  Forall (fun g => snd g = rows_of (fst g) data) gs ->
  Forall (fun g => snd g = rows_of (fst g) (data ++ [r])) (add_to_group r gs).
Proof.
  induction gs as [| [k rs] gs IH]; simpl; intros Hnd Hall.
  - constructor.
  - inversion Hnd as [| ? ? Hnotin Hnd']; subst.
    inversion Hall as [| ? ? Hhead Htail]; subst. simpl in Hhead.
    destruct (String.eqb_spec k (player_name r)) as [-> | Hne].
    + constructor.
      * simpl. rewrite rows_of_snoc_same. now rewrite Hhead.
      * rewrite Forall_forall in Htail |- *. intros g Hg.
        rewrite rows_of_snoc_other; [now apply Htail |].
        intros He. apply Hnotin. unfold keys. rewrite He. now apply in_map.
    + constructor.
      * simpl. rewrite rows_of_snoc_other; [exact Hhead | congruence].
      * now apply IH.
Qed.

Lemma insert_key_rows (r : MatchRow) (data : list MatchRow) (gs : Groups) :
  ~ In (player_name r) (keys gs) ->
  ~ In (player_name r) (map player_name data) ->
  Forall (fun g => snd g = rows_of (fst g) data) gs ->
  Forall (fun g => snd g = rows_of (fst g) (data ++ [r]))
         (insert_key (player_name r) r gs).
Proof.
  intros Hnew Hfresh Hall.
  assert (Hold : Forall (fun g => snd g = rows_of (fst g) (data ++ [r])) gs).
  { rewrite Forall_forall in Hall |- *. intros g Hg.
    rewrite rows_of_snoc_other; [now apply Hall |].
    intros He. apply Hnew. unfold keys. rewrite He. now apply in_map. }
  assert (Hmine : [r] = rows_of (player_name r) (data ++ [r])).
  { rewrite rows_of_snoc_same, rows_of_absent by exact Hfresh. reflexivity. }
  clear Hall. induction gs as [| [k rs] gs IH]; simpl.
  - constructor; [exact Hmine | constructor].
  - destruct (String.ltb (player_name r) k).
    + constructor; [exact Hmine | exact Hold].
    + inversion Hold; subst. constructor; [assumption |].
      apply IH; [| assumption]. intros Hin. apply Hnew. now right.
Qed.

Lemma groupby_step_grouped (r : MatchRow) (data : list MatchRow) (gs : Groups) :
  grouped data gs -> grouped (data ++ [r]) (groupby_step gs r).
Proof.
  intros (Hnd & Hkeys & Hall). unfold groupby_step.
  destruct (has_key (player_name r) gs) eqn:E.
  - apply has_key_iff in E. split; [| split].
    + now rewrite keys_add_to_group.
    + intro k. rewrite keys_add_to_group, Hkeys, map_app, in_app_iff. simpl.
      split; [tauto |]. intros [H | [<- | []]]; [exact H | now apply Hkeys].
    + now apply add_to_group_rows.
  - assert (Hnew : ~ In (player_name r) (keys gs)).
    { intros Hin. apply has_key_iff in Hin. congruence. }
    split; [| split].
    + apply (Permutation_NoDup (l := player_name r :: keys gs)).
      * symmetry. apply keys_insert_key.
      * now constructor.
    + intro k. rewrite map_app, in_app_iff. simpl. rewrite <- Hkeys. split.
      * intros Hin. apply (Permutation_in _ (keys_insert_key _ r gs)) in Hin.
        destruct Hin as [<- | Hin]; auto.
      * intros H. apply (Permutation_in _ (Permutation_sym (keys_insert_key _ r gs))).
        destruct H as [H | [<- | []]]; [now right | now left].
    + apply insert_key_rows; [exact Hnew | now rewrite <- Hkeys | exact Hall].
Qed.

Lemma groupby_grouped (data : list MatchRow) :
  grouped data (groupby_player_name data).
Proof.
  unfold groupby_player_name.
  induction data as [| r data IH] using rev_ind.
  - simpl. split; [constructor | split; [tauto | constructor]].
  - rewrite fold_left_app. simpl. now apply groupby_step_grouped.
Qed.

End GroupFacts.
(** ** Means and rounding of a column *)

Section MeanFacts.

Import F64 Aggregation.












End MeanFacts.


Section AggregateFacts.

Import Aggregation.




End AggregateFacts.



(** ** Ranking *)

Section TakeFacts.

Import Aggregation.

Context {A : Type}.

Lemma take_map_S (x : A) (l : list A) (ix : list nat) :
  take (map S ix) (x :: l) = take ix l.
Proof.
  unfold take. induction ix as [| i ix IH]; simpl.
  - reflexivity.
  - now rewrite IH.
Qed.

Lemma take_seq (l : list A) : take (seq 0 (List.length l)) l = l.
Proof.
  induction l as [| x l IH]; simpl.
  - reflexivity.
  - rewrite <- seq_shift. fold (take (map S (seq 0 (List.length l))) (x :: l)).
    now rewrite take_map_S, IH.
Qed.

Lemma take_perm (l : list A) (ix ix' : list nat) :
  Permutation ix ix' -> Permutation (take ix l) (take ix' l).
Proof.
  intros H. unfold take. now rewrite H.
Qed.

Lemma filter_take (P : A -> bool) (l : list A) (ix : list nat) :
  filter P (take ix l)
  = take (filter (fun i => match nth_error l i with
                           | Some x => P x
                           | None => false
                           end) ix) l.
Proof.
  unfold take. induction ix as [| i ix IH]; simpl.
  - reflexivity.
  - rewrite filter_app, IH. destruct (nth_error l i) as [x |] eqn:E; simpl.
    + destruct (P x); simpl; [now rewrite E |]. reflexivity.
    + reflexivity.
Qed.

Lemma map_take {B : Type} (f : A -> B) (d : B) (l : list A) (ix : list nat) :
  (forall i, In i ix -> (i < List.length l)%nat) ->
  map f (take ix l) = map (fun i => nth i (map f l) d) ix.
Proof.
  unfold take. induction ix as [| i ix IH]; simpl; intros Hin.
  - reflexivity.
  - rewrite map_app, IH by auto. f_equal.
    assert (Hi : (i < List.length l)%nat) by auto.
    destruct (nth_error l i) as [x |] eqn:E.
    + simpl. f_equal. symmetry. apply nth_error_nth.
      now rewrite nth_error_map, E.
    + apply nth_error_None in E. lia.
Qed.

Lemma map_nth_seq (d : A) (l : list A) :
  map (fun j => nth j l d) (seq 0 (List.length l)) = l.
Proof.
  induction l as [| x l IH]; simpl.
  - reflexivity.
  - f_equal. rewrite <- seq_shift, map_map. exact IH.
Qed.

End TakeFacts.

Section OrderFacts.

Context {A : Type}.

Lemma StronglySorted_snoc (R : A -> A -> Prop) (l : list A) (x : A) :
  StronglySorted R l -> Forall (fun y => R y x) l -> StronglySorted R (l ++ [x]).
Proof.
  induction 1 as [| y l Hs IH Hy]; simpl; intros Hall.
  - constructor; constructor.
  - inversion Hall; subst. constructor.
    + now apply IH.
    + apply Forall_app. split; [exact Hy | now constructor].
Qed.

Lemma StronglySorted_rev (R : A -> A -> Prop) (l : list A) :
  StronglySorted R l -> StronglySorted (fun a b => R b a) (rev l).
Proof.
  induction 1 as [| x l Hs IH Hx]; simpl.
  - constructor.
  - apply StronglySorted_snoc; [exact IH |]. now apply Forall_rev.
Qed.

Lemma StronglySorted_map {B : Type} (R : B -> B -> Prop) (f : A -> B) (l : list A) :
  StronglySorted R (map f l) -> StronglySorted (fun a b => R (f a) (f b)) l.
Proof.
  induction l as [| x l IH]; simpl; intros H.
  - constructor.
  - inversion H; subst. constructor; [now apply IH |].
    now apply Forall_map.
Qed.

End OrderFacts.

Section RankFacts.

Import Aggregation.

Context {K : SortKind}.

(** Reading the reversed positions: position [j] of the reversed column
    is position [n - 1 - j] of the column. *)
Lemma reversed_position (items : list Q) (j : nat) :
  (j < List.length items)%nat ->
  nth (nth j (rev (seq 0 (List.length items))) 0%nat) items 0%Q
  = nth j (rev items) 0%Q.
Proof.
  intros Hj.
  rewrite rev_nth by (now rewrite length_seq).
  rewrite length_seq, seq_nth by lia. simpl.
  now rewrite rev_nth by exact Hj.
Qed.

Lemma nargsort_descending_perm (items : list Q) :
  Lawful K ->
  Permutation (nargsort_descending items) (seq 0 (List.length items)).
Proof.
  intros HK. unfold nargsort_descending.
  destruct (HK (rev items)) as [Hperm _]. rewrite length_rev in Hperm.
  rewrite <- Permutation_rev, Hperm.
  pose proof (map_nth_seq 0%nat (rev (seq 0 (List.length items)))) as Hmap.
  rewrite length_rev, length_seq in Hmap. rewrite Hmap.
  symmetry. apply Permutation_rev.
Qed.

Lemma nargsort_descending_sorted (items : list Q) :
  Lawful K ->
  StronglySorted (fun x y => (y <= x)%Q)
                 (map (fun i => nth i items 0%Q) (nargsort_descending items)).
Proof.
  intros HK. unfold nargsort_descending.
  destruct (HK (rev items)) as [Hperm Hsorted]. rewrite length_rev in Hperm.
  rewrite map_rev, map_map. apply StronglySorted_rev.
  erewrite map_ext_in; [exact Hsorted |].
  intros j Hj. apply reversed_position.
  apply (Permutation_in _ Hperm) in Hj. apply in_seq in Hj. lia.
Qed.

End RankFacts.

Section StableRank.

Import Aggregation.

Context {K : SortKind}.

(** Whether the row at position [i] has the score [v]. *)
Let scored (rws : list AggRow) (v : Q) (i : nat) : bool :=
  match nth_error rws i with
  | Some a => Qeq_bool (avg_acs a) v
  | None => false
  end.

Lemma scored_in_range (rws : list AggRow) (v : Q) (i : nat) :
  (i < List.length rws)%nat ->
  scored rws v i = Qeq_bool (nth i (map avg_acs rws) 0%Q) v.
Proof.
  intros Hi. unfold scored.
  destruct (nth_error rws i) as [a |] eqn:E.
  - f_equal. symmetry. apply nth_error_nth. now rewrite nth_error_map, E.
  - apply nth_error_None in E. lia.
Qed.

Lemma scored_reversed (rws : list AggRow) (v : Q) (j : nat) :
  (j < List.length rws)%nat ->
  scored rws v (nth j (rev (seq 0 (List.length rws))) 0%nat)
  = Qeq_bool (nth j (rev (map avg_acs rws)) 0%Q) v.
Proof.
  intros Hj.
  assert (Hr : (nth j (rev (seq 0 (List.length rws))) 0 < List.length rws)%nat).
  { rewrite rev_nth by (now rewrite length_seq).
    rewrite length_seq, seq_nth by lia. lia. }
  rewrite scored_in_range by exact Hr.
  pose proof (reversed_position (map avg_acs rws) j) as H.
  rewrite length_map in H. now rewrite H.
Qed.

(** When the sort kind keeps the players of score [v] in order on the
    reversed column, the ranking keeps them in the order in which they
    went in. *)
Lemma take_nargsort_stable_at (rws : list AggRow) (v : Q) :
  Permutation (argsort (rev (map avg_acs rws))) (seq 0 (List.length rws)) ->
  filter (fun i => Qeq_bool (nth i (rev (map avg_acs rws)) 0%Q) v)
         (argsort (rev (map avg_acs rws)))
  = filter (fun i => Qeq_bool (nth i (rev (map avg_acs rws)) 0%Q) v)
           (seq 0 (List.length rws)) ->
  filter (fun a => Qeq_bool (avg_acs a) v)
         (take (nargsort_descending (map avg_acs rws)) rws)
  = filter (fun a => Qeq_bool (avg_acs a) v) rws.
Proof.
  intros Hperm HS.
  rewrite filter_take. fold (scored rws v).
  replace (filter (fun a => Qeq_bool (avg_acs a) v) rws)
    with (filter (fun a => Qeq_bool (avg_acs a) v)
                 (take (seq 0 (List.length rws)) rws))
    by (now rewrite take_seq).
  rewrite (filter_take _ rws (seq 0 (List.length rws))). fold (scored rws v).
  f_equal. unfold nargsort_descending. rewrite length_map.
  rewrite filter_rev, filter_map_swap.
  rewrite (filter_ext_in _ (fun j => Qeq_bool (nth j (rev (map avg_acs rws)) 0%Q) v)).
  2:{ intros j Hj. apply scored_reversed.
      apply (Permutation_in _ Hperm) in Hj. apply in_seq in Hj. lia. }
  rewrite HS.
  rewrite <- (filter_ext_in (fun j => scored rws v
                 (nth j (rev (seq 0 (List.length rws))) 0%nat))).
  2:{ intros j Hj. apply scored_reversed. apply in_seq in Hj. lia. }
  rewrite <- filter_map_swap, <- filter_rev.
  pose proof (map_nth_seq 0%nat (rev (seq 0 (List.length rws)))) as Hmap.
  rewrite length_rev, length_seq in Hmap. now rewrite Hmap, rev_involutive.
Qed.

(** Under a stable kind the players with one and the same score come
    out in the order in which they went in. *)
Lemma take_nargsort_stable (rws : list AggRow) (v : Q) :
  Lawful K -> Stable K ->
  filter (fun a => Qeq_bool (avg_acs a) v)
         (take (nargsort_descending (map avg_acs rws)) rws)
  = filter (fun a => Qeq_bool (avg_acs a) v) rws.
Proof.
  intros HK HS. apply take_nargsort_stable_at.
  - destruct (HK (rev (map avg_acs rws))) as [Hperm _].
    now rewrite length_rev, length_map in Hperm.
  - rewrite HS. now rewrite length_rev, length_map.
Qed.

End StableRank.

Section InsertionKind.

Import Aggregation Kinds.

Variable l : list Q.

Let value (i : nat) : Q := nth i l 0%Q.

Lemma Qltb_true (x y : Q) : Qltb x y = true -> (x < y)%Q.
Proof.
  unfold Qltb. intros H. apply negb_true_iff in H. apply Qnot_le_lt.
  intros Hle. apply Qle_bool_iff in Hle. congruence.
Qed.

Lemma Qltb_false (x y : Q) : Qltb x y = false -> (y <= x)%Q.
Proof.
  unfold Qltb. intros H. apply negb_false_iff in H. now apply Qle_bool_iff.
Qed.

Lemma insert_pos_perm (i : nat) (ix : list nat) :
  Permutation (insert_pos l i ix) (i :: ix).
Proof.
  induction ix as [| j ix IH]; simpl.
  - reflexivity.
  - destruct (Qltb (nth i l 0%Q) (nth j l 0%Q)).
    + reflexivity.
    + rewrite IH. apply perm_swap.
Qed.

Lemma insert_pos_sorted (i : nat) (ix : list nat) :
  StronglySorted Qle (map value ix) ->
  StronglySorted Qle (map value (insert_pos l i ix)).
Proof.
  induction ix as [| j ix IH]; simpl; intros Hs.
  - constructor; constructor.
  - inversion Hs as [| ? ? Htail Hhead]; subst.
    destruct (Qltb (nth i l 0%Q) (nth j l 0%Q)) eqn:E.
    + apply Qltb_true, Qlt_le_weak in E. simpl. constructor; [exact Hs |].
      constructor; [exact E |].
      eapply Forall_impl; [| exact Hhead].
      intros x Hx. eapply Qle_trans; [exact E | exact Hx].
    + apply Qltb_false in E. simpl. constructor; [now apply IH |].
      rewrite insert_pos_perm. simpl. constructor; [exact E | exact Hhead].
Qed.

Lemma insert_pos_filter (v : Q) (i : nat) (ix : list nat) :
  StronglySorted Qle (map value ix) ->
  filter (fun k => Qeq_bool (value k) v) (insert_pos l i ix)
  = (filter (fun k => Qeq_bool (value k) v) ix
     ++ (if Qeq_bool (value i) v then [i] else []))%list.
Proof.
  induction ix as [| j ix IH]; intros Hs.
  - simpl. fold (value i). now destruct (Qeq_bool (value i) v).
  - inversion Hs as [| ? ? Htail Hhead]; subst.
    cbn [insert_pos]. fold (value i) (value j).
    destruct (Qltb (value i) (value j)) eqn:E.
    + apply Qltb_true in E. cbn [filter].
      destruct (Qeq_bool (value i) v) eqn:Ei; [| now rewrite app_nil_r].
      apply Qeq_bool_iff in Ei.
      assert (Hnone : forall k, In k (j :: ix) -> Qeq_bool (value k) v = false).
      { intros k Hk. destruct (Qeq_bool (value k) v) eqn:Ek; [| reflexivity].
        apply Qeq_bool_iff in Ek. exfalso.
        assert (Hjk : (value j <= value k)%Q).
        { destruct Hk as [<- | Hk]; [apply Qle_refl |].
          rewrite Forall_forall in Hhead. apply Hhead. now apply in_map. }
        rewrite Ek, <- Ei in Hjk. exact (Qlt_not_le _ _ E Hjk). }
      assert (Hnil : filter (fun k => Qeq_bool (value k) v) (j :: ix) = []).
      { clear - Hnone. induction (j :: ix) as [| k ks IHk]; simpl.
        - reflexivity.
        - rewrite (Hnone k) by (now left). apply IHk.
          intros k' Hk'. apply Hnone. now right. }
      cbn [filter] in Hnil. rewrite Hnil. reflexivity.
    + cbn [filter]. rewrite (IH Htail).
      now destruct (Qeq_bool (value j) v).
Qed.

Lemma fold_insert_perm (todo acc : list nat) :
  Permutation (fold_left (fun ix i => insert_pos l i ix) todo acc) (acc ++ todo).
Proof.
  revert acc. induction todo as [| i todo IH]; intros acc; simpl.
  - now rewrite app_nil_r.
  - rewrite IH, insert_pos_perm. apply Permutation_middle.
Qed.

Lemma fold_insert_sorted (todo acc : list nat) :
  StronglySorted Qle (map value acc) ->
  StronglySorted Qle (map value (fold_left (fun ix i => insert_pos l i ix) todo acc)).
Proof.
  revert acc. induction todo as [| i todo IH]; intros acc Hs; simpl.
  - exact Hs.
  - apply IH. now apply insert_pos_sorted.
Qed.

Lemma fold_insert_filter (v : Q) (todo acc : list nat) :
  StronglySorted Qle (map value acc) ->
  filter (fun k => Qeq_bool (value k) v)
         (fold_left (fun ix i => insert_pos l i ix) todo acc)
  = (filter (fun k => Qeq_bool (value k) v) acc
     ++ filter (fun k => Qeq_bool (value k) v) todo)%list.
Proof.
  revert acc. induction todo as [| i todo IH]; intros acc Hs; simpl.
  - now rewrite app_nil_r.
  - rewrite IH by (now apply insert_pos_sorted).
    rewrite insert_pos_filter by exact Hs. rewrite <- app_assoc.
    now destruct (Qeq_bool (value i) v).
Qed.

End InsertionKind.

Lemma stable_kind_lawful : Aggregation.Lawful Kinds.stable_kind.
Proof.
  intros l. simpl. unfold Kinds.insertion_argsort. split.
  - apply (fold_insert_perm l (seq 0 (List.length l)) []).
  - apply (fold_insert_sorted l (seq 0 (List.length l)) []). constructor.
Qed.

Lemma stable_kind_stable : Aggregation.Stable Kinds.stable_kind.
Proof.
  intros l v. simpl. unfold Kinds.insertion_argsort.
  apply (fold_insert_filter l v (seq 0 (List.length l)) []). constructor.
Qed.

(** ** The default sort kind sorts *)

(** *** Arrays of positions *)

Section ArrayFacts.

Import Kinds.

Local Open Scope nat_scope.

Lemma half_spec (k : nat) : 2 * (k / 2) <= k < 2 * (k / 2) + 2.
Proof.
  pose proof (Nat.div_mod_eq k 2) as H.
  pose proof (Nat.mod_upper_bound k 2) as H'. lia.
Qed.

Lemma length_set_nth (p x : nat) (a : list nat) :
  List.length (set_nth p x a) = List.length a.
Proof.
  revert p. induction a as [| y a IH]; intros [| p]; simpl; auto.
Qed.

Lemma nth_set_nth (p x : nat) (a : list nat) (r : nat) :
  nth r (set_nth p x a) 0
  = if (r =? p) && (p <? List.length a) then x else nth r a 0.
Proof.
  revert p r. induction a as [| y a IH]; intros p r.
  - destruct p, r; simpl; try reflexivity; now destruct (r =? p).
  - destruct p as [| p], r as [| r]; simpl; try reflexivity.
    rewrite IH. reflexivity.
Qed.

Lemma length_swap (p q : nat) (a : list nat) :
  List.length (swap p q a) = List.length a.
Proof.
  unfold swap. now rewrite !length_set_nth.
Qed.

Lemma nth_swap (p q : nat) (a : list nat) (r : nat) :
  nth r (swap p q a) 0
  = if (r =? q) && (q <? List.length a) then nth p a 0
    else if (r =? p) && (p <? List.length a) then nth q a 0
    else nth r a 0.
Proof.
  unfold swap. now rewrite !nth_set_nth, length_set_nth.
Qed.

End ArrayFacts.

(** Case analysis on the comparisons of positions an array access
    leaves behind. *)
Ltac positions :=
  repeat match goal with
         | |- context [Nat.eqb ?x ?y] => destruct (Nat.eqb_spec x y)
         | |- context [Nat.ltb ?x ?y] => destruct (Nat.ltb_spec x y)
         | |- context [Nat.leb ?x ?y] => destruct (Nat.leb_spec x y)
         end;
  cbn [andb orb negb]; subst; try reflexivity; try lia; try congruence.

Ltac array :=
  repeat (rewrite ?nth_swap, ?nth_set_nth, ?length_swap, ?length_set_nth);
  positions.

Section RangeFacts.

Import Kinds Sorting.

Variable v : list Q.

Local Open Scope nat_scope.

Lemma val_set_nth (p x : nat) (a : list nat) (r : nat) :
  val v (set_nth p x a) r
  = if (r =? p) && (p <? List.length a) then nth x v 0%Q else val v a r.
Proof.
  unfold val. rewrite nth_set_nth. now destruct ((r =? p) && (p <? List.length a)).
Qed.

Lemma val_swap (p q : nat) (a : list nat) (r : nat) :
  val v (swap p q a) r
  = if (r =? q) && (q <? List.length a) then val v a p
    else if (r =? p) && (p <? List.length a) then val v a q
    else val v a r.
Proof.
  unfold val. rewrite nth_swap.
  destruct ((r =? q) && (q <? List.length a)); [reflexivity |].
  now destruct ((r =? p) && (p <? List.length a)).
Qed.

Lemma NoDup_swap (p q : nat) (a : list nat) :
  p < List.length a -> q < List.length a -> NoDup a -> NoDup (swap p q a).
Proof.
  intros Hp Hq Hnd. rewrite (NoDup_nth _ 0) in Hnd. apply (NoDup_nth _ 0).
  intros i j. rewrite length_swap. intros Hi Hj. rewrite !nth_swap.
  destruct (Nat.eqb_spec i q), (Nat.eqb_spec i p), (Nat.eqb_spec j q),
    (Nat.eqb_spec j p), (Nat.ltb_spec q (List.length a)),
    (Nat.ltb_spec p (List.length a));
    cbn [andb]; subst; try lia; intros Heq; apply Hnd in Heq; lia.
Qed.

Lemma within_refl (pl pr : nat) (a : list nat) : within pl pr a a.
Proof.
  split; [reflexivity | split; [reflexivity | split; [| exact (fun H => H)]]].
  intros j Hj. now exists j.
Qed.

Lemma within_trans (pl pr : nat) (a b c : list nat) :
  within pl pr a b -> within pl pr b c -> within pl pr a c.
Proof.
  intros (L1 & O1 & I1 & N1) (L2 & O2 & I2 & N2).
  split; [congruence | split; [| split]].
  - intros p Hp. now rewrite O2, O1.
  - intros j Hj. destruct (I2 j Hj) as (k & Hk & Ek).
    destruct (I1 k Hk) as (k' & Hk' & Ek'). exists k'. split; [exact Hk' | congruence].
  - auto.
Qed.

Lemma within_mono (pl pr pl' pr' : nat) (a b : list nat) :
  pl' <= pl -> pr <= pr' -> within pl pr a b -> within pl' pr' a b.
Proof.
  intros Hl Hr (L & O & I & N).
  split; [exact L | split; [| split; [| exact N]]].
  - intros p Hp. apply O. lia.
  - intros j Hj. destruct (Nat.lt_ge_cases j pl) as [H | H].
    + exists j. split; [lia | apply O; lia].
    + destruct (Nat.lt_ge_cases pr j) as [H' | H'].
      * exists j. split; [lia | apply O; lia].
      * destruct (I j (conj H H')) as (k & Hk & Ek). exists k. split; [lia | exact Ek].
Qed.

Lemma within_swap (pl pr p q : nat) (a : list nat) :
  pl <= p <= pr -> pl <= q <= pr -> pr < List.length a ->
  within pl pr a (swap p q a).
Proof.
  intros Hp Hq Hr.
  split; [apply length_swap | split; [| split]].
  - intros r Hr'. array.
  - intros j Hj. rewrite nth_swap.
    destruct (Nat.eqb_spec j q) as [-> | Hjq];
      [| destruct (Nat.eqb_spec j p) as [-> | Hjp]].
    + exists p. split; [lia |]. positions.
    + exists q. split; [lia |]. positions.
    + exists j. split; [lia | reflexivity].
  - apply NoDup_swap; lia.
Qed.

(** The values met in a range after a rearrangement were there before. *)
Lemma within_val (pl pr : nat) (a b : list nat) (j : nat) :
  within pl pr a b -> pl <= j <= pr ->
  exists k, pl <= k <= pr /\ val v b j = val v a k.
Proof.
  intros (_ & _ & I & _) Hj. destruct (I j Hj) as (k & Hk & Ek).
  exists k. split; [exact Hk |]. unfold val. now rewrite Ek.
Qed.

Lemma within_val_out (pl pr : nat) (a b : list nat) (p : nat) :
  within pl pr a b -> p < pl \/ pr < p -> val v b p = val v a p.
Proof.
  intros (_ & O & _ & _) Hp. unfold val. now rewrite O.
Qed.

(** *** Insertion sort of a range *)

Lemma shift_spec (pl pi vi : nat) (a0 : list nat) (fuel : nat) :
  forall (pj : nat) (a : list nat),
    pl <= pj <= pi -> pi < List.length a -> pj - pl <= fuel ->
    within pl pi a0 (set_nth pj vi a) ->
    (forall i j, pl <= i -> i < j -> j <= pi -> i <> pj -> j <> pj ->
                 (val v (set_nth pj vi a) i <= val v (set_nth pj vi a) j)%Q) ->
    (forall j, pj < j <= pi -> (nth vi v 0%Q < val v (set_nth pj vi a) j)%Q) ->
    let r := shift v fuel pj pl (nth vi v 0%Q) a in
    within pl pi a0 (set_nth (fst r) vi (snd r))
    /\ ordered v (set_nth (fst r) vi (snd r)) pl pi.
Proof.
  induction fuel as [| f IH]; intros pj a Hpj Hlen Hfuel Hw Hs Hgt.
  - cbn [shift fst snd]. split; [exact Hw |].
    intros i j Hi Hij Hj. destruct (Nat.eq_dec i pj) as [-> | Hne].
    + apply Qlt_le_weak. rewrite (val_set_nth pj vi a pj).
      replace ((pj =? pj) && (pj <? List.length a)) with true by (symmetry; positions).
      apply Hgt. lia.
    + apply Hs; lia.
  - cbn [shift].
    destruct ((pl <? pj) && Qltb (nth vi v 0%Q) (val v a (pj - 1))) eqn:E.
    + apply andb_prop in E. destruct E as [E1 E2].
      apply Nat.ltb_lt in E1. apply Qltb_true in E2.
      set (a1 := set_nth pj (nth (pj - 1) a 0) a).
      assert (HC : set_nth (pj - 1) vi a1 = swap (pj - 1) pj (set_nth pj vi a)).
      { apply (nth_ext _ _ 0 0); [unfold a1; now rewrite length_swap, !length_set_nth |].
        intros r _. unfold a1. array. }
      assert (Hold : val v a (pj - 1) = val v (set_nth pj vi a) (pj - 1)).
      { rewrite val_set_nth. positions. }
      apply IH.
      * lia.
      * unfold a1. now rewrite length_set_nth.
      * lia.
      * rewrite HC. apply (within_trans _ _ _ _ _ Hw).
        apply within_swap; rewrite ?length_set_nth; lia.
      * rewrite HC. intros i j Hi Hij Hj Hni Hnj.
        rewrite !val_swap, !length_set_nth.
        destruct (Nat.eqb_spec i pj) as [Ei' | Hi'];
          destruct (Nat.eqb_spec j pj) as [Ej' | Hj'];
          destruct (Nat.eqb_spec i (pj - 1)) as [Ei | Ei];
          destruct (Nat.eqb_spec j (pj - 1)) as [Ej | Ej];
          destruct (Nat.ltb_spec pj (List.length a));
          destruct (Nat.ltb_spec (pj - 1) (List.length a));
          cbn [andb]; try lia; apply Hs; lia.
      * rewrite HC. intros j Hj. rewrite val_swap, !length_set_nth.
        destruct (Nat.eqb_spec j pj) as [Ej' | Hj'];
          destruct (Nat.eqb_spec j (pj - 1)) as [Ej | Ej];
          destruct (Nat.ltb_spec pj (List.length a));
          destruct (Nat.ltb_spec (pj - 1) (List.length a));
          cbn [andb]; try lia.
        -- now rewrite <- Hold.
        -- apply Hgt. lia.
    + cbn [fst snd]. split; [exact Hw |].
      assert (Hhole : val v (set_nth pj vi a) pj = nth vi v 0%Q).
      { rewrite val_set_nth. positions. }
      intros i j Hi Hij Hj.
      destruct (Nat.eq_dec i pj) as [-> | Hni].
      * rewrite Hhole. apply Qlt_le_weak, Hgt. lia.
      * destruct (Nat.eq_dec j pj) as [-> | Hnj]; [| apply Hs; lia].
        rewrite Hhole.
        apply andb_false_iff in E. destruct E as [E | E];
          [apply Nat.ltb_ge in E; lia |].
        apply Qltb_false in E.
        assert (Hold : val v a (pj - 1) = val v (set_nth pj vi a) (pj - 1)).
        { rewrite val_set_nth. positions. }
        rewrite Hold in E.
        destruct (Nat.eq_dec i (pj - 1)) as [-> | Hne]; [exact E |].
        apply Qle_trans with (val v (set_nth pj vi a) (pj - 1)); [| exact E].
        apply Hs; lia.
Qed.

Lemma insert_one_spec (pl pi : nat) (a : list nat) :
  pl < pi -> pi < List.length a -> ordered v a pl (pi - 1) ->
  within pl pi a (insert_one v pl a pi)
  /\ ordered v (insert_one v pl a pi) pl pi.
Proof.
  intros Hpl Hpi Hord. unfold insert_one.
  assert (HC : set_nth pi (nth pi a 0) a = a).
  { apply (nth_ext _ _ 0 0); [apply length_set_nth |]. intros r _. array. }
  pose proof (shift_spec pl pi (nth pi a 0) a pi pi a) as H.
  destruct (shift v pi pi pl (nth (nth pi a 0) v 0%Q) a) as [pj a'].
  cbn [fst snd] in H. apply H; try lia.
  - rewrite HC. apply within_refl.
  - rewrite HC. intros i j Hi Hij Hj _ Hnj. apply Hord; lia.
Qed.

Lemma insertion_prefix (pl : nat) (a : list nat) (k : nat) :
  (0 < k -> pl + k < List.length a) ->
  within pl (pl + k) a (fold_left (insert_one v pl) (seq (S pl) k) a)
  /\ ordered v (fold_left (insert_one v pl) (seq (S pl) k) a) pl (pl + k).
Proof.
  induction k as [| k IH]; intros Hlen.
  - cbn [seq fold_left]. split; [apply within_refl |]. intros i j Hi Hij Hj. lia.
  - rewrite seq_S, fold_left_app. cbn [fold_left].
    destruct IH as [Hw Ho]; [lia |].
    set (ak := fold_left (insert_one v pl) (seq (S pl) k) a) in *.
    assert (Hlen' : List.length ak = List.length a) by apply Hw.
    destruct (insert_one_spec pl (S pl + k) ak) as [Hw' Ho'].
    + lia.
    + rewrite Hlen'. lia.
    + replace (S pl + k - 1) with (pl + k) by lia. exact Ho.
    + replace (pl + S k) with (S pl + k) by lia. split; [| exact Ho'].
      apply within_trans with ak; [| exact Hw'].
      apply (within_mono pl (pl + k)); [lia | lia | exact Hw].
Qed.

Lemma insertion_sort_spec (pl pr : nat) (a : list nat) :
  (pl < pr -> pr < List.length a) ->
  within pl pr a (insertion_sort v pl pr a)
  /\ ordered v (insertion_sort v pl pr a) pl pr.
Proof.
  intros Hlen. unfold insertion_sort.
  destruct (Nat.lt_ge_cases pl pr) as [Hlt | Hge].
  - pose proof (insertion_prefix pl a (pr - pl)) as H.
    replace (pl + (pr - pl)) with pr in H by lia. apply H. intros _. lia.
  - replace (pr - pl) with 0 by lia. cbn [seq fold_left].
    split; [apply within_refl |]. intros i j Hi Hij Hj. lia.
Qed.

(** *** Partition of a range *)

Lemma scan_up_spec (vp : Q) (a : list nat) (stop fuel : nat) :
  forall pi,
    pi < stop -> stop - pi <= fuel -> (vp <= val v a stop)%Q ->
    let r := scan_up v fuel pi vp a in
    pi < r <= stop
    /\ (vp <= val v a r)%Q
    /\ (forall p, pi < p < r -> (val v a p < vp)%Q).
Proof.
  induction fuel as [| f IH]; intros pi Hlt Hfuel Hstop; [lia |].
  cbn [scan_up]. destruct (Qltb (val v a (S pi)) vp) eqn:E.
  - apply Qltb_true in E.
    assert (Hne : S pi <> stop) by (intros <-; lra).
    destruct (IH (S pi)) as (Hr & Hv & Hbelow); [lia | lia | exact Hstop |].
    split; [lia | split; [exact Hv |]].
    intros p Hp. destruct (Nat.eq_dec p (S pi)) as [-> | Hp']; [exact E |].
    apply Hbelow. lia.
  - apply Qltb_false in E. split; [lia | split; [exact E |]]. intros p Hp. lia.
Qed.

Lemma scan_down_spec (vp : Q) (a : list nat) (stop fuel : nat) :
  forall pj,
    stop < pj -> pj - stop <= fuel -> (val v a stop <= vp)%Q ->
    let r := scan_down v fuel pj vp a in
    stop <= r < pj
    /\ (val v a r <= vp)%Q
    /\ (forall p, r < p < pj -> (vp < val v a p)%Q).
Proof.
  induction fuel as [| f IH]; intros pj Hlt Hfuel Hstop; [lia |].
  cbn [scan_down]. destruct (Qltb vp (val v a (pj - 1))) eqn:E.
  - apply Qltb_true in E.
    assert (Hne : pj - 1 <> stop) by (intros He; rewrite He in E; lra).
    destruct (IH (pj - 1)) as (Hr & Hv & Habove); [lia | lia | exact Hstop |].
    split; [lia | split; [exact Hv |]].
    intros p Hp. destruct (Nat.eq_dec p (pj - 1)) as [-> | Hp']; [exact E |].
    apply Habove. lia.
  - apply Qltb_false in E. split; [lia | split; [exact E |]]. intros p Hp. lia.
Qed.

Lemma exchange_spec (pl pr : nat) (vp : Q) (a0 : list nat) (fuel : nat) :
  forall (pi pj : nat) (a : list nat),
    pl <= pi -> pi < pj -> pj <= pr - 1 -> pr < List.length a -> pj - pi <= fuel ->
    within pl pr a0 a ->
    val v a (pr - 1) = vp ->
    (forall p, pl <= p <= pi -> (val v a p <= vp)%Q) ->
    (forall p, pj <= p <= pr -> (vp <= val v a p)%Q) ->
    let r := exchange v fuel pi pj vp a in
    within pl pr a0 (snd r)
    /\ pi < fst r <= pr - 1
    /\ val v (snd r) (pr - 1) = vp
    /\ (forall p, pl <= p < fst r -> (val v (snd r) p <= vp)%Q)
    /\ (forall p, fst r <= p <= pr -> (vp <= val v (snd r) p)%Q).
Proof.
  induction fuel as [| f IH]; intros pi pj a Hpl Hij Hpj Hlen Hfuel Hw Hpiv HA HB; [lia |].
  cbn [exchange].
  destruct (scan_up_spec vp a pj (List.length a) pi) as (Hi1 & Hi2 & Hi3);
    [lia | lia | apply HB; lia |].
  destruct (scan_down_spec vp a pi (List.length a) pj) as (Hj1 & Hj2 & Hj3);
    [lia | lia | apply HA; lia |].
  set (pi' := scan_up v (List.length a) pi vp a) in *.
  set (pj' := scan_down v (List.length a) pj vp a) in *.
  assert (HA' : forall p, pl <= p < pi' -> (val v a p <= vp)%Q).
  { intros p Hp. destruct (Nat.le_gt_cases p pi) as [H | H]; [apply HA; lia |].
    apply Qlt_le_weak, Hi3. lia. }
  assert (HB' : forall p, pj' < p <= pr -> (vp <= val v a p)%Q).
  { intros p Hp. destruct (Nat.le_gt_cases pj p) as [H | H]; [apply HB; lia |].
    apply Qlt_le_weak, Hj3. lia. }
  destruct (Nat.leb_spec pj' pi') as [Hmeet | Hapart]; cbn [fst snd].
  - split; [exact Hw | split; [lia | split; [exact Hpiv | split; [exact HA' |]]]].
    intros p Hp. destruct (Nat.eq_dec p pi') as [-> | Hne]; [exact Hi2 |].
    apply HB'. lia.
  - assert (Hv : forall p, val v (swap pi' pj' a) p
                           = if p =? pj' then val v a pi'
                             else if p =? pi' then val v a pj' else val v a p).
    { intros p. rewrite val_swap. positions. }
    destruct (IH pi' pj' (swap pi' pj' a)) as (R1 & R2 & R3 & R4 & R5).
    + lia.
    + exact Hapart.
    + lia.
    + now rewrite length_swap.
    + lia.
    + apply (within_trans _ _ _ _ _ Hw). apply within_swap; lia.
    + rewrite Hv. positions.
    + intros p Hp. rewrite Hv.
      destruct (Nat.eqb_spec p pj'); [lia |].
      destruct (Nat.eqb_spec p pi'); [exact Hj2 | apply HA'; lia].
    + intros p Hp. rewrite Hv.
      destruct (Nat.eqb_spec p pj'); [exact Hi2 |].
      destruct (Nat.eqb_spec p pi'); [lia | apply HB'; lia].
    + split; [exact R1 | split; [lia | split; [exact R3 | split; [exact R4 | exact R5]]]].
Qed.

Lemma swap_if_spec (b : bool) (pl pr p q : nat) (a : list nat) :
  pl <= p <= pr -> pl <= q <= pr -> pr < List.length a ->
  within pl pr a (swap_if b p q a)
  /\ List.length (swap_if b p q a) = List.length a
  /\ forall r, val v (swap_if b p q a) r
               = if b then (if r =? q then val v a p
                            else if r =? p then val v a q else val v a r)
                 else val v a r.
Proof.
  intros Hp Hq Hr. destruct b; cbn [swap_if].
  - split; [now apply within_swap | split; [apply length_swap |]].
    intros r. rewrite val_swap. positions.
  - split; [apply within_refl | split; reflexivity].
Qed.

(** The pivot lands between what is not above it and what is not below. *)
Lemma partition_spec (pl pr : nat) (a : list nat) :
  pl + 2 <= pr -> pr < List.length a ->
  let r := partition v pl pr a in
  within pl pr a (snd r)
  /\ pl < fst r < pr
  /\ (forall p, pl <= p < fst r -> (val v (snd r) p <= val v (snd r) (fst r))%Q)
  /\ (forall p, fst r < p <= pr -> (val v (snd r) (fst r) <= val v (snd r) p)%Q).
Proof.
  intros Hsize Hlen. unfold partition.
  pose proof (half_spec (pr - pl)) as Hhalf.
  set (pm := pl + (pr - pl) / 2).
  assert (Hpm : pl < pm < pr) by (unfold pm; lia).
  set (b1 := Qltb (val v a pm) (val v a pl)).
  destruct (swap_if_spec b1 pl pr pm pl a) as (W1 & L1 & V1); [lia | lia | lia |].
  set (a1 := swap_if b1 pm pl a) in *.
  set (b2 := Qltb (val v a1 pr) (val v a1 pm)).
  destruct (swap_if_spec b2 pl pr pr pm a1) as (W2 & L2 & V2); [lia | lia | lia |].
  set (a2 := swap_if b2 pr pm a1) in *.
  set (b3 := Qltb (val v a2 pm) (val v a2 pl)).
  destruct (swap_if_spec b3 pl pr pm pl a2) as (W3 & L3 & V3); [lia | lia | lia |].
  set (a3 := swap_if b3 pm pl a2) in *.
  assert (Hmed : (val v a3 pl <= val v a3 pm)%Q /\ (val v a3 pm <= val v a3 pr)%Q).
  { pose proof (V3 pl) as E3l. pose proof (V3 pm) as E3m. pose proof (V3 pr) as E3r.
    pose proof (V2 pl) as E2l. pose proof (V2 pm) as E2m. pose proof (V2 pr) as E2r.
    pose proof (V1 pl) as E1l. pose proof (V1 pm) as E1m. pose proof (V1 pr) as E1r.
    rewrite Nat.eqb_refl in *.
    replace (pl =? pm) with false in * by (symmetry; apply Nat.eqb_neq; lia).
    replace (pm =? pl) with false in * by (symmetry; apply Nat.eqb_neq; lia).
    replace (pr =? pm) with false in * by (symmetry; apply Nat.eqb_neq; lia).
    replace (pm =? pr) with false in * by (symmetry; apply Nat.eqb_neq; lia).
    replace (pr =? pl) with false in * by (symmetry; apply Nat.eqb_neq; lia).
    replace (pl =? pr) with false in * by (symmetry; apply Nat.eqb_neq; lia).
    assert (T1 : if b1 then (val v a pm < val v a pl)%Q else (val v a pl <= val v a pm)%Q).
    { unfold b1. destruct (Qltb (val v a pm) (val v a pl)) eqn:E;
        [now apply Qltb_true | now apply Qltb_false]. }
    assert (T2 : if b2 then (val v a1 pr < val v a1 pm)%Q
                 else (val v a1 pm <= val v a1 pr)%Q).
    { unfold b2. destruct (Qltb (val v a1 pr) (val v a1 pm)) eqn:E;
        [now apply Qltb_true | now apply Qltb_false]. }
    assert (T3 : if b3 then (val v a2 pm < val v a2 pl)%Q
                 else (val v a2 pl <= val v a2 pm)%Q).
    { unfold b3. destruct (Qltb (val v a2 pm) (val v a2 pl)) eqn:E;
        [now apply Qltb_true | now apply Qltb_false]. }
    clearbody b1 b2 b3 a1 a2 a3.
    destruct b1, b2, b3; rewrite E3l, E3m, E3r, ?E2l, ?E2m, ?E2r;
      rewrite ?E2l, ?E2m, ?E2r in T3; rewrite ?E1l, ?E1m, ?E1r in *; split; lra. }
  destruct Hmed as [Hlo Hhi].
  set (vp := val v a3 pm) in *.
  assert (LA3 : List.length a3 = List.length a) by congruence.
  assert (WA3 : within pl pr a a3).
  { apply within_trans with a2; [| exact W3].
    apply within_trans with a1; [exact W1 | exact W2]. }
  set (a4 := swap pm (pr - 1) a3).
  assert (V4 : forall p, val v a4 p
                         = if p =? pr - 1 then val v a3 pm
                           else if p =? pm then val v a3 (pr - 1) else val v a3 p).
  { intros p. unfold a4. rewrite val_swap. positions. }
  assert (LA4 : List.length a4 = List.length a)
    by (unfold a4; now rewrite length_swap).
  replace (List.length a) with (List.length a4) by exact LA4.
  destruct (exchange_spec pl pr vp a (List.length a4) pl (pr - 1) a4)
    as (R1 & R2 & R3 & R4 & R5).
  - lia.
  - lia.
  - lia.
  - lia.
  - lia.
  - apply within_trans with a3; [exact WA3 |].
    unfold a4. apply within_swap; lia.
  - rewrite V4. now rewrite Nat.eqb_refl.
  - intros p Hp. assert (p = pl) by lia. subst p. rewrite V4.
    destruct (Nat.eqb_spec pl (pr - 1)); [lia |].
    destruct (Nat.eqb_spec pl pm); [lia | exact Hlo].
  - intros p Hp. rewrite V4.
    destruct (Nat.eqb_spec p (pr - 1)); [apply Qle_refl |].
    destruct (Nat.eqb_spec p pm); [lia |].
    assert (p = pr) by lia. subst p. exact Hhi.
  - destruct (exchange v (List.length a4) pl (pr - 1) vp a4) as [pi a5].
    cbn [fst snd] in *.
    assert (L5 : List.length a5 = List.length a) by (destruct R1 as [L _]; congruence).
    assert (V6 : forall p, val v (swap pi (pr - 1) a5) p
                           = if p =? pr - 1 then val v a5 pi
                             else if p =? pi then val v a5 (pr - 1) else val v a5 p).
    { intros p. rewrite val_swap. positions. }
    split; [| split; [lia | split]].
    + apply within_trans with a5; [exact R1 |]. apply within_swap; lia.
    + intros p Hp. rewrite !V6.
      destruct (Nat.eqb_spec p (pr - 1)); [lia |].
      destruct (Nat.eqb_spec p pi); [lia |].
      destruct (Nat.eqb_spec pi (pr - 1)) as [He | Hne].
      * rewrite He, R3. apply R4. lia.
      * rewrite Nat.eqb_refl, R3. apply R4. lia.
    + intros p Hp. rewrite !V6.
      destruct (Nat.eqb_spec pi (pr - 1)) as [He | Hne].
      * rewrite He, R3. destruct (Nat.eqb_spec p (pr - 1)); [lia |].
        apply R5. lia.
      * rewrite Nat.eqb_refl, R3.
        destruct (Nat.eqb_spec p (pr - 1)); [apply R5; lia |].
        destruct (Nat.eqb_spec p pi); [lia | apply R5; lia].
Qed.

(** *** Heap sort of a range *)

Lemma sift_done (base lo n i : nat) (C : list nat) :
  (forall k, k <= n -> lo <= k / 2 -> k / 2 <> i -> k <> i ->
     (val v C (cell base k) <= val v C (cell base (k / 2)))%Q) ->
  (lo <= i / 2 -> (val v C (cell base i) <= val v C (cell base (i / 2)))%Q) ->
  (forall k, k <= n -> k / 2 = i ->
     (val v C (cell base k) <= val v C (cell base i))%Q) ->
  heap v base lo n C.
Proof.
  intros J1 J2 J3 k Hk Hlo.
  destruct (Nat.eq_dec (k / 2) i) as [E | E]; [rewrite E; now apply J3 |].
  destruct (Nat.eq_dec k i) as [-> | E']; [now apply J2 | now apply J1].
Qed.

Lemma sift_spec (base lo n tmp : nat) (a0 : list nat) (fuel : nat) :
  forall (i : nat) (a : list nat),
    1 <= lo -> lo <= i -> i <= n -> cell base n < List.length a -> n - i <= fuel ->
    within (cell base 1) (cell base n) a0 (set_nth (cell base i) tmp a) ->
    (forall k, k <= n -> lo <= k / 2 -> k / 2 <> i -> k <> i ->
       (val v (set_nth (cell base i) tmp a) (cell base k)
        <= val v (set_nth (cell base i) tmp a) (cell base (k / 2)))%Q) ->
    (lo <= i / 2 ->
       (val v (set_nth (cell base i) tmp a) (cell base i)
        <= val v (set_nth (cell base i) tmp a) (cell base (i / 2)))%Q) ->
    (lo <= i / 2 -> forall k, k <= n -> k / 2 = i ->
       (val v (set_nth (cell base i) tmp a) (cell base k)
        <= val v (set_nth (cell base i) tmp a) (cell base (i / 2)))%Q) ->
    within (cell base 1) (cell base n) a0 (sift v fuel base tmp i (i + i) n a)
    /\ heap v base lo n (sift v fuel base tmp i (i + i) n a).
Proof.
  induction fuel as [| f IH]; intros i a Hlo Hi Hn Hlen Hfuel Hw J1 J2 J3.
  - cbn [sift]. split; [exact Hw |].
    apply (sift_done base lo n i); [exact J1 | exact J2 |].
    intros k Hk Hk2. pose proof (half_spec k). lia.
  - cbn [sift]. set (C := set_nth (cell base i) tmp a) in *.
    assert (Hhole : val v C (cell base i) = nth tmp v 0%Q).
    { unfold C. rewrite val_set_nth. unfold cell in *. positions. }
    assert (Hread : forall k, k <> i -> 1 <= k -> val v a (cell base k) = val v C (cell base k)).
    { intros k Hk Hk1. unfold C. rewrite val_set_nth. unfold cell in *. positions. }
    destruct (Nat.leb_spec (i + i) n) as [Hchild | Hnone].
    2:{ split; [exact Hw |].
        apply (sift_done base lo n i); [exact J1 | exact J2 |].
        intros k Hk Hk2. pose proof (half_spec k). lia. }
    set (j := i + i) in *.
    set (j' := if (j <? n) && Qltb (val v a (cell base j)) (val v a (cell base (S j)))
               then S j else j).
    assert (Hj' : (j' = j \/ j' = S j) /\ j' <= n
                  /\ forall k, k <= n -> k / 2 = i ->
                       (val v C (cell base k) <= val v C (cell base j'))%Q).
    { unfold j'.
      destruct ((j <? n) && Qltb (val v a (cell base j)) (val v a (cell base (S j)))) eqn:E.
      - apply andb_prop in E. destruct E as [E1 E2].
        apply Nat.ltb_lt in E1. apply Qltb_true in E2.
        rewrite !Hread in E2 by lia.
        split; [now right | split; [lia |]].
        intros k Hk Hk2. pose proof (half_spec k).
        assert (Hkk : k = j \/ k = S j) by lia.
        destruct Hkk as [-> | ->]; [now apply Qlt_le_weak | apply Qle_refl].
      - split; [now left | split; [exact Hchild |]].
        intros k Hk Hk2. pose proof (half_spec k).
        assert (Hkk : k = j \/ k = S j) by lia.
        destruct Hkk as [-> | ->]; [apply Qle_refl |].
        apply andb_false_iff in E. destruct E as [E | E].
        + apply Nat.ltb_ge in E. lia.
        + apply Qltb_false in E. rewrite !Hread in E by lia. exact E. }
    destruct Hj' as (Hjj & Hjn & Hbig). clearbody j'.
    pose proof (half_spec j') as Hhalf.
    assert (Hpar : j' / 2 = i) by lia.
    rewrite (Hread j') by lia.
    destruct (Qltb (nth tmp v 0%Q) (val v C (cell base j'))) eqn:E.
    + apply Qltb_true in E.
      assert (HC : set_nth (cell base j') tmp
                     (set_nth (cell base i) (nth (cell base j') a 0) a)
                   = swap (cell base i) (cell base j') C).
      { apply (nth_ext _ _ 0 0);
          [unfold C; now rewrite length_swap, !length_set_nth |].
        intros r _. unfold C, cell in *. array. }
      assert (HV : forall k, 1 <= k ->
                   val v (swap (cell base i) (cell base j') C) (cell base k)
                   = if k =? j' then val v C (cell base i)
                     else if k =? i then val v C (cell base j')
                     else val v C (cell base k)).
      { intros k Hk. rewrite val_swap. unfold C. rewrite length_set_nth.
        unfold cell in *. positions. }
      assert (LC : List.length C = List.length a) by (unfold C; apply length_set_nth).
      apply IH.
      * exact Hlo.
      * lia.
      * exact Hjn.
      * now rewrite length_set_nth.
      * lia.
      * rewrite HC. apply (within_trans _ _ _ _ _ Hw).
        apply within_swap; unfold cell in *; lia.
      * rewrite HC. intros k Hk Hk2 Hne2 Hne. pose proof (half_spec k).
        rewrite !HV by lia.
        destruct (Nat.eqb_spec k j'); [lia |].
        destruct (Nat.eqb_spec (k / 2) j'); [lia |].
        destruct (Nat.eqb_spec k i) as [-> | Hki].
        -- destruct (Nat.eqb_spec (i / 2) i); [lia |].
           apply J3; [lia | exact Hjn | exact Hpar].
        -- destruct (Nat.eqb_spec (k / 2) i) as [Ek | Ek].
           ++ now apply Hbig.
           ++ now apply J1.
      * rewrite HC. intros _. rewrite Hpar, !HV by lia.
        rewrite Nat.eqb_refl.
        destruct (Nat.eqb_spec i j'); [lia |]. rewrite Nat.eqb_refl.
        rewrite Hhole. now apply Qlt_le_weak.
      * rewrite HC. intros _ k Hk Hk2. pose proof (half_spec k).
        rewrite Hpar, !HV by lia.
        destruct (Nat.eqb_spec k j'); [lia |].
        destruct (Nat.eqb_spec k i); [lia |].
        destruct (Nat.eqb_spec i j'); [lia |]. rewrite Nat.eqb_refl.
        rewrite <- Hk2. apply J1; lia.
    + apply Qltb_false in E. split; [exact Hw |].
      apply (sift_done base lo n i); [exact J1 | exact J2 |].
      intros k Hk Hk2. rewrite Hhole.
      apply Qle_trans with (val v C (cell base j')); [now apply Hbig | exact E].
Qed.

Lemma root_max (base m : nat) (a : list nat) :
  heap v base 1 m a ->
  forall k, 1 <= k <= m -> (val v a (cell base k) <= val v a (cell base 1))%Q.
Proof.
  intros Hheap k. induction k as [k IH] using lt_wf_ind. intros Hk.
  destruct (Nat.eq_dec k 1) as [-> | Hne]; [apply Qle_refl |].
  pose proof (half_spec k) as Hhalf.
  apply Qle_trans with (val v a (cell base (k / 2))).
  - apply Hheap; lia.
  - apply IH; lia.
Qed.

Lemma heapify_steps (base n : nat) (h : nat) :
  forall a : list nat,
    h <= n / 2 -> cell base n < List.length a -> heap v base (h + 1) n a ->
    let R := fold_left (fun a l => sift v n base (nth (cell base l) a 0) l (l + l) n a)
                       (rev (seq 1 h)) a in
    within (cell base 1) (cell base n) a R /\ heap v base 1 n R.
Proof.
  induction h as [| h IH]; intros a Hh Hlen Hheap.
  - cbn [seq rev fold_left]. split; [apply within_refl | exact Hheap].
  - rewrite seq_S, rev_app_distr. cbn [rev app fold_left].
    pose proof (half_spec n) as Hn. pose proof (half_spec (1 + h)) as Hh'.
    assert (HC : set_nth (cell base (1 + h)) (nth (cell base (1 + h)) a 0) a = a).
    { apply (nth_ext _ _ 0 0); [apply length_set_nth |]. intros r _. array. }
    destruct (sift_spec base (1 + h) n (nth (cell base (1 + h)) a 0) a n (1 + h) a)
      as [Hw Hheap'].
    + lia.
    + lia.
    + lia.
    + exact Hlen.
    + lia.
    + rewrite HC. apply within_refl.
    + rewrite HC. intros k Hk Hk2 Hne2 Hne. apply Hheap; lia.
    + intros H. lia.
    + intros H. lia.
    + destruct (IH (sift v n base (nth (cell base (1 + h)) a 0) (1 + h)
                       (1 + h + (1 + h)) n a)) as [Hw2 Hheap2].
      * lia.
      * destruct Hw as [L _]. now rewrite L.
      * replace (h + 1) with (1 + h) by lia. exact Hheap'.
      * split; [| exact Hheap2]. apply (within_trans _ _ _ _ _ Hw Hw2).
Qed.

Lemma heapify_spec (base n : nat) (a : list nat) :
  cell base n < List.length a ->
  within (cell base 1) (cell base n) a (heapify v base n a)
  /\ heap v base 1 n (heapify v base n a).
Proof.
  intros Hlen. unfold heapify. apply heapify_steps; [lia | exact Hlen |].
  intros k Hk Hk2. pose proof (half_spec n). pose proof (half_spec k). lia.
Qed.

Lemma extract_spec (base nmax m : nat) (a : list nat) :
  2 <= m <= nmax -> cell base nmax < List.length a ->
  heap v base 1 m a ->
  (forall p q, base <= p < base + m -> base + m <= q < base + nmax ->
               (val v a p <= val v a q)%Q) ->
  ordered v a (base + m) (base + nmax - 1) ->
  let R := extract v base a m in
  within base (base + nmax - 1) a R
  /\ heap v base 1 (m - 1) R
  /\ (forall p q, base <= p < base + (m - 1) -> base + (m - 1) <= q < base + nmax ->
                  (val v R p <= val v R q)%Q)
  /\ ordered v R (base + (m - 1)) (base + nmax - 1).
Proof.
  intros Hm Hlen Hheap Hsplit Hord. unfold extract.
  set (tmp := nth (cell base m) a 0).
  set (a' := set_nth (cell base m) (nth (cell base 1) a 0) a).
  set (C := swap (cell base 1) (cell base m) a).
  assert (HC : set_nth (cell base 1) tmp a' = C).
  { apply (nth_ext _ _ 0 0);
      [unfold C, a'; now rewrite length_swap, !length_set_nth |].
    intros r _. unfold C, a', tmp, cell in *. array. }
  assert (HV : forall p, val v C p
                         = if p =? cell base m then val v a (cell base 1)
                           else if p =? cell base 1 then val v a (cell base m)
                           else val v a p).
  { intros p. unfold C. rewrite val_swap. unfold cell in *. positions. }
  assert (La' : List.length a' = List.length a) by (unfold a'; apply length_set_nth).
  assert (LC : List.length C = List.length a) by (unfold C; apply length_swap).
  assert (WC : within base (base + nmax - 1) a C).
  { unfold C. apply within_swap; unfold cell in *; lia. }
  pose proof (half_spec 1) as H1.
  destruct (sift_spec base 1 (m - 1) tmp C m 1 a') as [Hw Hheap'].
  - lia.
  - lia.
  - lia.
  - rewrite La'. unfold cell in *. lia.
  - lia.
  - rewrite HC. apply within_refl.
  - rewrite HC. intros k Hk Hk2 Hne2 Hne. pose proof (half_spec k).
    rewrite !HV. unfold cell in *.
    destruct (Nat.eqb_spec (base + k - 1) (base + m - 1)); [lia |].
    destruct (Nat.eqb_spec (base + k - 1) (base + 1 - 1)); [lia |].
    destruct (Nat.eqb_spec (base + k / 2 - 1) (base + m - 1)); [lia |].
    destruct (Nat.eqb_spec (base + k / 2 - 1) (base + 1 - 1)); [lia |].
    apply (Hheap k); lia.
  - intros H. lia.
  - intros H. lia.
  - change (1 + 1) with 2 in Hw, Hheap'.
    set (R := sift v m base tmp 1 2 (m - 1) a') in *.
    assert (Hfrom : forall p, base <= p < base + m ->
                     exists p', base <= p' < base + m /\ val v C p = val v a p').
    { intros p Hp. rewrite HV. unfold cell.
      destruct (Nat.eqb_spec p (base + m - 1)); [exists base; split; [lia |] |].
      - now replace (base + 1 - 1) with base by lia.
      - destruct (Nat.eqb_spec p (base + 1 - 1)).
        + exists (base + m - 1). split; [lia | reflexivity].
        + exists p. split; [lia | reflexivity]. }
    assert (Hroot : forall p, base <= p < base + m ->
                     (val v a p <= val v a (cell base 1))%Q).
    { intros p Hp. replace p with (cell base (p - base + 1)) by (unfold cell; lia).
      apply (root_max base m a Hheap). lia. }
    assert (Hout : forall q, base + (m - 1) <= q -> val v R q = val v C q).
    { intros q Hq. apply (within_val_out _ _ _ _ _ Hw). unfold cell. lia. }
    assert (Hin : forall p, base <= p < base + (m - 1) ->
                   exists p', base <= p' < base + m /\ val v R p = val v a p').
    { intros p Hp.
      destruct (within_val (cell base 1) (cell base (m - 1)) C R p Hw) as (p1 & Hp1 & E1);
        [unfold cell; lia |].
      destruct (Hfrom p1) as (p2 & Hp2 & E2); [unfold cell in *; lia |].
      exists p2. split; [exact Hp2 | congruence]. }
    split; [| split; [exact Hheap' | split]].
    + apply (within_trans _ _ _ _ _ WC).
      apply (within_mono (cell base 1) (cell base (m - 1))); [| | exact Hw];
        unfold cell; lia.
    + intros p q Hp Hq. destruct (Hin p Hp) as (p' & Hp' & ->).
      rewrite (Hout q) by lia. rewrite HV. unfold cell.
      destruct (Nat.eqb_spec q (base + m - 1)).
      * apply Hroot. lia.
      * destruct (Nat.eqb_spec q (base + 1 - 1)); [lia |]. apply Hsplit; lia.
    + intros p q Hp Hpq Hq. rewrite (Hout p), (Hout q) by lia. rewrite !HV.
      unfold cell.
      destruct (Nat.eqb_spec q (base + m - 1)); [lia |].
      destruct (Nat.eqb_spec q (base + 1 - 1)); [lia |].
      destruct (Nat.eqb_spec p (base + m - 1)).
      * replace (base + 1 - 1) with base by lia. apply Hsplit; lia.
      * destruct (Nat.eqb_spec p (base + 1 - 1)); [lia |]. apply Hord; lia.
Qed.

Lemma extract_steps (base nmax : nat) (c : nat) :
  forall a : list nat,
    c + 1 <= nmax -> cell base nmax < List.length a ->
    heap v base 1 (c + 1) a ->
    (forall p q, base <= p < base + (c + 1) -> base + (c + 1) <= q < base + nmax ->
                 (val v a p <= val v a q)%Q) ->
    ordered v a (base + (c + 1)) (base + nmax - 1) ->
    let R := fold_left (extract v base) (rev (seq 2 c)) a in
    within base (base + nmax - 1) a R /\ ordered v R base (base + nmax - 1).
Proof.
  induction c as [| c IH]; intros a Hc Hlen Hheap Hsplit Hord.
  - cbn [seq rev fold_left]. split; [apply within_refl |].
    intros p q Hp Hpq Hq. destruct (Nat.eq_dec p base) as [-> | Hne].
    + apply Hsplit; lia.
    + apply Hord; lia.
  - rewrite seq_S, rev_app_distr. cbn [rev app fold_left].
    destruct (extract_spec base nmax (2 + c) a) as (Hw & Hheap' & Hsplit' & Hord').
    + lia.
    + exact Hlen.
    + now replace (2 + c) with (S c + 1) by lia.
    + replace (2 + c) with (S c + 1) by lia. exact Hsplit.
    + replace (2 + c) with (S c + 1) by lia. exact Hord.
    + replace (2 + c - 1) with (c + 1) in * by lia.
      destruct (IH (extract v base a (2 + c))) as [Hw2 Hord2].
      * lia.
      * destruct Hw as [L _]. now rewrite L.
      * exact Hheap'.
      * exact Hsplit'.
      * exact Hord'.
      * split; [apply (within_trans _ _ _ _ _ Hw Hw2) | exact Hord2].
Qed.

Lemma heapsort_spec (base n : nat) (a : list nat) :
  (2 <= n -> base + n <= List.length a) ->
  within base (base + n - 1) a (heapsort v base n a)
  /\ ordered v (heapsort v base n a) base (base + n - 1).
Proof.
  intros Hlen. unfold heapsort.
  destruct (Nat.lt_ge_cases n 2) as [Hsmall | Hbig].
  - assert (Hn : n = 0 \/ n = 1) by lia.
    destruct Hn as [-> | ->]; cbn; (split; [apply within_refl |]);
      intros p q Hp Hpq Hq; lia.
  - assert (Hc : cell base n < List.length a) by (unfold cell; specialize (Hlen Hbig); lia).
    destruct (heapify_spec base n a Hc) as [Hw Hheap].
    destruct (extract_steps base n (n - 1) (heapify v base n a)) as [Hw2 Hord].
    + lia.
    + destruct Hw as [L _]. now rewrite L.
    + now replace (n - 1 + 1) with n by lia.
    + intros p q Hp Hq. lia.
    + intros p q Hp Hpq Hq. lia.
    + split; [| exact Hord].
      apply within_trans with (heapify v base n a); [| exact Hw2].
      apply (within_mono (cell base 1) (cell base n)); [| | exact Hw]; unfold cell; lia.
Qed.

(** *** The driver *)

Lemma within_positions (n pl pr : nat) (a a' : list nat) :
  positions n a -> within pl pr a a' -> positions n a'.
Proof.
  intros (L & ND & B) (L' & O & I & N).
  split; [congruence | split; [auto |]].
  rewrite Forall_forall in B |- *. intros x Hx.
  destruct (In_nth _ _ 0 Hx) as (p & Hp & <-).
  destruct (Nat.lt_ge_cases p pl) as [H | H];
    [rewrite O by lia; apply B, nth_In; lia |].
  destruct (Nat.lt_ge_cases pr p) as [H' | H'];
    [rewrite O by lia; apply B, nth_In; lia |].
  destruct (I p (conj H H')) as (k & Hk & ->).
  destruct (Nat.lt_ge_cases k (List.length a)) as [Hin | Hout].
  - now apply B, nth_In.
  - rewrite nth_overflow by lia. lia.
Qed.

Lemma introsort_step (f pl pr : nat) (cdepth : Z) (stack : list (nat * nat * Z))
    (a : list nat) :
  introsort v (S f) pl pr cdepth stack a
  = if 16 <? pr - pl then
      if fst (partition v pl pr a) - pl <? pr - fst (partition v pl pr a)
      then introsort v f pl (fst (partition v pl pr a) - 1) (cdepth - 1)
             ((fst (partition v pl pr a) + 1, pr, (cdepth - 1)%Z) :: stack)
             (snd (partition v pl pr a))
      else introsort v f (fst (partition v pl pr a) + 1) pr (cdepth - 1)
             ((pl, fst (partition v pl pr a) - 1, (cdepth - 1)%Z) :: stack)
             (snd (partition v pl pr a))
    else resume v f stack (insertion_sort v pl pr a).
Proof.
  cbn [introsort]. destruct (16 <? pr - pl); [| reflexivity].
  destruct (partition v pl pr a) as [pi a']. reflexivity.
Qed.

Lemma resume_step (f : nat) (stack : list (nat * nat * Z)) (a : list nat) :
  resume v (S f) stack a
  = match stack with
    | [] => a
    | (pl, pr, cdepth) :: stack' =>
        if (cdepth <? 0)%Z
        then resume v f stack' (heapsort v pl (pr - pl + 1) a)
        else introsort v f pl pr cdepth stack' a
    end.
Proof.
  reflexivity.
Qed.

Lemma settled_core (n pl pr : nat) (rs : list (nat * nat)) (a a' : list nat) :
  settled v n ((pl, pr) :: rs) a -> Forall (apart (pl, pr)) rs ->
  (pl < pr -> pr < n) -> within pl pr a a' ->
  forall i j, i < j -> j < n -> ~ (pl <= i /\ j <= pr) ->
    (val v a' i <= val v a' j)%Q \/ Exists (fun r => fst r <= i /\ j <= snd r) rs.
Proof.
  intros Hs Hap Hfit Hw i j Hij Hj Hnot.
  assert (Hclash : forall k r, pl <= k <= pr -> In r rs -> fst r <= k <= snd r -> False).
  { intros k r Hk Hr Hkr. rewrite Forall_forall in Hap.
    apply (Hap r Hr k). cbn [fst snd]. split; assumption. }
  destruct (Nat.lt_ge_cases i pl) as [Hil | Hil].
  - (* [i] to the left of the range *)
    rewrite (within_val_out _ _ _ _ i Hw) by lia.
    destruct (Nat.lt_ge_cases j pl) as [Hjl | Hjl];
      [| destruct (Nat.lt_ge_cases pr j) as [Hjr | Hjr]].
    + rewrite (within_val_out _ _ _ _ j Hw) by lia.
      destruct (Hs i j Hij Hj) as [H | H]; [now left |].
      apply Exists_cons in H. destruct H as [H | H]; [cbn in H; lia | now right].
    + rewrite (within_val_out _ _ _ _ j Hw) by lia.
      destruct (Hs i j Hij Hj) as [H | H]; [now left |].
      apply Exists_cons in H. destruct H as [H | H]; [cbn in H; lia | now right].
    + destruct (within_val pl pr a a' j Hw) as (k & Hk & ->); [lia |].
      destruct (Hs i k) as [H | H]; [lia | lia | now left |].
      apply Exists_cons in H. destruct H as [H | H]; [cbn in H; lia |].
      apply Exists_exists in H. destruct H as (r & Hr & Hir).
      exfalso. apply (Hclash k r); [lia | exact Hr | lia].
  - (* [i] in the range, so [j] to its right *)
    assert (Hjr : pr < j) by lia.
    rewrite (within_val_out _ _ _ _ j Hw) by lia.
    destruct (Nat.lt_ge_cases pr i) as [Hir | Hir].
    + rewrite (within_val_out _ _ _ _ i Hw) by lia.
      destruct (Hs i j Hij Hj) as [H | H]; [now left |].
      apply Exists_cons in H. destruct H as [H | H]; [cbn in H; lia | now right].
    + destruct (within_val pl pr a a' i Hw) as (k & Hk & ->); [lia |].
      destruct (Hs k j) as [H | H]; [lia | lia | now left |].
      apply Exists_cons in H. destruct H as [H | H]; [cbn in H; lia |].
      apply Exists_exists in H. destruct H as (r & Hr & Hkr).
      exfalso. apply (Hclash k r); [lia | exact Hr | lia].
Qed.

Lemma settled_done (n pl pr : nat) (rs : list (nat * nat)) (a a' : list nat) :
  settled v n ((pl, pr) :: rs) a -> Forall (apart (pl, pr)) rs ->
  (pl < pr -> pr < n) -> within pl pr a a' -> ordered v a' pl pr ->
  settled v n rs a'.
Proof.
  intros Hs Hap Hfit Hw Hord i j Hij Hj.
  destruct (Nat.lt_ge_cases i pl) as [Hil | Hil];
    [apply (settled_core n pl pr rs a a'); try assumption; lia |].
  destruct (Nat.lt_ge_cases pr j) as [Hjr | Hjr];
    [apply (settled_core n pl pr rs a a'); try assumption; lia |].
  left. apply Hord; lia.
Qed.

Lemma settled_split (n pl pr pi : nat) (rs : list (nat * nat)) (a a' : list nat) :
  settled v n ((pl, pr) :: rs) a -> Forall (apart (pl, pr)) rs ->
  (pl < pr -> pr < n) -> within pl pr a a' -> pl < pi < pr ->
  (forall p, pl <= p < pi -> (val v a' p <= val v a' pi)%Q) ->
  (forall p, pi < p <= pr -> (val v a' pi <= val v a' p)%Q) ->
  settled v n ((pl, pi - 1) :: (pi + 1, pr) :: rs) a'.
Proof.
  intros Hs Hap Hfit Hw Hpi Hleft Hright i j Hij Hj.
  assert (Hout : ~ (pl <= i /\ j <= pr) ->
                 (val v a' i <= val v a' j)%Q
                 \/ Exists (fun r => fst r <= i /\ j <= snd r)
                      ((pl, pi - 1) :: (pi + 1, pr) :: rs)).
  { intros Hnot.
    destruct (settled_core n pl pr rs a a' Hs Hap Hfit Hw i j Hij Hj Hnot) as [H | H];
      [now left | right; now do 2 apply Exists_cons_tl]. }
  destruct (Nat.lt_ge_cases i pl) as [Hil | Hil]; [apply Hout; lia |].
  destruct (Nat.lt_ge_cases pr j) as [Hjr | Hjr]; [apply Hout; lia |].
  destruct (Nat.lt_ge_cases j pi) as [Hjp | Hjp].
  - right. apply Exists_cons_hd. cbn [fst snd]. lia.
  - destruct (Nat.lt_ge_cases pi i) as [Hip | Hip].
    + right. apply Exists_cons_tl, Exists_cons_hd. cbn [fst snd]. lia.
    + left. destruct (Nat.eq_dec i pi) as [-> | Hne]; [apply Hright; lia |].
      destruct (Nat.eq_dec j pi) as [-> | Hne']; [apply Hleft; lia |].
      apply Qle_trans with (val v a' pi); [apply Hleft | apply Hright]; lia.
Qed.

Lemma apart_sub (pl pr pl' pr' : nat) (rs : list (nat * nat)) :
  pl <= pl' -> pr' <= pr -> Forall (apart (pl, pr)) rs -> Forall (apart (pl', pr')) rs.
Proof.
  intros Hl Hr. apply Forall_impl. intros r H p [H1 H2].
  apply (H p). cbn [fst snd] in *. lia.
Qed.

(** With fuel for every pending cell the driver ends with all cells in
    order. *)
Lemma driver (n fuel : nat) :
  (forall pl pr cdepth stack a,
     positions n a ->
     fits n ((pl, pr) :: ranges stack) -> disjoint ((pl, pr) :: ranges stack) ->
     settled v n ((pl, pr) :: ranges stack) a ->
     3 * span pl pr + 1 + cost stack <= fuel ->
     positions n (introsort v fuel pl pr cdepth stack a)
     /\ settled v n [] (introsort v fuel pl pr cdepth stack a))
  /\ (forall stack a,
     positions n a -> fits n (ranges stack) -> disjoint (ranges stack) ->
     settled v n (ranges stack) a -> cost stack <= fuel ->
     positions n (resume v fuel stack a)
     /\ settled v n [] (resume v fuel stack a)).
Proof.
  induction fuel as [| f [IHi IHr]].
  - split; [intros; lia |].
    intros [| [[pl pr] cd] stack] a Hpos _ _ Hs Hcost; [| cbn [cost] in Hcost; lia].
    split; [exact Hpos | exact Hs].
  - split.
    + intros pl pr cd stack a Hpos Hfit Hdis Hs Hcost. rewrite introsort_step.
      inversion Hfit as [| ? ? Hfit1 Hfit2]; subst. cbn [fst snd] in Hfit1.
      destruct Hdis as [Hap Hdis].
      assert (Hlen : List.length a = n) by apply Hpos.
      destruct (Nat.ltb_spec 16 (pr - pl)) as [Hbig | Hsmall].
      * destruct (partition_spec pl pr a) as (Hw & Hpi & Hleft & Hright); [lia | lia |].
        set (pi := fst (partition v pl pr a)) in *.
        set (a' := snd (partition v pl pr a)) in *.
        assert (Hpos' : positions n a') by (apply (within_positions n pl pr a); assumption).
        assert (Hs' : settled v n ((pl, pi - 1) :: (pi + 1, pr) :: ranges stack) a').
        { apply (settled_split n pl pr pi _ a a'); try assumption. }
        destruct (Nat.ltb_spec (pi - pl) (pr - pi)) as [Hless | Hmore].
        -- apply IHi.
           ++ exact Hpos'.
           ++ cbn [ranges map fst]. constructor; [cbn [fst snd]; lia |].
              constructor; [cbn [fst snd]; lia | exact Hfit2].
           ++ cbn [ranges map fst disjoint]. split; [| split; [| exact Hdis]].
              ** constructor; [intros p; cbn [fst snd]; lia |].
                 apply (apart_sub pl pr); [lia | lia | exact Hap].
              ** apply (apart_sub pl pr); [lia | lia | exact Hap].
           ++ exact Hs'.
           ++ cbn [cost]. unfold span in *. lia.
        -- apply IHi.
           ++ exact Hpos'.
           ++ cbn [ranges map fst]. constructor; [cbn [fst snd]; lia |].
              constructor; [cbn [fst snd]; lia | exact Hfit2].
           ++ cbn [ranges map fst disjoint]. split; [| split; [| exact Hdis]].
              ** constructor; [intros p; cbn [fst snd]; lia |].
                 apply (apart_sub pl pr); [lia | lia | exact Hap].
              ** apply (apart_sub pl pr); [lia | lia | exact Hap].
           ++ intros i j Hij Hj. destruct (Hs' i j Hij Hj) as [H | H]; [now left |].
              right. apply Exists_cons in H. destruct H as [H | H].
              ** now apply Exists_cons_tl, Exists_cons_hd.
              ** apply Exists_cons in H. destruct H as [H | H].
                 --- now apply Exists_cons_hd.
                 --- now do 2 apply Exists_cons_tl.
           ++ cbn [cost]. unfold span in *. lia.
      * destruct (insertion_sort_spec pl pr a) as [Hw Hord]; [lia |].
        apply IHr.
        -- apply (within_positions n pl pr a); assumption.
        -- exact Hfit2.
        -- exact Hdis.
        -- apply (settled_done n pl pr _ a); assumption.
        -- lia.
    + intros [| [[pl pr] cd] stack] a Hpos Hfit Hdis Hs Hcost; rewrite resume_step.
      * split; [exact Hpos | exact Hs].
      * cbn [ranges map fst] in Hfit, Hdis, Hs. cbn [cost] in Hcost.
        destruct (cd <? 0)%Z.
        -- inversion Hfit as [| ? ? Hfit1 Hfit2]; subst. cbn [fst snd] in Hfit1.
           destruct Hdis as [Hap Hdis].
           assert (Hlen : List.length a = n) by apply Hpos.
           assert (Hheap : within pl pr a (heapsort v pl (pr - pl + 1) a)
                           /\ ordered v (heapsort v pl (pr - pl + 1) a) pl pr).
           { destruct (Nat.le_gt_cases pl pr) as [Hle | Hgt].
             - destruct (heapsort_spec pl (pr - pl + 1) a) as [Hw Hord]; [lia |].
               replace (pl + (pr - pl + 1) - 1) with pr in * by lia. now split.
             - replace (pr - pl + 1) with 1 by lia.
               split; [apply within_refl |]. intros i j Hi Hij Hj. lia. }
           destruct Hheap as [Hw Hord].
           apply IHr.
           ++ apply (within_positions n pl pr a); assumption.
           ++ exact Hfit2.
           ++ exact Hdis.
           ++ apply (settled_done n pl pr _ a); assumption.
           ++ lia.
        -- apply IHi; try assumption. lia.
Qed.

End RangeFacts.

Section DefaultKind.

Import Aggregation Kinds Sorting.

Local Open Scope nat_scope.

Lemma positions_seq (n : nat) : positions n (seq 0 n).
Proof.
  split; [apply length_seq | split; [apply seq_NoDup |]].
  apply Forall_forall. intros x Hx. apply in_seq in Hx. lia.
Qed.

Lemma positions_perm (n : nat) (a : list nat) :
  positions n a -> Permutation a (seq 0 n).
Proof.
  intros (L & ND & B). apply NoDup_Permutation_bis.
  - exact ND.
  - rewrite length_seq. lia.
  - intros x Hx. rewrite Forall_forall in B. apply in_seq. specialize (B x Hx). lia.
Qed.

Lemma settled_sorted (l : list Q) (a : list nat) :
  settled l (List.length a) [] a ->
  StronglySorted Qle (map (fun i => nth i l 0%Q) a).
Proof.
  induction a as [| x a IH]; intros Hs; [constructor |].
  cbn [map]. constructor.
  - apply IH. intros i j Hij Hj.
    destruct (Hs (S i) (S j)) as [H | H]; [lia | cbn [List.length]; lia | | inversion H].
    left. exact H.
  - apply Forall_forall. intros y Hy. apply in_map_iff in Hy.
    destruct Hy as (k & <- & Hk). destruct (In_nth _ _ 0 Hk) as (p & Hp & <-).
    destruct (Hs 0 (S p)) as [H | H]; [lia | cbn [List.length]; lia | | inversion H].
    exact H.
Qed.

Lemma quicksort_argsort_sorts (l : list Q) :
  positions (List.length l) (quicksort_argsort l)
  /\ settled l (List.length l) [] (quicksort_argsort l).
Proof.
  destruct l as [| x l'] eqn:El.
  - split; [apply (positions_seq 0) |]. intros i j Hij Hj. cbn in Hj. lia.
  - rewrite <- El. unfold quicksort_argsort.
    assert (Hn : 0 < List.length l) by (rewrite El; cbn; lia).
    set (n := List.length l) in *.
    apply (proj1 (driver l n (3 * n + 3))).
    + apply positions_seq.
    + constructor; [cbn [fst snd]; lia | constructor].
    + split; [constructor | exact I].
    + intros i j Hij Hj. right. apply Exists_cons_hd. cbn [fst snd]. lia.
    + cbn [cost]. unfold span. lia.
Qed.

End DefaultKind.

(** *** Up to seventeen values the default kind is stable *)

Section SmallStable.

Import Aggregation Kinds Sorting.

Variable v : list Q.
Variable f : nat -> bool.

Local Open Scope nat_scope.

Lemma swap_cons (x : nat) (a : list nat) (p q : nat) :
  swap (S p) (S q) (x :: a) = x :: swap p q a.
Proof.
  reflexivity.
Qed.

Lemma filter_swap_adjacent (p : nat) :
  forall a : list nat,
    S p < List.length a ->
    f (nth p a 0) = false \/ f (nth (S p) a 0) = false ->
    filter f (swap p (S p) a) = filter f a.
Proof.
  induction p as [| p IH]; intros a Hlen Hf.
  - destruct a as [| x [| y a]]; cbn [List.length] in Hlen; try lia.
    cbn [nth] in Hf. cbn [swap set_nth nth filter].
    destruct Hf as [Hf | Hf]; rewrite Hf; [| reflexivity].
    now destruct (f y).
  - destruct a as [| x a]; cbn [List.length] in Hlen; [lia |].
    cbn [nth] in Hf. rewrite swap_cons. cbn [filter].
    rewrite IH by (assumption || lia). reflexivity.
Qed.

Hypothesis f_value : forall i j, f i = true -> f j = true -> (nth i v 0 == nth j v 0)%Q.

Lemma shift_stable (pl vi : nat) (fuel : nat) :
  forall (pj : nat) (a : list nat),
    pj < List.length a ->
    let r := shift v fuel pj pl (nth vi v 0%Q) a in
    filter f (set_nth (fst r) vi (snd r)) = filter f (set_nth pj vi a).
Proof.
  induction fuel as [| fu IH]; intros pj a Hlen; [reflexivity |].
  cbn [shift].
  destruct ((pl <? pj) && Qltb (nth vi v 0%Q) (val v a (pj - 1))) eqn:E;
    [| reflexivity].
  apply andb_prop in E. destruct E as [E1 E2].
  apply Nat.ltb_lt in E1. apply Qltb_true in E2.
  assert (HC : set_nth (pj - 1) vi (set_nth pj (nth (pj - 1) a 0) a)
               = swap (pj - 1) pj (set_nth pj vi a)).
  { apply (nth_ext _ _ 0 0); [now rewrite length_swap, !length_set_nth |].
    intros r _. array. }
  cbv zeta in IH |- *. rewrite IH by (rewrite length_set_nth; lia).
  rewrite HC.
  pose proof (filter_swap_adjacent (pj - 1) (set_nth pj vi a)) as Hsw.
  replace (S (pj - 1)) with pj in Hsw by lia. apply Hsw.
  - rewrite length_set_nth. lia.
  - rewrite !nth_set_nth.
    replace ((pj - 1 =? pj) && (pj <? List.length a)) with false
      by (symmetry; positions).
    replace ((pj =? pj) && (pj <? List.length a)) with true
      by (symmetry; positions).
    destruct (f (nth (pj - 1) a 0)) eqn:F1; [| now left].
    destruct (f vi) eqn:F2; [| now right].
    exfalso. pose proof (f_value _ _ F1 F2) as He. unfold val in E2. lra.
Qed.

Lemma insert_one_stable (pl pi : nat) (a : list nat) :
  pi < List.length a -> filter f (insert_one v pl a pi) = filter f a.
Proof.
  intros Hpi. unfold insert_one.
  pose proof (shift_stable pl (nth pi a 0) pi pi a Hpi) as H. cbv zeta in H.
  destruct (shift v pi pi pl (nth (nth pi a 0) v 0%Q) a) as [pj a'].
  cbn [fst snd] in H. rewrite H. f_equal.
  apply (nth_ext _ _ 0 0); [apply length_set_nth |]. intros r _. array.
Qed.

Lemma insertion_prefix_stable (pl : nat) (a : list nat) (k : nat) :
  (0 < k -> pl + k < List.length a) ->
  filter f (fold_left (insert_one v pl) (seq (S pl) k) a) = filter f a.
Proof.
  induction k as [| k IH]; intros Hlen; [reflexivity |].
  rewrite seq_S, fold_left_app. cbn [fold_left].
  destruct (insertion_prefix v pl a k) as [[L _] _]; [lia |].
  rewrite insert_one_stable by (rewrite L; lia).
  apply IH. lia.
Qed.

End SmallStable.

Lemma quicksort_small (l : list Q) :
  (List.length l <= 17)%nat ->
  Kinds.quicksort_argsort l
  = Kinds.insertion_sort l 0 (List.length l - 1) (seq 0 (List.length l)).
Proof.
  intros Hlen. unfold Kinds.quicksort_argsort.
  replace (3 * List.length l + 3)%nat with (S (S (3 * List.length l + 1))) by lia.
  rewrite introsort_step.
  destruct (Nat.ltb_spec 16 (List.length l - 1 - 0)) as [H | H]; [lia |].
  now rewrite resume_step.
Qed.

(** Up to seventeen values, equal ones keep their order. *)
Lemma quicksort_small_stable (l : list Q) (w : Q) :
  (List.length l <= 17)%nat ->
  filter (fun i => Qeq_bool (nth i l 0%Q) w) (Kinds.quicksort_argsort l)
  = filter (fun i => Qeq_bool (nth i l 0%Q) w) (seq 0 (List.length l)).
Proof.
  intros Hlen. rewrite quicksort_small by exact Hlen.
  unfold Kinds.insertion_sort.
  destruct (Nat.eq_dec (List.length l) 0) as [E | E]; [now rewrite E |].
  apply insertion_prefix_stable.
  - intros i j Hi Hj. apply Qeq_bool_iff in Hi, Hj. now rewrite Hi, Hj.
  - rewrite length_seq. lia.
Qed.

(** The default kind is a sort: [argsort] lists every position once, in
    ascending order of value. *)
Lemma quicksort_kind_lawful : Aggregation.Lawful Kinds.quicksort_kind.
Proof.
  intros l. cbn [Aggregation.argsort Kinds.quicksort_kind].
  destruct (quicksort_argsort_sorts l) as [Hpos Hs]. split.
  - now apply positions_perm.
  - apply settled_sorted. destruct Hpos as [L _]. now rewrite L.
Qed.


Section RankPlayers.

Import Aggregation.

Lemma rank_index (n : nat) :
  map (fun i => i + 1) (range_index 0 n) = map Z.of_nat (seq 1 n).
Proof.
  unfold range_index. rewrite <- seq_shift, !map_map.
  apply map_ext. intros i. lia.
Qed.

Lemma has_avg_acs (df : DataFrame) :
  In "avg_acs" (columns df) ->
  existsb (String.eqb "avg_acs") (columns df) = true.
Proof.
  intros H. apply existsb_exists. exists "avg_acs". split; [exact H | reflexivity].
Qed.

Lemma rank_players_rows {K : SortKind} (df ranked : DataFrame) :
  rank_players df = Ok ranked ->
  rows ranked = take (nargsort_descending (map avg_acs (rows df))) (rows df)
  /\ columns ranked = columns df
  /\ index ranked = map (fun i => i + 1) (range_index 0 (List.length (rows ranked))).
Proof.
  unfold rank_players. destruct (existsb _ (columns df)); [| discriminate].
  intros H. injection H as <-. simpl. auto.
Qed.

(** What [rank_players] returns under a kind that sorts. *)
Lemma rank_players_lawful {K : SortKind} (df : DataFrame) :
  Lawful K -> In "avg_acs" (columns df) ->
  exists ranked,
    rank_players df = Ok ranked
    /\ rows ranked = take (nargsort_descending (map avg_acs (rows df))) (rows df)
    /\ Permutation (rows ranked) (rows df)
    /\ StronglySorted (fun a b => (avg_acs b <= avg_acs a)%Q) (rows ranked)
    /\ index ranked = map Z.of_nat (seq 1 (List.length (rows df))).
Proof.
  intros HK Hcol.
  destruct (rank_players df) as [ranked | e] eqn:E.
  2:{ unfold rank_players in E. rewrite (has_avg_acs df Hcol) in E. discriminate. }
  exists ranked. split; [reflexivity |].
  destruct (rank_players_rows df ranked E) as (Hrows & _ & Hindex).
  pose proof (nargsort_descending_perm (map avg_acs (rows df)) HK) as Hperm.
  rewrite length_map in Hperm.
  assert (Hp : Permutation (rows ranked) (rows df)).
  { rewrite Hrows. rewrite (take_perm _ _ _ Hperm). now rewrite take_seq. }
  split; [exact Hrows | split; [exact Hp | split]].
  - apply StronglySorted_map with (R := fun x y => (y <= x)%Q) (f := avg_acs).
    rewrite Hrows. rewrite (map_take avg_acs 0%Q).
    + now apply nargsort_descending_sorted.
    + intros i Hi. apply (Permutation_in _ Hperm) in Hi. apply in_seq in Hi. lia.
  - rewrite Hindex, (Permutation_length Hp). apply rank_index.
Qed.

End RankPlayers.

(** C2, as stated, fails.  Eighteen players come out of the aggregate in
    name order; the last two, p17 and p18, share the best score.  Under
    the default sort kind the ranking puts p18 first and p17 second: the
    tie is not broken by input order.  (The column is reversed before it
    is sorted, so the two lead it, p18 in cell 0 and p17 in cell 1; the
    median-of-three step of the one partition moves cell 0 to the last
    cell, the exchange loop moves cell 1 to the third last, and the
    insertion sort of the upper part, which only moves a value past
    larger ones, leaves p17 before p18 in ascending order, hence p18
    first once the result is reversed.) *)
Lemma rank_ties_reordered :
  exists ranked,
    @Aggregation.rank_players Kinds.quicksort_kind Board.aggregated = Ok ranked
    /\ Board.top (rows Board.aggregated) = ["p17"; "p18"]
    /\ Board.top (rows ranked) = ["p18"; "p17"]
    /\ firstn 2 (combine (index ranked) (map a_player_name (rows ranked)))
       = [(1, "p18"); (2, "p17")].
Proof.
  eexists. split; [vm_compute; reflexivity |]. repeat split.
Qed.

(** C2, amended.  Under the default sort kind, for every frame with the
    score column, the ranked frame holds the same rows, in descending
    order of their average score, labelled 1 to N without gaps whether
    or not scores are tied; and as long as there are at most seventeen
    rows, players with equal scores keep their input order.  The same
    holds of any kind that sorts, with ties in input order whenever the
    kind is a stable one.  The three player example: scores 300, 250 and
    a later 300 get the positions 1, 3 and 2. *)
Theorem rank_players_sorted_positions :
  (forall df : DataFrame,
     In "avg_acs" (columns df) ->
     exists ranked,
       @Aggregation.rank_players Kinds.quicksort_kind df = Ok ranked
       /\ Permutation (rows ranked) (rows df)
       /\ StronglySorted (fun a b => (avg_acs b <= avg_acs a)%Q) (rows ranked)
       /\ index ranked = map Z.of_nat (seq 1 (List.length (rows df)))
       /\ ((List.length (rows df) <= 17)%nat -> forall v : Q,
           filter (fun a => Qeq_bool (avg_acs a) v) (rows ranked)
           = filter (fun a => Qeq_bool (avg_acs a) v) (rows df)))
  /\ (forall (K : Aggregation.SortKind) (df : DataFrame),
     Aggregation.Lawful K ->
     In "avg_acs" (columns df) ->
     exists ranked,
       Aggregation.rank_players df = Ok ranked
       /\ Permutation (rows ranked) (rows df)
       /\ StronglySorted (fun a b => (avg_acs b <= avg_acs a)%Q) (rows ranked)
       /\ index ranked = map Z.of_nat (seq 1 (List.length (rows df)))
       /\ (Aggregation.Stable K -> forall v : Q,
           filter (fun a => Qeq_bool (avg_acs a) v) (rows ranked)
           = filter (fun a => Qeq_bool (avg_acs a) v) (rows df)))
  /\ (forall a b c : AggRow,
      avg_acs a = 300%Q -> avg_acs b = 250%Q -> avg_acs c = 300%Q ->
      @Aggregation.rank_players Kinds.quicksort_kind
        (mkFrame Aggregation.agg_columns [0; 1; 2] [a; b; c])
      = Ok (mkFrame Aggregation.agg_columns [1; 2; 3] [a; c; b])).
Proof.
  split; [| split].
  - intros df Hcol.
    destruct (@rank_players_lawful Kinds.quicksort_kind df quicksort_kind_lawful Hcol)
      as (ranked & Hrank & Hrows & Hp & Hsorted & Hindex).
    exists ranked. split; [exact Hrank |].
    split; [exact Hp | split; [exact Hsorted | split; [exact Hindex |]]].
    intros Hlen v. rewrite Hrows.
    apply (@take_nargsort_stable_at Kinds.quicksort_kind).
    + destruct (quicksort_kind_lawful (rev (map avg_acs (rows df)))) as [Hperm _].
      now rewrite length_rev, length_map in Hperm.
    + cbn [Aggregation.argsort Kinds.quicksort_kind].
      rewrite quicksort_small_stable by (now rewrite length_rev, length_map).
      now rewrite length_rev, length_map.
  - intros K df HK Hcol.
    destruct (rank_players_lawful df HK Hcol)
      as (ranked & Hrank & Hrows & Hp & Hsorted & Hindex).
    exists ranked. split; [exact Hrank |].
    split; [exact Hp | split; [exact Hsorted | split; [exact Hindex |]]].
    intros HS v. rewrite Hrows. now apply take_nargsort_stable.
  - intros [na a1 a2 a3 a4 a5 a6 a7] [nb b1 b2 b3 b4 b5 b6 b7] [nc c1 c2 c3 c4 c5 c6 c7].
    simpl. intros -> -> ->. vm_compute. reflexivity.
Qed.

(** The default kind on the three player example: ranked 1 to 3, scores
    descending, and the two players at 300 in their input order. *)
Lemma rank_players_sorted_positions_witness :
  let a := mkAgg "A" 300 (F64.Fin 1) 10 5 3 2 2 in
  let b := mkAgg "B" 250 (F64.Fin 1) 8 8 1 1 1 in
  let c := mkAgg "C" 300 (F64.Fin 1) 9 3 0 3 1 in
  let df := mkFrame Aggregation.agg_columns [0; 1; 2] [a; b; c] in
  In "avg_acs" (columns df) /\
  (List.length (rows df) <= 17)%nat /\
  exists ranked,
    @Aggregation.rank_players Kinds.quicksort_kind df = Ok ranked
    /\ StronglySorted (fun a b => (avg_acs b <= avg_acs a)%Q) (rows ranked)
    /\ index ranked = [1; 2; 3]
    /\ filter (fun a => Qeq_bool (avg_acs a) 300) (rows ranked) = [a; c].
Proof.
  intros a b c df.
  assert (Hcol : In "avg_acs" (columns df)) by (right; left; reflexivity).
  assert (Hlen : (List.length (rows df) <= 17)%nat) by (cbn; lia).
  split; [exact Hcol | split; [exact Hlen |]].
  destruct (proj1 rank_players_sorted_positions df Hcol)
    as (ranked & Hrank & _ & Hsorted & Hindex & Hties).
  exists ranked. split; [exact Hrank | split; [exact Hsorted | split; [exact Hindex |]]].
  exact (Hties Hlen 300%Q).
Defined.

(** C9, as stated, fails: ranking what the aggregate returns for no
    records at all raises [KeyError], the frame has no [avg_acs] column. *)
Lemma rank_empty_aggregate_raises :
  @Aggregation.rank_players Kinds.quicksort_kind (Aggregation.aggregate_player_stats [])
  = Raise (KeyError "avg_acs").
Proof.
  reflexivity.
Qed.

(** C9, amended.  The aggregate of no records is the empty frame, with no
    error.  The page never ranks it: a leaderboard is computed only from
    a non-empty aggregate, no records give no leaderboard, and building
    the leaderboard never raises, whatever the records. *)
Theorem empty_aggregate_not_ranked :
  Aggregation.aggregate_player_stats [] = Aggregation.empty_frame
  /\ rows (Aggregation.aggregate_player_stats []) = []
  /\ Aggregation.empty (Aggregation.aggregate_player_stats []) = true
  /\ (forall K : Aggregation.SortKind, @Aggregation.leaderboard K [] = Ok None)
  /\ (forall (K : Aggregation.SortKind) (data : list MatchRow),
      exists board, @Aggregation.leaderboard K data = Ok board)
  /\ (forall (K : Aggregation.SortKind) (data : list MatchRow) (ranked : DataFrame),
      @Aggregation.leaderboard K data = Ok (Some ranked) ->
      data <> []
      /\ Aggregation.empty (Aggregation.aggregate_player_stats data) = false
      /\ Aggregation.rank_players (Aggregation.aggregate_player_stats data) = Ok ranked).
Proof.
  repeat split.
  - intros K [| r data]; [now exists None |].
    unfold Aggregation.leaderboard.
    destruct (negb _); [| now exists None].
    unfold Aggregation.rank_players.
    rewrite has_avg_acs by (right; left; reflexivity).
    eexists. reflexivity.
  - intros ->. discriminate H.
  - unfold Aggregation.leaderboard in H. destruct data; [discriminate |].
    destruct (Aggregation.empty _); [discriminate | reflexivity].
  - unfold Aggregation.leaderboard in H. destruct data; [discriminate |].
    destruct (negb _); [| discriminate].
    destruct (Aggregation.rank_players _); [| discriminate].
    now injection H as ->.
Qed.

(** One record gives a leaderboard, and it is the ranking of a frame
    that is not empty. *)
Lemma empty_aggregate_not_ranked_witness :
  let r := mkMatch 1 1 "A" "Win" "Bind" "Jett" "Gold 1" 200 (3 # 2) 10 5 3 in
  exists ranked,
    @Aggregation.leaderboard Kinds.quicksort_kind [r] = Ok (Some ranked)
    /\ Aggregation.empty (Aggregation.aggregate_player_stats [r]) = false
    /\ index ranked = [1].
Proof.
  intros r.
  destruct (@Aggregation.leaderboard Kinds.quicksort_kind [r]) as [[ranked |] | e] eqn:E;
    try discriminate E.
  exists ranked. split; [reflexivity |].
  destruct (proj2 (proj2 (proj2 (proj2 (proj2 empty_aggregate_not_ranked))))
              Kinds.quicksort_kind [r] ranked E) as (_ & Hempty & Hrank).
  split; [exact Hempty |].
  vm_compute in E. injection E as <-. reflexivity.
Defined.

(** * Further properties of the code *)

(** ** The match repository *)

Section RepositoryFacts.

Import Matches.

Lemma sql_delete_app (cond : MatchRow -> bool) (t1 t2 : list MatchRow) :
  sql_delete cond (t1 ++ t2) = (sql_delete cond t1 ++ sql_delete cond t2)%list.
Proof.
  induction t1 as [| r t1 IH]; simpl.
  - reflexivity.
  - destruct (cond r); simpl; now rewrite IH.
Qed.

Lemma sql_delete_twice (cond : MatchRow -> bool) (t : list MatchRow) :
  sql_delete cond (sql_delete cond t) = sql_delete cond t.
Proof.
  apply sql_delete_none. intros r Hr. now apply sql_delete_In in Hr.
Qed.

Lemma insert_desc_perm (r : MatchRow) (l : list MatchRow) :
  Permutation (insert_desc r l) (r :: l).
Proof.
  induction l as [| x l IH]; simpl.
  - reflexivity.
  - destruct (id x <? id r); [reflexivity |].
    rewrite IH. apply perm_swap.
Qed.

Lemma order_by_id_desc_perm (l : list MatchRow) :
  Permutation (order_by_id_desc l) l.
Proof.
  unfold order_by_id_desc. induction l as [| r l IH]; simpl.
  - reflexivity.
  - now rewrite insert_desc_perm, IH.
Qed.

Lemma insert_desc_sorted (r : MatchRow) (l : list MatchRow) :
  StronglySorted (fun a b => id b <= id a) l ->
  StronglySorted (fun a b => id b <= id a) (insert_desc r l).
Proof.
  induction l as [| x l IH]; simpl; intros Hs.
  - constructor; constructor.
  - inversion Hs as [| ? ? Htail Hhead]; subst.
    destruct (Z.ltb_spec (id x) (id r)) as [Hlt | Hge].
    + constructor; [exact Hs |]. constructor; [lia |].
      eapply Forall_impl; [| exact Hhead]. intros b Hb. simpl in Hb. lia.
    + constructor; [now apply IH |].
      rewrite insert_desc_perm. constructor; [exact Hge | exact Hhead].
Qed.

Lemma order_by_id_desc_sorted (l : list MatchRow) :
  StronglySorted (fun a b => id b <= id a) (order_by_id_desc l).
Proof.
  unfold order_by_id_desc. induction l as [| r l IH]; simpl.
  - constructor.
  - now apply insert_desc_sorted.
Qed.

(** A row whose id is above all others goes to the front. *)
Lemma order_by_id_desc_newest (r : MatchRow) (l : list MatchRow) :
  (forall x, In x l -> id x < id r) ->
  order_by_id_desc (l ++ [r]) = r :: order_by_id_desc l.
Proof.
  unfold order_by_id_desc. intros Hnew. induction l as [| x l IH]; simpl.
  - reflexivity.
  - rewrite IH by (intros y Hy; apply Hnew; now right). simpl.
    assert (Hx : id x < id r) by (apply Hnew; now left).
    destruct (Z.ltb_spec (id r) (id x)); [lia | reflexivity].
Qed.

End RepositoryFacts.

(** X1.  [fetch_all_matches] returns every row of the table exactly once,
    newest first: the ids never go up along the result. *)
Theorem fetch_all_matches_sorted (db : Db) :
  Permutation (Matches.fetch_all_matches db) (matches db)
  /\ StronglySorted (fun a b => id b <= id a) (Matches.fetch_all_matches db).
Proof.
  split; [apply order_by_id_desc_perm | apply order_by_id_desc_sorted].
Qed.

(** X2.  [fetch_matches_by_user] returns exactly the rows filed under the
    given player name, whoever owns them, newest first. *)
Theorem fetch_matches_by_user_selects (uname : string) (db : Db) :
  (forall r, In r (Matches.fetch_matches_by_user uname db)
             <-> In r (matches db) /\ player_name r = uname)
  /\ StronglySorted (fun a b => id b <= id a) (Matches.fetch_matches_by_user uname db)
  /\ List.length (Matches.fetch_matches_by_user uname db)
     = List.length (filter (fun r => String.eqb (player_name r) uname) (matches db)).
Proof.
  unfold Matches.fetch_matches_by_user. split; [| split].
  - intros r. split.
    + intros H. apply (Permutation_in _ (order_by_id_desc_perm _)) in H.
      apply filter_In in H. destruct H as [Hin He]. now apply String.eqb_eq in He.
    + intros [Hin He].
      apply (Permutation_in _ (Permutation_sym (order_by_id_desc_perm _))).
      apply filter_In. split; [exact Hin | now apply String.eqb_eq].
  - apply order_by_id_desc_sorted.
  - apply Permutation_length, order_by_id_desc_perm.
Qed.

(** X3.  On a database whose ids are below the serial counter, a match
    that has just been added is the first row [fetch_all_matches]
    returns, with the submitted values, and the rows behind it are what
    was fetched before. *)
Theorem add_match_fetched_first (db : Db) (uid : Z) (pname wl mp ag rk : string)
    (a : Z) (econ : Q) (k d s : Z) :
  (forall r, In r (matches db) -> id r < next_match_id db) ->
  Matches.fetch_all_matches (Matches.add_match uid pname wl mp ag rk a econ k d s db)
  = mkMatch (next_match_id db) uid pname wl mp ag rk a econ k d s
    :: Matches.fetch_all_matches db.
Proof.
  intros Hfresh. unfold Matches.fetch_all_matches, Matches.add_match. simpl.
  apply order_by_id_desc_newest. exact Hfresh.
Qed.

Lemma add_match_fetched_first_witness :
  let row := mkMatch 4 1 "ann" "Win" "Bind" "Jett" "Gold 1" 200 (3 # 2) 10 5 3 in
  let db := mkDb [] [row] 2 5 in
  (forall r, In r (matches db) -> id r < next_match_id db) /\
  Matches.fetch_all_matches
    (Matches.add_match 1 "ann" "Loss" "Split" "Sova" "Gold 1" 150 (1 # 2) 4 9 6 db)
  = [mkMatch 5 1 "ann" "Loss" "Split" "Sova" "Gold 1" 150 (1 # 2) 4 9 6; row].
Proof.
  intros row db.
  assert (Hfresh : forall r, In r (matches db) -> id r < next_match_id db).
  { intros r [<- | []]. simpl. lia. }
  split; [exact Hfresh |].
  exact (add_match_fetched_first db 1 "ann" "Loss" "Split" "Sova" "Gold 1"
           150 (1 # 2) 4 9 6 Hfresh).
Defined.

(** X4.  Adding a match and then deleting the id it received gives back
    the table as it was, when the deletion is made by the user who added
    it or by anyone who is not a player; the counter has moved on, so the
    id is not handed out again. *)
Theorem add_then_delete_restores (db : Db) (user : User) (uid : Z)
    (pname wl mp ag rk : string) (a : Z) (econ : Q) (k d s : Z) :
  (forall r, In r (matches db) -> id r < next_match_id db) ->
  role user <> "player" \/ u_id user = uid ->
  let db' := Matches.delete_match (next_match_id db) user
               (Matches.add_match uid pname wl mp ag rk a econ k d s db) in
  matches db' = matches db
  /\ users db' = users db
  /\ next_match_id db' = next_match_id db + 1.
Proof.
  intros Hfresh Hmay db'. subst db'.
  unfold Matches.delete_match, Matches.delete_match_rows, Matches.add_match, with_matches.
  simpl. split; [| split; reflexivity].
  assert (Hkeep : forall cond : MatchRow -> bool,
            (forall r, cond r = true -> id r = next_match_id db) ->
            Matches.sql_delete cond (matches db) = matches db).
  { intros cond Hc. apply sql_delete_none. intros r Hr.
    destruct (cond r) eqn:E; [| reflexivity].
    apply Hc in E. apply Hfresh in Hr. lia. }
  destruct (String.eqb_spec (role user) "player") as [Hp | Hp].
  - destruct Hmay as [Hn | <-]; [contradiction |].
    rewrite sql_delete_app, Hkeep.
    + simpl. unfold Matches.where_id_and_owner. simpl.
      rewrite !Z.eqb_refl. simpl. apply app_nil_r.
    + intros r Hr. unfold Matches.where_id_and_owner in Hr.
      apply andb_true_iff in Hr. destruct Hr as [Hr _]. now apply Z.eqb_eq.
  - rewrite sql_delete_app, Hkeep.
    + simpl. unfold Matches.where_id. simpl. rewrite Z.eqb_refl. apply app_nil_r.
    + intros r Hr. now apply Z.eqb_eq.
Qed.

Lemma add_then_delete_restores_witness :
  let ann := mkUser 1 "ann" "hash" "player" in
  let row := mkMatch 4 1 "ann" "Win" "Bind" "Jett" "Gold 1" 200 (3 # 2) 10 5 3 in
  let db := mkDb [ann] [row] 2 5 in
  (forall r, In r (matches db) -> id r < next_match_id db) /\
  (role ann <> "player" \/ u_id ann = 1) /\
  matches (Matches.delete_match 5 ann
             (Matches.add_match 1 "ann" "Loss" "Split" "Sova" "Gold 1" 150 (1 # 2) 4 9 6 db))
  = [row].
Proof.
  intros ann row db.
  assert (Hfresh : forall r, In r (matches db) -> id r < next_match_id db).
  { intros r [<- | []]. simpl. lia. }
  assert (Hmay : role ann <> "player" \/ u_id ann = 1) by (right; reflexivity).
  split; [exact Hfresh | split; [exact Hmay |]].
  exact (proj1 (add_then_delete_restores db ann 1 "ann" "Loss" "Split" "Sova" "Gold 1"
                  150 (1 # 2) 4 9 6 Hfresh Hmay)).
Defined.

(** X5.  Deleting the same record a second time changes nothing more. *)
Theorem delete_match_idempotent (db : Db) (record_id : Z) (user : User) :
  Matches.delete_match record_id user (Matches.delete_match record_id user db)
  = Matches.delete_match record_id user db.
Proof.
  unfold Matches.delete_match, Matches.delete_match_rows, with_matches. simpl.
  destruct (String.eqb (role user) "player"); now rewrite sql_delete_twice.
Qed.

(** X6.  Unique ids below the counter stay that way: [add_match] gives
    the new row an id no row has, and [delete_match] only removes rows. *)
Theorem ids_ok_preserved (db : Db) :
  ids_ok db ->
  (forall uid pname wl mp ag rk a econ k d s,
     ids_ok (Matches.add_match uid pname wl mp ag rk a econ k d s db))
  /\ (forall record_id user, ids_ok (Matches.delete_match record_id user db)).
Proof.
  intros [Hnd Hfresh]. split.
  - intros uid pname wl mp ag rk a econ k d s. unfold ids_ok, Matches.add_match. simpl.
    split.
    + rewrite map_app. simpl.
      apply (Permutation_NoDup (l := next_match_id db :: map id (matches db))).
      * apply Permutation_cons_append.
      * constructor; [| exact Hnd]. intros Hin. apply in_map_iff in Hin.
        destruct Hin as [r [He Hr]]. apply Hfresh in Hr. lia.
    + intros r Hr. apply in_app_or in Hr. destruct Hr as [Hr | [<- | []]].
      * apply Hfresh in Hr. lia.
      * simpl. lia.
  - intros record_id user. unfold ids_ok, Matches.delete_match, with_matches. simpl.
    assert (Hsub : forall cond t, NoDup (map id t) ->
              NoDup (map id (Matches.sql_delete cond t))).
    { intros cond t. induction t as [| r t IH]; simpl; intros H.
      - constructor.
      - inversion H as [| ? ? Hnotin Hrest]; subst.
        destruct (cond r); [now apply IH |]. simpl. constructor; [| now apply IH].
        intros Hin. apply Hnotin. apply in_map_iff in Hin.
        destruct Hin as [x [He Hx]]. apply sql_delete_In in Hx.
        rewrite <- He. apply in_map. tauto. }
    unfold Matches.delete_match_rows. split.
    + destruct (String.eqb (role user) "player"); now apply Hsub.
    + intros r Hr. apply Hfresh.
      destruct (String.eqb (role user) "player"); apply sql_delete_In in Hr; tauto.
Qed.

Lemma ids_ok_preserved_witness :
  let row := mkMatch 4 1 "ann" "Win" "Bind" "Jett" "Gold 1" 200 (3 # 2) 10 5 3 in
  let db := mkDb [] [row] 2 5 in
  ids_ok db /\
  ids_ok (Matches.add_match 1 "ann" "Loss" "Split" "Sova" "Gold 1" 150 (1 # 2) 4 9 6 db).
Proof.
  intros row db.
  assert (Hok : ids_ok db).
  { split.
    - simpl. constructor; [intros [] | constructor].
    - intros r [<- | []]. simpl. lia. }
  split; [exact Hok |].
  exact (proj1 (ids_ok_preserved db Hok) 1 "ann" "Loss" "Split" "Sova" "Gold 1"
           150 (1 # 2) 4 9 6).
Defined.

(** ** Accounts *)

Section AccountFacts.

Context {B : Bcrypt}.

Lemma get_user_app (uname : string) (db : Db) (more : list User) :
  Auth.get_user uname (mkDb (users db ++ more) (matches db)
                            (next_user_id db + 1) (next_match_id db))
  = match Auth.get_user uname db with
    | Some user => Some user
    | None => find (fun u => String.eqb (username u) uname) more
    end.
Proof.
  unfold Auth.get_user. simpl. induction (users db) as [| u l IH]; simpl.
  - reflexivity.
  - destruct (String.eqb (username u) uname); [reflexivity | exact IH].
Qed.

Lemma get_user_unique (uname : string) (db : Db) (user : User) :
  usernames_unique db -> In user (users db) -> username user = uname ->
  Auth.get_user uname db = Some user.
Proof.
  unfold usernames_unique, Auth.get_user. intros Hnd Hin Hname.
  induction (users db) as [| u l IH]; simpl in *.
  - contradiction.
  - inversion Hnd as [| ? ? Hnotin Hrest]; subst.
    destruct Hin as [-> | Hin].
    + now rewrite String.eqb_refl.
    + destruct (String.eqb_spec (username u) (username user)) as [e | n].
      * exfalso. apply Hnotin. rewrite e. now apply in_map.
      * now apply IH.
Qed.

(** What the Register button leaves behind: the old database, or the old
    database with one player row more whose name was free. *)
Lemma on_register_cases (new_user new_pass confirm_pass salt : string) (db : Db) :
  snd (Page.on_register new_user new_pass confirm_pass salt db) = db
  \/ (Auth.get_user new_user db = None
      /\ new_pass = confirm_pass
      /\ Page.on_register new_user new_pass confirm_pass salt db
         = ([Page.registered],
            mkDb (users db ++ [mkUser (next_user_id db) new_user
                                      (hashpw new_pass salt) "player"])
                 (matches db) (next_user_id db + 1) (next_match_id db))).
Proof.
  unfold Page.on_register.
  destruct (String.eqb_spec new_pass confirm_pass) as [He | Hne]; simpl;
    [| now left].
  destruct (Auth.get_user new_user db) eqn:E; [now left |].
  unfold Auth.register_user.
  destruct (Auth.violates_unique new_user db) eqn:Ev.
  - now left.
  - right. auto.
Qed.

End AccountFacts.

(** X7.  Where user names are unique, [login] answers with a user row
    exactly when that row is in the table under the given name and the
    password checks against its hash; otherwise it answers [None]. *)
Theorem login_succeeds_iff {B : Bcrypt} (db : Db) (uname password : string)
    (user : User) :
  usernames_unique db ->
  (Auth.login uname password db = Some user
   <-> In user (users db) /\ username user = uname
       /\ checkpw password (password_hash user) = true).
Proof.
  intros Huniq. unfold Auth.login, Auth.verify_password. split.
  - destruct (Auth.get_user uname db) as [found |] eqn:E; [| discriminate].
    destruct (checkpw password (password_hash found)) eqn:Ec; [| discriminate].
    intros H. injection H as <-.
    apply get_user_Some in E. tauto.
  - intros (Hin & Hname & Hcheck).
    rewrite (get_user_unique uname db user Huniq Hin Hname). now rewrite Hcheck.
Qed.

Lemma login_succeeds_iff_witness :
  let ann := mkUser 1 "ann" "s3cret" "player" in
  let db := mkDb [ann] [] 2 1 in
  usernames_unique db /\
  @Auth.login plain_bcrypt "ann" "s3cret" db = Some ann.
Proof.
  intros ann db.
  assert (Huniq : usernames_unique db).
  { unfold usernames_unique. simpl. constructor; [intros [] | constructor]. }
  split; [exact Huniq |].
  apply (proj2 (@login_succeeds_iff plain_bcrypt db "ann" "s3cret" ann Huniq)).
  split; [now left | split; reflexivity].
Defined.

(** X8.  With a [bcrypt] that accepts a password against its own hash:
    after a registration under a free name with matching passwords, a
    login with that name and password succeeds and returns the new row,
    whose role is player. *)
Theorem register_then_login {B : Bcrypt} (db : Db) (new_user new_pass salt : string) :
  BcryptSound B ->
  Auth.get_user new_user db = None ->
  Auth.login new_user new_pass
             (snd (Page.on_register new_user new_pass new_pass salt db))
  = Some (mkUser (next_user_id db) new_user (hashpw new_pass salt) "player").
Proof.
  intros Hsound Hfree.
  assert (Hv : Auth.violates_unique new_user db = false).
  { destruct (Auth.violates_unique new_user db) eqn:Ev; [| reflexivity].
    apply taken_iff in Ev. destruct Ev as [u [Hin Hname]].
    rewrite get_user_None in Hfree. exfalso. exact (Hfree u Hin Hname). }
  unfold Page.on_register, Auth.register_user.
  rewrite String.eqb_refl, Hfree, Hv. simpl.
  unfold Auth.login, Auth.verify_password.
  rewrite get_user_app, Hfree. simpl. rewrite String.eqb_refl. simpl.
  now rewrite Hsound.
Qed.

Lemma register_then_login_witness :
  let ann := mkUser 1 "ann" "s3cret" "player" in
  let db := mkDb [ann] [] 2 1 in
  BcryptSound plain_bcrypt /\
  @Auth.get_user "bob" db = None /\
  @Auth.login plain_bcrypt "bob" "pw"
     (snd (@Page.on_register plain_bcrypt "bob" "pw" "pw" "salt" db))
  = Some (mkUser 2 "bob" "pw" "player").
Proof.
  intros ann db.
  assert (Hsound : BcryptSound plain_bcrypt).
  { intros password salt. simpl. apply String.eqb_refl. }
  assert (Hfree : @Auth.get_user "bob" db = None) by reflexivity.
  split; [exact Hsound | split; [exact Hfree |]].
  exact (@register_then_login plain_bcrypt db "bob" "pw" "salt" Hsound Hfree).
Defined.

(** X9.  The Register button keeps user names unique: whatever is typed,
    a table without two rows of the same name has none afterwards, and
    the match table is not touched. *)
Theorem register_keeps_usernames_unique {B : Bcrypt} (db : Db)
    (new_user new_pass confirm_pass salt : string) :
  usernames_unique db ->
  usernames_unique (snd (Page.on_register new_user new_pass confirm_pass salt db))
  /\ matches (snd (Page.on_register new_user new_pass confirm_pass salt db))
     = matches db.
Proof.
  intros Huniq.
  destruct (on_register_cases new_user new_pass confirm_pass salt db)
    as [-> | (Hfree & _ & ->)]; [now split |].
  split; [| reflexivity].
  unfold usernames_unique in *. simpl. rewrite map_app. simpl.
  apply (Permutation_NoDup (l := new_user :: map username (users db))).
  - apply Permutation_cons_append.
  - constructor; [| exact Huniq]. intros Hin. apply in_map_iff in Hin.
    destruct Hin as [u [Hname Hu]]. rewrite get_user_None in Hfree.
    exact (Hfree u Hu Hname).
Qed.

Lemma register_keeps_usernames_unique_witness :
  let ann := mkUser 1 "ann" "s3cret" "player" in
  let db := mkDb [ann] [] 2 1 in
  usernames_unique db /\
  usernames_unique (snd (@Page.on_register plain_bcrypt "bob" "pw" "pw" "salt" db)).
Proof.
  intros ann db.
  assert (Huniq : usernames_unique db).
  { unfold usernames_unique. simpl. constructor; [intros [] | constructor]. }
  split; [exact Huniq |].
  exact (proj1 (@register_keeps_usernames_unique plain_bcrypt db "bob" "pw" "pw" "salt" Huniq)).
Defined.

(** X10.  A registration takes nobody's login away: whoever could log in
    before the Register button was pressed can log in afterwards, with
    the same result. *)
Theorem register_keeps_logins {B : Bcrypt} (db : Db)
    (new_user new_pass confirm_pass salt uname password : string) (user : User) :
  Auth.login uname password db = Some user ->
  Auth.login uname password
             (snd (Page.on_register new_user new_pass confirm_pass salt db))
  = Some user.
Proof.
  intros Hlogin.
  destruct (on_register_cases new_user new_pass confirm_pass salt db)
    as [-> | (_ & _ & ->)]; [exact Hlogin |].
  simpl. unfold Auth.login in *. rewrite get_user_app.
  destruct (Auth.get_user uname db); [exact Hlogin | discriminate].
Qed.

Lemma register_keeps_logins_witness :
  let ann := mkUser 1 "ann" "s3cret" "player" in
  let db := mkDb [ann] [] 2 1 in
  @Auth.login plain_bcrypt "ann" "s3cret" db = Some ann /\
  @Auth.login plain_bcrypt "ann" "s3cret"
     (snd (@Page.on_register plain_bcrypt "bob" "pw" "pw" "salt" db)) = Some ann.
Proof.
  intros ann db.
  assert (Hlogin : @Auth.login plain_bcrypt "ann" "s3cret" db = Some ann) by reflexivity.
  split; [exact Hlogin |].
  exact (@register_keeps_logins plain_bcrypt db "bob" "pw" "pw" "salt" "ann" "s3cret"
           ann Hlogin).
Defined.

(** ** The admin script *)

Section StripFacts.

Lemma lstrip_head (l : list ascii) (c : ascii) (t : list ascii) :
  Py.lstrip l = c :: t -> Py.is_space c = false.
Proof.
  induction l as [| x l IH]; simpl.
  - discriminate.
  - destruct (Py.is_space x) eqn:E; [exact IH |].
    intros H. injection H as <- _. exact E.
Qed.

Lemma lstrip_suffix (l : list ascii) : exists p, l = (p ++ Py.lstrip l)%list.
Proof.
  induction l as [| x l [p IH]]; simpl.
  - now exists [].
  - destruct (Py.is_space x).
    + exists (x :: p). simpl. now rewrite <- IH.
    + now exists [].
Qed.

Lemma strip_last (l t : list ascii) (c : ascii) :
  Py.strip l = (t ++ [c])%list -> Py.is_space c = false.
Proof.
  unfold Py.strip. intros H.
  apply (f_equal (@rev ascii)) in H. rewrite rev_involutive, rev_app_distr in H.
  simpl in H. exact (lstrip_head _ _ _ H).
Qed.

Lemma strip_head (l : list ascii) (c : ascii) (t : list ascii) :
  Py.strip l = c :: t -> Py.is_space c = false.
Proof.
  unfold Py.strip. intros H.
  apply (f_equal (@rev ascii)) in H. rewrite rev_involutive in H. simpl in H.
  destruct (lstrip_suffix (rev (Py.lstrip l))) as [p Hp].
  rewrite H in Hp. apply (f_equal (@rev ascii)) in Hp.
  rewrite rev_involutive, !rev_app_distr, rev_involutive in Hp. simpl in Hp.
  exact (lstrip_head _ _ _ Hp).
Qed.

Lemma list_ascii_of_string_app (s t : string) :
  list_ascii_of_string (s ++ t)
  = (list_ascii_of_string s ++ list_ascii_of_string t)%list.
Proof.
  induction s as [| c s IH]; simpl; [reflexivity | now rewrite IH].
Qed.

End StripFacts.

(** X11.  With a [bcrypt] that accepts a password against its own hash:
    when the admin script commits, a login with the stripped name and the
    stripped password succeeds and returns a user whose role is admin;
    the match table is as it was. *)
Theorem create_admin_then_login {B : Bcrypt} (db db' : Db)
    (username_input password_input salt printed : string) :
  BcryptSound B ->
  Admin.create_admin username_input password_input salt db = Admin.Created printed db' ->
  exists admin,
    Auth.login (Admin.strip username_input) (Admin.strip password_input) db' = Some admin
    /\ role admin = "admin"
    /\ username admin = Admin.strip username_input
    /\ users db' = (users db ++ [admin])%list
    /\ matches db' = matches db.
Proof.
  intros Hsound. unfold Admin.create_admin.
  destruct (Auth.violates_unique (Admin.strip username_input) db) eqn:Ev;
    [discriminate |].
  intros H. injection H as _ <-.
  exists (mkUser (next_user_id db) (Admin.strip username_input)
                 (hashpw (Admin.strip password_input) salt) "admin").
  split; [| split; [reflexivity | split; [reflexivity | split; reflexivity]]].
  unfold Auth.login, Auth.verify_password. rewrite get_user_app.
  assert (Hfree : Auth.get_user (Admin.strip username_input) db = None).
  { apply get_user_None. intros u Hu Hname.
    assert (Ht : Auth.violates_unique (Admin.strip username_input) db = true).
    { apply taken_iff. now exists u. }
    congruence. }
  rewrite Hfree. simpl. rewrite String.eqb_refl. simpl. now rewrite Hsound.
Qed.

Lemma create_admin_then_login_witness :
  let db := mkDb [] [] 1 1 in
  let db' := mkDb [mkUser 1 "root" "pw" "admin"] [] 2 1 in
  BcryptSound plain_bcrypt /\
  @Admin.create_admin plain_bcrypt " root " "pw " "salt" db
  = Admin.Created "Admin 'root' created successfully!" db' /\
  exists admin,
    @Auth.login plain_bcrypt "root" "pw" db' = Some admin /\ role admin = "admin".
Proof.
  intros db db'.
  assert (Hsound : BcryptSound plain_bcrypt).
  { intros password salt. simpl. apply String.eqb_refl. }
  assert (Hrun : @Admin.create_admin plain_bcrypt " root " "pw " "salt" db
                 = Admin.Created "Admin 'root' created successfully!" db')
    by reflexivity.
  split; [exact Hsound | split; [exact Hrun |]].
  destruct (@create_admin_then_login plain_bcrypt db db' " root " "pw " "salt" _
              Hsound Hrun) as (admin & Hlogin & Hrole & _).
  exists admin. split; [exact Hlogin | exact Hrole].
Defined.

(** X12.  The name the admin script stores has no white space at either
    end, whatever was typed around it. *)
Theorem create_admin_name_stripped {B : Bcrypt} (db db' : Db)
    (username_input password_input salt printed : string) :
  Admin.create_admin username_input password_input salt db = Admin.Created printed db' ->
  exists admin,
    users db' = (users db ++ [admin])%list
    /\ (forall c rest, username admin = String c rest -> Py.is_space c = false)
    /\ (forall front c, username admin = front ++ String c "" -> Py.is_space c = false).
Proof.
  unfold Admin.create_admin.
  destruct (Auth.violates_unique (Admin.strip username_input) db); [discriminate |].
  intros H. injection H as _ <-.
  exists (mkUser (next_user_id db) (Admin.strip username_input)
                 (hashpw (Admin.strip password_input) salt) "admin").
  split; [reflexivity |]. simpl. unfold Admin.strip. split.
  - intros c rest H. apply (f_equal list_ascii_of_string) in H.
    rewrite list_ascii_of_string_of_list_ascii in H. simpl in H.
    exact (strip_head _ _ _ H).
  - intros front c H. apply (f_equal list_ascii_of_string) in H.
    rewrite list_ascii_of_string_of_list_ascii, list_ascii_of_string_app in H.
    simpl in H. exact (strip_last _ _ _ H).
Qed.

Lemma create_admin_name_stripped_witness :
  let db := mkDb [] [] 1 1 in
  let db' := mkDb [mkUser 1 "root" "pw" "admin"] [] 2 1 in
  @Admin.create_admin plain_bcrypt " root " "pw " "salt" db
  = Admin.Created "Admin 'root' created successfully!" db' /\
  exists admin,
    users db' = (users db ++ [admin])%list
    /\ (forall c rest, username admin = String c rest -> Py.is_space c = false).
Proof.
  intros db db'.
  assert (Hrun : @Admin.create_admin plain_bcrypt " root " "pw " "salt" db
                 = Admin.Created "Admin 'root' created successfully!" db')
    by reflexivity.
  split; [exact Hrun |].
  destruct (@create_admin_name_stripped plain_bcrypt db db' " root " "pw " "salt" _ Hrun)
    as (admin & Husers & Hhead & _).
  exists admin. split; [exact Husers | exact Hhead].
Defined.

(** ** The forms of the page *)

Section FormFacts.

(** What the Add Match button leaves behind: the old database, or the
    old database with one row more. *)
Lemma on_add_match_cases (user : User) (typed wl mp ag rk : string)
    (a : option Z) (econ : Q) (k d s : option Z) (db : Db) :
  let pname := if Page.is_player user then username user else typed in
  snd (Page.on_add_match user typed wl mp ag rk a econ k d s db) = db
  \/ exists a' k' d' s',
       a = Some a' /\ a' <> 0 /\ k = Some k' /\ d = Some d' /\ s = Some s'
       /\ snd (Page.on_add_match user typed wl mp ag rk a econ k d s db)
          = Matches.add_match (u_id user) pname wl mp ag rk a' econ k' d' s' db.
Proof.
  intros pname. unfold Page.on_add_match. fold pname.
  destruct a as [a' |]; [| now left].
  destruct (Z.eqb_spec a' 0) as [-> | Ha]; [now left |].
  destruct k as [k' |], d as [d' |], s as [s' |]; simpl;
    apply Z.eqb_neq in Ha; rewrite Ha; simpl; try (now left).
  right. exists a', k', d', s'. apply Z.eqb_neq in Ha. auto 10.
Qed.

Lemma prefix_short (a b t : string) :
  (String.length a <= String.length b)%nat ->
  String.prefix a (b ++ t) = String.prefix a b.
Proof.
  revert b. induction a as [| x a IH]; intros b Hlen.
  - now destruct b, t.
  - destruct b as [| y b]; simpl in Hlen; [lia |].
    simpl. destruct (ascii_dec x y); [apply IH; lia | reflexivity].
Qed.

Lemma length_append (s t : string) :
  String.length (s ++ t) = (String.length s + String.length t)%nat.
Proof.
  induction s as [| c s IH]; simpl; [reflexivity | now rewrite IH].
Qed.

Lemma append_assoc (s t u : string) : (s ++ t) ++ u = s ++ t ++ u.
Proof.
  induction s as [| c s IH]; simpl; [reflexivity | now rewrite IH].
Qed.

Lemma prefix_refl (s : string) : String.prefix s s = true.
Proof.
  induction s as [| c s IH]; simpl; [reflexivity |].
  destruct (ascii_dec c c); [exact IH | congruence].
Qed.

(** The first field of a line is decided by what stands before the
    first separator, whatever comes after it. *)
Lemma split_first_rest (sep s t : string) :
  Py.split_first sep (s ++ sep ++ t) = Py.split_first sep (s ++ sep).
Proof.
  induction s as [| c s IH].
  - cbn [append]. rewrite !split_first_unfold.
    now rewrite prefix_append, prefix_refl.
  - rewrite (split_first_unfold sep (String c s ++ sep ++ t)).
    rewrite (split_first_unfold sep (String c s ++ sep)).
    rewrite <- (append_assoc (String c s) sep t).
    rewrite prefix_short by (rewrite length_append; lia).
    destruct (String.prefix sep (String c s ++ sep)); [reflexivity |].
    simpl. rewrite append_assoc. now rewrite IH.
Qed.

Lemma first_field_of_name (row : MatchRow) :
  Py.split_first " | " (Page.record_option row)
  = Py.split_first " | " (player_name row ++ " | ").
Proof.
  unfold Page.record_option. apply split_first_rest.
Qed.

Lemma split_first_no_space (s t : string) :
  (forall c, In c (list_ascii_of_string s) -> c <> " "%char) ->
  Py.split_first " | " (s ++ " | " ++ t) = s.
Proof.
  induction s as [| c s IH]; intros Hns.
  - change ("" ++ " | " ++ t) with (" | " ++ t). rewrite split_first_unfold.
    now rewrite (prefix_append " | " t).
  - rewrite split_first_unfold.
    replace (String.prefix " | " (String c s ++ " | " ++ t)) with false.
    + simpl. f_equal. apply IH. intros x Hx. apply Hns. now right.
    + cbn [String.prefix append].
      destruct (ascii_dec " " c) as [e | n]; [| reflexivity].
      exfalso. apply (Hns c); [now left | now symmetry].
Qed.

Lemma offered_player_names (user : User) (db : Db) (row : MatchRow) :
  role user = "player" -> In row (Page.offered user db) ->
  player_name row = username user.
Proof.
  intros Hrole. unfold Page.offered, Page.is_player. rewrite Hrole. simpl.
  unfold Matches.fetch_matches_by_user. intros H.
  apply (Permutation_in _ (order_by_id_desc_perm _)) in H.
  apply filter_In in H. destruct H as [_ He]. now apply String.eqb_eq.
Qed.

End FormFacts.

(** X13.  Whatever a player types into the name field, the Add Match
    button does what it does for the player's own user name, and a row it
    inserts is filed under that name. *)
Theorem add_match_player_name_forced (user : User) (typed wl mp ag rk : string)
    (a : option Z) (econ : Q) (k d s : option Z) (db : Db) :
  role user = "player" ->
  Page.on_add_match user typed wl mp ag rk a econ k d s db
  = Page.on_add_match user (username user) wl mp ag rk a econ k d s db
  /\ (snd (Page.on_add_match user typed wl mp ag rk a econ k d s db) = db
      \/ exists row,
           matches (snd (Page.on_add_match user typed wl mp ag rk a econ k d s db))
           = (matches db ++ [row])%list
           /\ player_name row = username user).
Proof.
  intros Hrole. split.
  - unfold Page.on_add_match, Page.is_player. now rewrite Hrole.
  - destruct (on_add_match_cases user typed wl mp ag rk a econ k d s db)
      as [H | (a' & k' & d' & s' & _ & _ & _ & _ & _ & H)]; [now left |].
    right. rewrite H. unfold Page.is_player. rewrite Hrole. simpl.
    eexists. split; reflexivity.
Qed.

Lemma add_match_player_name_forced_witness :
  let ann := mkUser 1 "ann" "hash" "player" in
  let db := mkDb [ann] [] 2 1 in
  role ann = "player" /\
  Page.on_add_match ann "bob" "Win" "Bind" "Jett" "Gold 1"
                    (Some 200) (3 # 2) (Some 10) (Some 5) (Some 3) db
  = Page.on_add_match ann "ann" "Win" "Bind" "Jett" "Gold 1"
                      (Some 200) (3 # 2) (Some 10) (Some 5) (Some 3) db.
Proof.
  intros ann db.
  assert (Hrole : role ann = "player") by reflexivity.
  split; [exact Hrole |].
  exact (proj1 (add_match_player_name_forced ann "bob" "Win" "Bind" "Jett" "Gold 1"
                  (Some 200) (3 # 2) (Some 10) (Some 5) (Some 3) db Hrole)).
Defined.

(** X14.  The Add Match button never touches the user table and never
    changes or removes a match row: it leaves the database as it is, or
    appends exactly one row, owned by the acting user, with the next
    serial id and a combat score that is not 0. *)
Theorem add_match_appends_at_most_one (user : User) (typed wl mp ag rk : string)
    (a : option Z) (econ : Q) (k d s : option Z) (db : Db) :
  users (snd (Page.on_add_match user typed wl mp ag rk a econ k d s db)) = users db
  /\ (snd (Page.on_add_match user typed wl mp ag rk a econ k d s db) = db
      \/ exists row,
           matches (snd (Page.on_add_match user typed wl mp ag rk a econ k d s db))
           = (matches db ++ [row])%list
           /\ id row = next_match_id db
           /\ user_id row = u_id user
           /\ acs row <> 0
           /\ a = Some (acs row) /\ k = Some (kills row)
           /\ d = Some (deaths row) /\ s = Some (assists row)).
Proof.
  destruct (on_add_match_cases user typed wl mp ag rk a econ k d s db)
    as [H | (a' & k' & d' & s' & -> & Ha & -> & -> & -> & H)]; rewrite H.
  - split; [reflexivity | now left].
  - split; [reflexivity |]. right. eexists. split; [reflexivity |].
    simpl. auto 10.
Qed.

(** X15.  For a player the Delete Record button does the same whichever
    line is selected: every line offered begins with the player's own
    name, and the record id is read from there. *)
Theorem delete_form_choice_irrelevant (user : User) (choice1 choice2 : nat) (db : Db) :
  role user = "player" ->
  (choice1 < List.length (Page.offered user db))%nat ->
  (choice2 < List.length (Page.offered user db))%nat ->
  Page.on_delete user choice1 db = Page.on_delete user choice2 db.
Proof.
  intros Hrole H1 H2. unfold Page.on_delete.
  destruct (nth_error (Page.offered user db) choice1) as [row1 |] eqn:E1;
    [| apply nth_error_None in E1; lia].
  destruct (nth_error (Page.offered user db) choice2) as [row2 |] eqn:E2;
    [| apply nth_error_None in E2; lia].
  apply nth_error_In in E1, E2.
  rewrite !first_field_of_name.
  rewrite (offered_player_names user db row1 Hrole E1).
  rewrite (offered_player_names user db row2 Hrole E2).
  reflexivity.
Qed.

Lemma delete_form_choice_irrelevant_witness :
  let ann := mkUser 1 "7" "hash" "player" in
  let row7 := mkMatch 7 1 "7" "Win" "Bind" "Jett" "Gold 1" 200 (3 # 2) 10 5 3 in
  let row9 := mkMatch 9 1 "7" "Loss" "Split" "Sova" "Iron 2" 150 (1 # 1) 4 9 6 in
  let db := mkDb [ann] [row7; row9] 2 10 in
  role ann = "player" /\
  (0 < List.length (Page.offered ann db))%nat /\
  (1 < List.length (Page.offered ann db))%nat /\
  Page.on_delete ann 0 db = Page.on_delete ann 1 db /\
  Page.on_delete ann 0 db = Ok ([Page.record_deleted], mkDb [ann] [row9] 2 10).
Proof.
  intros ann row7 row9 db.
  assert (Hrole : role ann = "player") by reflexivity.
  assert (H0 : (0 < List.length (Page.offered ann db))%nat) by (simpl; lia).
  assert (H1 : (1 < List.length (Page.offered ann db))%nat) by (simpl; lia).
  split; [exact Hrole | split; [exact H0 | split; [exact H1 | split]]].
  - exact (delete_form_choice_irrelevant ann 0 1 db Hrole H0 H1).
  - reflexivity.
Defined.

(** X16.  Whatever line a player selects, a press of Delete Record that
    does not raise leaves the user table alone, removes no record owned
    by another user, and adds none. *)
Theorem delete_form_spares_others (user : User) (choice : nat) (db db' : Db)
    (msgs : list Msg) :
  role user = "player" ->
  Page.on_delete user choice db = Ok (msgs, db') ->
  users db' = users db
  /\ (forall r, In r (matches db) -> user_id r <> u_id user -> In r (matches db'))
  /\ (forall r, In r (matches db') -> In r (matches db)).
Proof.
  intros Hrole. unfold Page.on_delete.
  destruct (nth_error (Page.offered user db) choice) as [row |].
  2:{ intros H. injection H as _ <-. auto. }
  destruct (Py.int _) as [n |]; [| discriminate].
  intros H. injection H as _ <-.
  unfold Matches.delete_match, Matches.delete_match_rows, with_matches.
  rewrite Hrole. simpl. split; [reflexivity | split].
  - intros r Hin Hother. apply sql_delete_In. split; [exact Hin |].
    unfold Matches.where_id_and_owner. apply andb_false_iff. right.
    now apply Z.eqb_neq.
  - intros r Hin. apply sql_delete_In in Hin. tauto.
Qed.

Lemma delete_form_spares_others_witness :
  let ann := mkUser 1 "7" "hash" "player" in
  let row7 := mkMatch 7 2 "bob" "Win" "Bind" "Jett" "Gold 1" 200 (3 # 2) 10 5 3 in
  let row9 := mkMatch 9 1 "7" "Loss" "Split" "Sova" "Iron 2" 150 (1 # 1) 4 9 6 in
  let db := mkDb [ann] [row7; row9] 2 10 in
  role ann = "player" /\
  Page.on_delete ann 0 db = Ok ([Page.record_deleted], db) /\
  (forall r, In r (matches db) -> user_id r <> u_id ann -> In r (matches db)).
Proof.
  intros ann row7 row9 db.
  assert (Hrole : role ann = "player") by reflexivity.
  assert (Hrun : Page.on_delete ann 0 db = Ok ([Page.record_deleted], db)) by reflexivity.
  split; [exact Hrole | split; [exact Hrun |]].
  exact (proj1 (proj2 (delete_form_spares_others ann 0 db db _ Hrole Hrun))).
Defined.

(** X17.  When the player name of the selected record contains no space,
    the first field of its line is the whole name: the handler raises
    [ValueError] if [int] refuses the name, and otherwise calls
    [delete_match] with the number the name denotes. *)
Theorem delete_form_reads_name (user : User) (choice : nat) (db : Db) (row : MatchRow) :
  nth_error (Page.offered user db) choice = Some row ->
  (forall c, In c (list_ascii_of_string (player_name row)) -> c <> " "%char) ->
  Page.on_delete user choice db
  = match Py.int (player_name row) with
    | None => Raise (ValueError "invalid literal for int() with base 10")
    | Some record_id =>
        Ok ([Page.record_deleted], Matches.delete_match record_id user db)
    end.
Proof.
  intros Hsel Hns. unfold Page.on_delete. rewrite Hsel.
  unfold Page.record_option. now rewrite split_first_no_space.
Qed.

Lemma delete_form_reads_name_witness :
  let ann := mkUser 1 "ann" "hash" "player" in
  let row := mkMatch 4 1 "ann" "Win" "Bind" "Jett" "Gold 1" 200 (3 # 2) 10 5 3 in
  let db := mkDb [ann] [row] 2 5 in
  nth_error (Page.offered ann db) 0 = Some row /\
  (forall c, In c (list_ascii_of_string (player_name row)) -> c <> " "%char) /\
  Page.on_delete ann 0 db = Raise (ValueError "invalid literal for int() with base 10").
Proof.
  intros ann row db.
  assert (Hsel : nth_error (Page.offered ann db) 0 = Some row) by reflexivity.
  assert (Hns : forall c, In c (list_ascii_of_string (player_name row)) -> c <> " "%char).
  { intros c [<- | [<- | [<- | []]]]; discriminate. }
  split; [exact Hsel | split; [exact Hns |]].
  exact (delete_form_reads_name ann 0 db row Hsel Hns).
Defined.

(** ** Ratios, aggregates and the leaderboard *)

(** X18.  For kills from 0 up to [2^53] and non-negative deaths the K/D
    ratio is a finite number between 0 and the kill count, and a match
    without deaths gets the same ratio as a match with one death. *)
Theorem calculate_kd_ratio_bounds (kills deaths : Z) :
  0 <= kills < 2 ^ 53 -> 0 <= deaths ->
  (exists r : Q,
     to_float (Matches.calculate_kd_ratio kills deaths) = F64.Fin r
     /\ (0 <= r)%Q /\ (r <= inject_Z kills)%Q)
  /\ to_float (Matches.calculate_kd_ratio kills 0)
     = to_float (Matches.calculate_kd_ratio kills 1).
Proof.
  intros Hk Hd. split; [| apply to_float_int].
  unfold Matches.calculate_kd_ratio.
  destruct (Z.eqb_spec deaths 0) as [-> | Hne]; cbn [to_float].
  - exists (inject_Z kills). rewrite of_Z_exact by exact Hk.
    split; [reflexivity |]. split; [| apply Qle_refl].
    change 0%Q with (inject_Z 0). rewrite <- Zle_Qle. lia.
  - destruct (round_quotient_bounds kills deaths Hk) as (Hr & Hb & _); [lia |].
    eexists. split; [exact Hr | exact Hb].
Qed.

Lemma calculate_kd_ratio_bounds_witness :
  0 <= 10 < 2 ^ 53 /\ 0 <= 5 /\
  exists r : Q,
    to_float (Matches.calculate_kd_ratio 10 5) = F64.Fin r
    /\ (0 <= r)%Q /\ (r <= inject_Z 10)%Q.
Proof.
  assert (H10 : 0 <= 10 < 2 ^ 53) by (split; [lia | reflexivity]).
  assert (H5 : 0 <= 5) by lia.
  split; [exact H10 | split; [exact H5 |]].
  exact (proj1 (calculate_kd_ratio_bounds 10 5 H10 H5)).
Defined.

Section TotalsFacts.

Import Aggregation.

Variable f : MatchRow -> Z.

(** The sum of [f] over all rows of all groups. *)
Let total (gs : Groups) : Z := Zsum (map (fun g => Zsum (map f (snd g))) gs).

Lemma Zsum_app (l1 l2 : list Z) : Zsum (l1 ++ l2) = Zsum l1 + Zsum l2.
Proof.
  induction l1 as [| x l1 IH]; simpl; [reflexivity | rewrite IH; lia].
Qed.

Lemma total_add_to_group (r : MatchRow) (gs : Groups) :
  has_key (player_name r) gs = true ->
  total (add_to_group r gs) = total gs + f r.
Proof.
  unfold total, has_key. induction gs as [| [k rs] gs IH]; simpl.
  - discriminate.
  - destruct (String.eqb k (player_name r)); simpl.
    + intros _. rewrite map_app, Zsum_app. simpl. lia.
    + intros H. rewrite (IH H). lia.
Qed.

Lemma total_insert_key (k : string) (r : MatchRow) (gs : Groups) :
  total (insert_key k r gs) = total gs + f r.
Proof.
  unfold total. induction gs as [| [k' rs] gs IH]; simpl.
  - lia.
  - destruct (String.ltb k k'); simpl; [lia | rewrite IH; lia].
Qed.

Lemma total_step (gs : Groups) (r : MatchRow) :
  total (groupby_step gs r) = total gs + f r.
Proof.
  unfold groupby_step. destruct (has_key (player_name r) gs) eqn:E.
  - now apply total_add_to_group.
  - apply total_insert_key.
Qed.

Lemma total_groupby (data : list MatchRow) :
  total (groupby_player_name data) = Zsum (map f data).
Proof.
  unfold groupby_player_name. induction data as [| r data IH] using rev_ind.
  - reflexivity.
  - rewrite fold_left_app, map_app, Zsum_app. cbn [fold_left].
    rewrite total_step, IH. simpl. lia.
Qed.

End TotalsFacts.

Section LeaderboardFacts.

Import Aggregation.

Lemma Zsum_ones {A : Type} (l : list A) :
  Zsum (map (fun _ => 1) l) = Z.of_nat (List.length l).
Proof.
  induction l as [| x l IH]; [reflexivity |].
  cbn [map List.length]. rewrite Nat2Z.inj_succ, <- IH.
  unfold Zsum. cbn [fold_right]. lia.
Qed.

Lemma aggregate_rows (data : list MatchRow) :
  rows (aggregate_player_stats data)
  = map (fun g => round_row (agg_group g)) (groupby_player_name data).
Proof.
  destruct data; [reflexivity |].
  unfold aggregate_player_stats. cbn [rows]. apply map_map.
Qed.

Lemma aggregate_row_names (data : list MatchRow) :
  map a_player_name (rows (aggregate_player_stats data))
  = keys (groupby_player_name data).
Proof.
  rewrite aggregate_rows, map_map. reflexivity.
Qed.

Lemma ltb_total (k k' : string) :
  String.ltb k k' = false -> k <> k' -> String.ltb k' k = true.
Proof.
  unfold String.ltb. intros H Hne.
  rewrite String.compare_antisym.
  destruct (String.compare k k') eqn:E; simpl; try reflexivity; try discriminate.
  apply String.compare_eq_iff in E. contradiction.
Qed.

Lemma insert_key_sorted (k : string) (r : MatchRow) (gs : Groups) :
  ~ In k (keys gs) ->
  Sorted (fun a b => String.ltb a b = true) (keys gs) ->
  Sorted (fun a b => String.ltb a b = true) (keys (insert_key k r gs)).
Proof.
  induction gs as [| [k' rs] gs IH]; simpl; intros Hnew Hs.
  - constructor; constructor.
  - destruct (String.ltb k k') eqn:E; simpl.
    + constructor; [exact Hs | now constructor].
    + inversion Hs as [| ? ? Htail Hhead]; subst.
      assert (Hk : String.ltb k' k = true).
      { apply ltb_total; [exact E |]. intros ->. apply Hnew. now left. }
      constructor.
      * apply IH; [| exact Htail]. intros Hin. apply Hnew. now right.
      * destruct gs as [| [k'' rs''] gs]; simpl.
        -- now constructor.
        -- destruct (String.ltb k k''); simpl; constructor; [exact Hk |].
           now inversion Hhead.
Qed.

Lemma groupby_step_sorted (gs : Groups) (r : MatchRow) :
  Sorted (fun a b => String.ltb a b = true) (keys gs) ->
  Sorted (fun a b => String.ltb a b = true) (keys (groupby_step gs r)).
Proof.
  intros Hs. unfold groupby_step.
  destruct (has_key (player_name r) gs) eqn:E.
  - now rewrite keys_add_to_group.
  - apply insert_key_sorted; [| exact Hs].
    intros Hin. apply has_key_iff in Hin. congruence.
Qed.

Lemma groupby_sorted (data : list MatchRow) :
  Sorted (fun a b => String.ltb a b = true) (keys (groupby_player_name data)).
Proof.
  unfold groupby_player_name. induction data as [| r data IH] using rev_ind.
  - constructor.
  - rewrite fold_left_app. cbn [fold_left]. now apply groupby_step_sorted.
Qed.

Context {K : SortKind}.

Lemma rank_rows_perm (df ranked : DataFrame) :
  Lawful K -> rank_players df = Ok ranked -> Permutation (rows ranked) (rows df).
Proof.
  intros HK E. destruct (rank_players_rows df ranked E) as (Hrows & _).
  pose proof (nargsort_descending_perm (map avg_acs (rows df)) HK) as Hperm.
  rewrite length_map in Hperm.
  rewrite Hrows, (take_perm _ _ _ Hperm). now rewrite take_seq.
Qed.

Lemma rank_rows_sorted (df ranked : DataFrame) :
  Lawful K -> rank_players df = Ok ranked ->
  StronglySorted (fun a b => (avg_acs b <= avg_acs a)%Q) (rows ranked).
Proof.
  intros HK E. destruct (rank_players_rows df ranked E) as (Hrows & _).
  pose proof (nargsort_descending_perm (map avg_acs (rows df)) HK) as Hperm.
  rewrite length_map in Hperm.
  apply StronglySorted_map with (R := fun x y => (y <= x)%Q) (f := avg_acs).
  rewrite Hrows, (map_take avg_acs 0%Q).
  - now apply nargsort_descending_sorted.
  - intros i Hi. apply (Permutation_in _ Hperm) in Hi. apply in_seq in Hi. lia.
Qed.

Lemma leaderboard_nonempty (data : list MatchRow) :
  data <> [] ->
  leaderboard data
  = if negb (empty (aggregate_player_stats data))
    then match rank_players (aggregate_player_stats data) with
         | Ok ranked_df => Ok (Some ranked_df)
         | Raise e => Raise e
         end
    else Ok None.
Proof.
  destruct data; [contradiction | reflexivity].
Qed.

End LeaderboardFacts.

(** X19.  The aggregate loses no record and counts none twice: over its
    rows the numbers of matches add up to the number of records, and the
    kills, deaths and assists add up to those of all records. *)
Theorem aggregate_conserves_totals (data : list MatchRow) :
  Aggregation.Zsum (map matches_played (rows (Aggregation.aggregate_player_stats data)))
  = Z.of_nat (List.length data)
  /\ Aggregation.Zsum (map total_kills (rows (Aggregation.aggregate_player_stats data)))
     = Aggregation.Zsum (map kills data)
  /\ Aggregation.Zsum (map total_deaths (rows (Aggregation.aggregate_player_stats data)))
     = Aggregation.Zsum (map deaths data)
  /\ Aggregation.Zsum (map total_assists (rows (Aggregation.aggregate_player_stats data)))
     = Aggregation.Zsum (map assists data).
Proof.
  rewrite aggregate_rows, !map_map. cbn [Aggregation.round_row Aggregation.agg_group
    matches_played total_kills total_deaths total_assists
    Aggregation.g_matches_played Aggregation.g_kills Aggregation.g_deaths
    Aggregation.g_assists].
  split; [| split; [| split]].
  - rewrite <- (Zsum_ones data), <- (total_groupby (fun _ => 1) data).
    f_equal. apply map_ext. intros g. now rewrite Zsum_ones.
  - apply (total_groupby kills).
  - apply (total_groupby deaths).
  - apply (total_groupby assists).
Qed.

(** X20.  Every row of the aggregate stands for at least one record, so
    no mean is ever taken over an empty group. *)
Theorem aggregate_groups_nonempty (data : list MatchRow) (b : AggRow) :
  In b (rows (Aggregation.aggregate_player_stats data)) ->
  1 <= matches_played b
  /\ matches_played b
     = Z.of_nat (List.length (filter (fun r => String.eqb (player_name r) (a_player_name b))
                                     data)).
Proof.
  rewrite aggregate_rows. intros Hb. apply in_map_iff in Hb.
  destruct Hb as [g [<- Hg]].
  destruct (groupby_grouped data) as (_ & Hkeys & Hall).
  rewrite Forall_forall in Hall. pose proof (Hall g Hg) as Hrows.
  assert (Hne : Aggregation.rows_of (fst g) data <> []).
  { apply rows_of_present, Hkeys. unfold Aggregation.keys. now apply in_map. }
  cbn [Aggregation.round_row Aggregation.agg_group matches_played a_player_name
       Aggregation.g_matches_played Aggregation.g_player_name].
  rewrite Hrows. fold (Aggregation.rows_of (fst g) data). split; [| reflexivity].
  destruct (Aggregation.rows_of (fst g) data); [contradiction | simpl; lia].
Qed.

Lemma aggregate_groups_nonempty_witness :
  let r1 := mkMatch 1 1 "A" "Win" "Bind" "Jett" "Gold 1" 200 (3 # 2) 10 5 3 in
  let r2 := mkMatch 2 1 "A" "Loss" "Split" "Sova" "Gold 1" 300 (1 # 2) 20 0 4 in
  let b := mkAgg "A" 250 (F64.Fin 1) 30 5 7 11 2 in
  In b (rows (Aggregation.aggregate_player_stats [r1; r2])) /\ 1 <= matches_played b.
Proof.
  intros r1 r2 b.
  assert (Hb : In b (rows (Aggregation.aggregate_player_stats [r1; r2]))).
  { left. vm_compute. reflexivity. }
  split; [exact Hb |].
  exact (proj1 (aggregate_groups_nonempty [r1; r2] b Hb)).
Defined.

(** X21.  The aggregate lists the players in ascending order of name,
    each name once. *)
Theorem aggregate_names_ascending (data : list MatchRow) :
  Sorted (fun a b => String.ltb a b = true)
         (map a_player_name (rows (Aggregation.aggregate_player_stats data)))
  /\ NoDup (map a_player_name (rows (Aggregation.aggregate_player_stats data))).
Proof.
  rewrite aggregate_row_names. split.
  - apply groupby_sorted.
  - exact (proj1 (groupby_grouped data)).
Qed.

(** X22.  For any records at all, not none, and a sort that sorts: the
    page gets a leaderboard, on it every player name of the records
    appears exactly once and no other name does, and the positions run
    from 1 to the number of players. *)
Theorem leaderboard_lists_every_player (K : Aggregation.SortKind)
    (data : list MatchRow) :
  Aggregation.Lawful K ->
  data <> [] ->
  exists ranked,
    Aggregation.leaderboard data = Ok (Some ranked)
    /\ NoDup (map a_player_name (rows ranked))
    /\ (forall p, In p (map a_player_name (rows ranked)) <-> In p (map player_name data))
    /\ index ranked = map Z.of_nat (seq 1 (List.length (rows ranked))).
Proof.
  intros HK Hdata.
  destruct (groupby_grouped data) as (Hnd & Hkeys & _).
  assert (Hrows : rows (Aggregation.aggregate_player_stats data) <> []).
  { intros Hnil. pose proof (aggregate_row_names data) as Hn.
    rewrite Hnil in Hn. simpl in Hn.
    destruct data as [| r0 data0]; [contradiction |].
    assert (Hin : In (player_name r0)
                     (Aggregation.keys (Aggregation.groupby_player_name (r0 :: data0)))).
    { apply Hkeys. now left. }
    rewrite <- Hn in Hin. exact Hin. }
  assert (Hcols : columns (Aggregation.aggregate_player_stats data)
                  = Aggregation.agg_columns)
    by (destruct data; [contradiction | reflexivity]).
  assert (Hempty : Aggregation.empty (Aggregation.aggregate_player_stats data) = false).
  { unfold Aggregation.empty. rewrite Hcols.
    destruct (rows (Aggregation.aggregate_player_stats data)); [contradiction |].
    reflexivity. }
  destruct (Aggregation.rank_players (Aggregation.aggregate_player_stats data))
    as [ranked | e] eqn:E.
  2:{ unfold Aggregation.rank_players in E.
      rewrite has_avg_acs in E by (rewrite Hcols; right; left; reflexivity).
      discriminate. }
  exists ranked.
  pose proof (rank_rows_perm _ _ HK E) as Hperm.
  assert (Hnames : Permutation (map a_player_name (rows ranked))
                     (Aggregation.keys (Aggregation.groupby_player_name data))).
  { rewrite <- aggregate_row_names. now apply Permutation_map. }
  split; [| split; [| split]].
  - rewrite (leaderboard_nonempty data Hdata), Hempty. simpl. now rewrite E.
  - apply (Permutation_NoDup (Permutation_sym Hnames) Hnd).
  - intro p. rewrite <- Hkeys. split; intros Hin.
    + exact (Permutation_in _ Hnames Hin).
    + exact (Permutation_in _ (Permutation_sym Hnames) Hin).
  - destruct (rank_players_rows _ _ E) as (_ & _ & Hindex).
    rewrite Hindex. apply rank_index.
Qed.

Lemma leaderboard_lists_every_player_witness :
  let r1 := mkMatch 1 1 "A" "Win" "Bind" "Jett" "Gold 1" 200 (3 # 2) 10 5 3 in
  let r2 := mkMatch 2 2 "B" "Loss" "Split" "Sova" "Gold 1" 300 (1 # 2) 20 0 4 in
  Aggregation.Lawful Kinds.stable_kind /\
  [r1; r2] <> [] /\
  exists ranked,
    @Aggregation.leaderboard Kinds.stable_kind [r1; r2] = Ok (Some ranked)
    /\ index ranked = map Z.of_nat (seq 1 (List.length (rows ranked))).
Proof.
  intros r1 r2.
  assert (Hne : [r1; r2] <> []) by discriminate.
  split; [exact stable_kind_lawful | split; [exact Hne |]].
  destruct (leaderboard_lists_every_player Kinds.stable_kind [r1; r2]
              stable_kind_lawful Hne) as (ranked & Hboard & _ & _ & Hindex).
  exists ranked. split; [exact Hboard | exact Hindex].
Defined.

(** X23.  With a sort that sorts, nobody on the frame that was ranked has
    a higher average score than the player in position 1. *)
Theorem rank_players_top_is_best (K : Aggregation.SortKind) (df ranked : DataFrame)
    (top : AggRow) (others : list AggRow) :
  Aggregation.Lawful K ->
  Aggregation.rank_players df = Ok ranked ->
  rows ranked = top :: others ->
  forall a, In a (rows df) -> (avg_acs a <= avg_acs top)%Q.
Proof.
  intros HK E Htop a Ha.
  pose proof (rank_rows_perm _ _ HK E) as Hperm.
  pose proof (rank_rows_sorted _ _ HK E) as Hsorted.
  rewrite Htop in Hperm, Hsorted.
  apply (Permutation_in _ (Permutation_sym Hperm)) in Ha.
  inversion Hsorted as [| ? ? _ Hall]; subst.
  destruct Ha as [<- | Ha]; [apply Qle_refl |].
  rewrite Forall_forall in Hall. exact (Hall a Ha).
Qed.

Lemma rank_players_top_is_best_witness :
  let a := mkAgg "A" 250 (F64.Fin 1) 10 5 3 2 2 in
  let b := mkAgg "B" 300 (F64.Fin 1) 8 8 1 1 1 in
  let df := mkFrame Aggregation.agg_columns [0; 1] [a; b] in
  let ranked := mkFrame Aggregation.agg_columns [1; 2] [b; a] in
  Aggregation.Lawful Kinds.stable_kind /\
  @Aggregation.rank_players Kinds.stable_kind df = Ok ranked /\
  rows ranked = [b; a] /\
  (avg_acs a <= avg_acs b)%Q.
Proof.
  intros a b df ranked.
  assert (Hrank : @Aggregation.rank_players Kinds.stable_kind df = Ok ranked)
    by (vm_compute; reflexivity).
  assert (Hrows : rows ranked = [b; a]) by reflexivity.
  split; [exact stable_kind_lawful | split; [exact Hrank | split; [exact Hrows |]]].
  apply (rank_players_top_is_best Kinds.stable_kind df ranked b [a]
           stable_kind_lawful Hrank Hrows a).
  now left.
Defined.

(** ** What a player sees and what a player may delete *)

Section VisibilityFacts.

Lemma unique_id (l : list MatchRow) (x r : MatchRow) :
  NoDup (map id l) -> In x l -> In r l -> id x = id r -> x = r.
Proof.
  induction l as [| y l IH]; simpl; intros Hnd Hx Hr He.
  - contradiction.
  - inversion Hnd as [| ? ? Hnotin Hrest]; subst.
    destruct Hx as [-> | Hx], Hr as [-> | Hr].
    + reflexivity.
    + exfalso. apply Hnotin. rewrite He. now apply in_map.
    + exfalso. apply Hnotin. rewrite <- He. now apply in_map.
    + now apply IH.
Qed.

End VisibilityFacts.

(** X24.  Records are shown to a player by name and deleted by owner.  A
    record filed under a player's name by somebody else is offered to
    that player in the delete form, and yet [delete_match] called by the
    player with the very id of that record removes nothing. *)
Theorem named_but_not_owned (user : User) (db : Db) (r : MatchRow) :
  role user = "player" ->
  ids_ok db ->
  In r (matches db) ->
  player_name r = username user ->
  user_id r <> u_id user ->
  In r (Page.offered user db)
  /\ Matches.delete_match (id r) user db = db.
Proof.
  intros Hrole [Hnd _] Hin Hname Howner. split.
  - unfold Page.offered, Page.is_player. rewrite Hrole. simpl.
    unfold Matches.fetch_matches_by_user.
    apply (Permutation_in _ (Permutation_sym (order_by_id_desc_perm _))).
    apply filter_In. split; [exact Hin | now apply String.eqb_eq].
  - unfold Matches.delete_match, Matches.delete_match_rows, with_matches.
    rewrite Hrole. simpl. rewrite sql_delete_none; [now destruct db |].
    intros x Hx. unfold Matches.where_id_and_owner.
    destruct (Z.eqb_spec (id x) (id r)) as [He | Hne]; [| reflexivity].
    simpl. apply Z.eqb_neq.
    now rewrite (unique_id (matches db) x r Hnd Hx Hin He).
Qed.

Lemma named_but_not_owned_witness :
  let ann := mkUser 2 "ann" "hash" "player" in
  let row := mkMatch 4 1 "ann" "Win" "Bind" "Jett" "Gold 1" 200 (3 # 2) 10 5 3 in
  let db := mkDb [ann] [row] 3 5 in
  role ann = "player" /\ ids_ok db /\ In row (matches db) /\
  player_name row = username ann /\ user_id row <> u_id ann /\
  In row (Page.offered ann db) /\ Matches.delete_match 4 ann db = db.
Proof.
  intros ann row db.
  assert (Hrole : role ann = "player") by reflexivity.
  assert (Hok : ids_ok db).
  { split.
    - simpl. constructor; [intros [] | constructor].
    - intros r [<- | []]. simpl. lia. }
  assert (Hin : In row (matches db)) by (now left).
  assert (Hname : player_name row = username ann) by reflexivity.
  assert (Howner : user_id row <> u_id ann) by discriminate.
  split; [exact Hrole | split; [exact Hok | split; [exact Hin |
    split; [exact Hname | split; [exact Howner |]]]]].
  exact (named_but_not_owned ann db row Hrole Hok Hin Hname Howner).
Defined.

(** X25.  On a database whose ids are below the serial counter, a match
    that a player has just submitted with a combat score other than 0 is
    the first record the delete form offers to that player afterwards,
    ahead of the records offered before. *)
Theorem submitted_match_offered_first (user : User) (typed wl mp ag rk : string)
    (a : Z) (econ : Q) (k d s : Z) (db : Db) :
  role user = "player" ->
  (forall r, In r (matches db) -> id r < next_match_id db) ->
  a <> 0 ->
  Page.offered user
    (snd (Page.on_add_match user typed wl mp ag rk (Some a) econ (Some k) (Some d) (Some s) db))
  = mkMatch (next_match_id db) (u_id user) (username user) wl mp ag rk a econ k d s
    :: Page.offered user db.
Proof.
  intros Hrole Hfresh Ha.
  unfold Page.on_add_match, Page.offered, Page.is_player. rewrite Hrole. simpl.
  apply Z.eqb_neq in Ha. rewrite Ha. simpl.
  unfold Matches.fetch_matches_by_user, Matches.add_match. simpl.
  rewrite filter_app. simpl. rewrite String.eqb_refl.
  apply order_by_id_desc_newest.
  intros x Hx. apply filter_In in Hx. simpl. apply Hfresh. tauto.
Qed.

Lemma submitted_match_offered_first_witness :
  let ann := mkUser 1 "ann" "hash" "player" in
  let row := mkMatch 4 1 "ann" "Win" "Bind" "Jett" "Gold 1" 200 (3 # 2) 10 5 3 in
  let db := mkDb [ann] [row] 2 5 in
  role ann = "player" /\
  (forall r, In r (matches db) -> id r < next_match_id db) /\
  150 <> 0 /\
  Page.offered ann
    (snd (Page.on_add_match ann "" "Loss" "Split" "Sova" "Gold 1"
            (Some 150) (1 # 2) (Some 4) (Some 9) (Some 6) db))
  = [mkMatch 5 1 "ann" "Loss" "Split" "Sova" "Gold 1" 150 (1 # 2) 4 9 6; row].
Proof.
  intros ann row db.
  assert (Hrole : role ann = "player") by reflexivity.
  assert (Hfresh : forall r, In r (matches db) -> id r < next_match_id db).
  { intros r [<- | []]. simpl. lia. }
  assert (Ha : 150 <> 0) by lia.
  split; [exact Hrole | split; [exact Hfresh | split; [exact Ha |]]].
  exact (submitted_match_offered_first ann "" "Loss" "Split" "Sova" "Gold 1"
           150 (1 # 2) 4 9 6 db Hrole Hfresh Ha).
Defined.
